(** * wled-draw: pixel grid, serpentine encoder, undo history, update
      coalescer and gradient field

    A shallow embedding of the core of the WLED matrix editor:
    - [Controls]  : the composable appended to [src/components/Controls.vue]
                    (version 2.0, serpentine [formattedColors]);
    - [WledDraw]  : the TypeScript composable [useWledDraw] with the debounced
                    sender ([src/unnamed/part_004]); [src/unnamed/part_001] is
                    the same composable without the debounce machinery;
    - [Gradient]  : [src/components/GradientGenerator.vue];
    - [Stops]     : the editor of the color stops of the same file;
    - [App]       : [applyGradient] and [applyImageToCanvas] of
                    [src/unnamed/part_002];
    - [Picker]    : the palettes and the channel conversions of
                    [src/unnamed/part_003], [src/components/ColorPicker.vue]
                    and [src/unnamed/part_005];
    - [Startup]   : [loadFromLocalStorage] of [src/unnamed/part_004];
    - [Session], [Payload] : predicates of the properties.

    JavaScript values are modelled as follows.
    - An array cell is a hole, [undefined] (which also stands for a [null]
      read back from JSON: no modelled function tells them apart) or a
      string.
    - Array indices, grid dimensions and timer handles are [nat].
    - Numbers of the ramp of color stops are real numbers ([R]). The
      arithmetic of the gradient field is binary64: each operation is the
      operation on real numbers followed by a rounding, of which the
      properties assume what [Gradient.rounding] states, so that they hold
      for round-to-nearest as for exact arithmetic. A division by zero,
      which gives [NaN] or an infinity in the source, ends the computation
      of the field as [NotFinite].
    - Time is the order of events: the calls of the composable's functions,
      the expiry of a timeout, an animation frame, the response to a
      request. The browser's side (armed timeouts, queued frame callbacks,
      requests sent) is part of the state. *)

From Stdlib Require Import Reals Lra Lia ZArith String Ascii List.
From Stdlib Require Import Zfloor HexString.
From stdpp Require Import base list strings pretty.

Local Open Scope string_scope.
Local Open Scope list_scope.
Local Open Scope nat_scope.

(** ** JavaScript arrays and strings *)

Module JS.

Inductive cell : Type :=
| Hole
| Undefined
| Str (s : string).

(** [a[i]]: a hole and an index out of range read as [undefined]. *)
Definition get (a : list cell) (i : nat) : cell :=
  match a !! i with
  | Some (Str s) => Str s
  | _ => Undefined
  end.

(** [a[i] = v]: writing out of range extends the array with holes. *)
Definition set (a : list cell) (i : nat) (v : cell) : list cell :=
  if i <? length a
  then <[i:=v]> a
  else a ++ replicate (i - length a) Hole ++ [v].

(** [[...a]]: the spread copy reads every index, so holes become
    [undefined]. *)
Definition spread (a : list cell) : list cell :=
  map (fun v => match v with Hole => Undefined | _ => v end) a.

(** [a[i] === s] for a string [s]. *)
Definition is_str (v : cell) (s : string) : bool :=
  match v with
  | Str t => String.eqb t s
  | _ => false
  end.

(** [a.slice(s, e)] for [0 <= s]. *)
Definition slice {A : Type} (a : list A) (s e : nat) : list A :=
  take (e - s) (drop s a).

(** [a.join(sep)] on an array of strings. *)
Definition join (sep : string) (a : list string) : string :=
  String.concat sep a.

(** [s.replaceAll(c, rep)] for a one-character pattern [c]. *)
Fixpoint replaceAll (c : ascii) (rep : string) (s : string) : string :=
  match s with
  | EmptyString => EmptyString
  | String d r =>
      if Ascii.eqb d c
      then rep +:+ replaceAll c rep r
      else String d (replaceAll c rep r)
  end.

(** [s.split(c)] for a one-character separator [c]. *)
Fixpoint split_go (c : ascii) (cur : string) (s : string) : list string :=
  match s with
  | EmptyString => [cur]
  | String d r =>
      if Ascii.eqb d c
      then cur :: split_go c EmptyString r
      else split_go c (cur +:+ String d EmptyString) r
  end.

Definition split (c : ascii) (s : string) : list string :=
  split_go c EmptyString s.

(** The double-quote character of the template literals. *)
Definition dq : string := String (ascii_of_nat 34) EmptyString.

(** [`${v}`]: how a template literal prints a value. *)
Definition show (v : cell) : string :=
  match v with
  | Str s => s
  | _ => "undefined"
  end.

(** [v || d]: [undefined] and the empty string are falsy. *)
Definition or_default (v : cell) (d : string) : string :=
  match v with
  | Str EmptyString => d
  | Str s => s
  | _ => d
  end.

(** [a.map(f).join(",")]: [map] skips the holes, and [join] prints a hole
    as the empty string. *)
Definition map_join (f : cell -> string) (a : list cell) : string :=
  join "," (map (fun v => match v with Hole => "" | _ => f v end) a).

(** [a.toString()]: comma-joined, holes and [undefined] printed as the
    empty string. *)
Definition toString (a : list cell) : string :=
  join "," (map (fun v => match v with Str s => s | _ => "" end) a).

End JS.

(** ** The serpentine encoder ([src/components/Controls.vue], composable 2.0) *)

Module Controls.

Import JS.

(** One iteration of the [for (let y = 0; y < gridHeight; y++)] loop of
    [formattedColors]. *)
Definition row_step (gridWidth : nat) (pixelData : list cell)
    (serpentine : list cell) (y : nat) : list cell :=
  let rowStart := y * gridWidth in
  let rowEnd := rowStart + gridWidth in
  let rowColors := slice pixelData rowStart rowEnd in
  let isReversedRow := negb (y mod 2 =? 0) in
  if isReversedRow
  then serpentine ++ reverse (spread rowColors)
  else serpentine ++ rowColors.

(** The array [serpentine] when the loop ends. *)
Definition serpentine (gridWidth gridHeight : nat) (pixelData : list cell)
    : list cell :=
  fold_left (row_step gridWidth pixelData) (seq 0 gridHeight) [].

Definition formattedColors (gridWidth gridHeight : nat)
    (pixelData : list cell) : string :=
  replaceAll "#" ""
    (map_join (fun color => dq +:+ show color +:+ dq)
              (serpentine gridWidth gridHeight pixelData)).

Definition nightlightTimerString (nightlightTimer : nat) : string :=
  if 0 <? nightlightTimer
  then dq +:+ "nl" +:+ dq +:+ ": {" +:+ dq +:+ "on" +:+ dq +:+ ": true, "
       +:+ dq +:+ "dur" +:+ dq +:+ ": " +:+ pretty nightlightTimer +:+ "},"
  else "".

Definition wledJson (gridWidth gridHeight nightlightTimer : nat)
    (pixelData : list cell) : string :=
  "{" +:+ dq +:+ "on" +:+ dq +:+ ": true," +:+ dq +:+ "bri" +:+ dq
  +:+ ": 128," +:+ nightlightTimerString nightlightTimer +:+ " "
  +:+ dq +:+ "v" +:+ dq +:+ ": true, " +:+ dq +:+ "seg" +:+ dq +:+ ": {"
  +:+ dq +:+ "i" +:+ dq +:+ ":["
  +:+ formattedColors gridWidth gridHeight pixelData +:+ "]}}".

(** The order of the specification: the rows one after the other, the
    odd-indexed ones reversed. *)
Definition physical_order (w h : nat) (cells : list cell) : list cell :=
  concat (map (fun y =>
                 let row := slice cells (y * w) (y * w + w) in
                 if Nat.odd y then reverse row else row)
              (seq 0 h)).

(** The row that the loop body appends for [y]. *)
Definition encoded_row (w : nat) (cells : list cell) (y : nat) : list cell :=
  if negb (y mod 2 =? 0)
  then reverse (spread (slice cells (y * w) (y * w + w)))
  else slice cells (y * w) (y * w + w).

(** The grid of the scenario: red, green, blue, white. *)
Definition grid2x2 : list cell :=
  [Str "#ff0000"; Str "#00ff00"; Str "#0000ff"; Str "#ffffff"].

End Controls.


(** ** The composable [useWledDraw] with the debounced sender
       ([src/unnamed/part_004]) *)

Module WledDraw.

Import JS.

Inductive HistoryAction : Type :=
| DrawAction (index : nat) (color : cell)      (* the previous color *)
| ClearAction (pixels : list cell).            (* the previous pixels *)

Definition maxHistoryLength : nat := 50.

(** [localStorage]. A key is tested for truthiness only, so an absent key
    and the empty string are both the empty string here. [drawHistory]
    holds JSON text, represented by the log it parses to; the numeric keys
    are represented by the number they print. *)
Record Storage : Type := {
  ls_pixelData : string;
  ls_currentColor : string;
  ls_colorPalette : string;
  ls_gridWidth : option nat;
  ls_gridHeight : option nat;
  ls_debounceDelay : option nat;
  ls_drawHistory : option (list HistoryAction)
}.

Record State : Type := {
  (* refs of the composable *)
  gridWidth : nat;
  gridHeight : nat;
  pixelData : list cell;
  currentColor : string;
  colorPalette : list string;
  ignoreApi : bool;
  history : list HistoryAction;
  debounceDelay : nat;
  debounceTimer : option nat;
  isUpdatePending : bool;
  pixelDataChanged : bool;
  localStorage : Storage;
  (* the browser: armed timeouts (handle, delay), the next handle of
     [setTimeout], queued animation-frame callbacks, the bodies POSTed so
     far and the number of requests awaiting their response *)
  timeouts : list (nat * nat);
  nextHandle : nat;
  frames : nat;
  posted : list string;
  inflight : nat
}.

(** Assignments to one field. *)
Definition set_gridWidth (v : nat) (s : State) : State :=
  {| gridWidth := v; gridHeight := gridHeight s; pixelData := pixelData s;
     currentColor := currentColor s; colorPalette := colorPalette s;
     ignoreApi := ignoreApi s; history := history s;
     debounceDelay := debounceDelay s; debounceTimer := debounceTimer s;
     isUpdatePending := isUpdatePending s;
     pixelDataChanged := pixelDataChanged s; localStorage := localStorage s;
     timeouts := timeouts s; nextHandle := nextHandle s; frames := frames s;
     posted := posted s; inflight := inflight s |}.

Definition set_gridHeight (v : nat) (s : State) : State :=
  {| gridWidth := gridWidth s; gridHeight := v; pixelData := pixelData s;
     currentColor := currentColor s; colorPalette := colorPalette s;
     ignoreApi := ignoreApi s; history := history s;
     debounceDelay := debounceDelay s; debounceTimer := debounceTimer s;
     isUpdatePending := isUpdatePending s;
     pixelDataChanged := pixelDataChanged s; localStorage := localStorage s;
     timeouts := timeouts s; nextHandle := nextHandle s; frames := frames s;
     posted := posted s; inflight := inflight s |}.

Definition set_pixelData (v : list cell) (s : State) : State :=
  {| gridWidth := gridWidth s; gridHeight := gridHeight s; pixelData := v;
     currentColor := currentColor s; colorPalette := colorPalette s;
     ignoreApi := ignoreApi s; history := history s;
     debounceDelay := debounceDelay s; debounceTimer := debounceTimer s;
     isUpdatePending := isUpdatePending s;
     pixelDataChanged := pixelDataChanged s; localStorage := localStorage s;
     timeouts := timeouts s; nextHandle := nextHandle s; frames := frames s;
     posted := posted s; inflight := inflight s |}.

Definition set_ignoreApi (v : bool) (s : State) : State :=
  {| gridWidth := gridWidth s; gridHeight := gridHeight s;
     pixelData := pixelData s; currentColor := currentColor s;
     colorPalette := colorPalette s; ignoreApi := v; history := history s;
     debounceDelay := debounceDelay s; debounceTimer := debounceTimer s;
     isUpdatePending := isUpdatePending s;
     pixelDataChanged := pixelDataChanged s; localStorage := localStorage s;
     timeouts := timeouts s; nextHandle := nextHandle s; frames := frames s;
     posted := posted s; inflight := inflight s |}.

Definition set_history (v : list HistoryAction) (s : State) : State :=
  {| gridWidth := gridWidth s; gridHeight := gridHeight s;
     pixelData := pixelData s; currentColor := currentColor s;
     colorPalette := colorPalette s; ignoreApi := ignoreApi s; history := v;
     debounceDelay := debounceDelay s; debounceTimer := debounceTimer s;
     isUpdatePending := isUpdatePending s;
     pixelDataChanged := pixelDataChanged s; localStorage := localStorage s;
     timeouts := timeouts s; nextHandle := nextHandle s; frames := frames s;
     posted := posted s; inflight := inflight s |}.

Definition set_debounceDelay (v : nat) (s : State) : State :=
  {| gridWidth := gridWidth s; gridHeight := gridHeight s;
     pixelData := pixelData s; currentColor := currentColor s;
     colorPalette := colorPalette s; ignoreApi := ignoreApi s;
     history := history s; debounceDelay := v;
     debounceTimer := debounceTimer s; isUpdatePending := isUpdatePending s;
     pixelDataChanged := pixelDataChanged s; localStorage := localStorage s;
     timeouts := timeouts s; nextHandle := nextHandle s; frames := frames s;
     posted := posted s; inflight := inflight s |}.

Definition set_debounceTimer (v : option nat) (s : State) : State :=
  {| gridWidth := gridWidth s; gridHeight := gridHeight s;
     pixelData := pixelData s; currentColor := currentColor s;
     colorPalette := colorPalette s; ignoreApi := ignoreApi s;
     history := history s; debounceDelay := debounceDelay s;
     debounceTimer := v; isUpdatePending := isUpdatePending s;
     pixelDataChanged := pixelDataChanged s; localStorage := localStorage s;
     timeouts := timeouts s; nextHandle := nextHandle s; frames := frames s;
     posted := posted s; inflight := inflight s |}.

Definition set_isUpdatePending (v : bool) (s : State) : State :=
  {| gridWidth := gridWidth s; gridHeight := gridHeight s;
     pixelData := pixelData s; currentColor := currentColor s;
     colorPalette := colorPalette s; ignoreApi := ignoreApi s;
     history := history s; debounceDelay := debounceDelay s;
     debounceTimer := debounceTimer s; isUpdatePending := v;
     pixelDataChanged := pixelDataChanged s; localStorage := localStorage s;
     timeouts := timeouts s; nextHandle := nextHandle s; frames := frames s;
     posted := posted s; inflight := inflight s |}.

Definition set_pixelDataChanged (v : bool) (s : State) : State :=
  {| gridWidth := gridWidth s; gridHeight := gridHeight s;
     pixelData := pixelData s; currentColor := currentColor s;
     colorPalette := colorPalette s; ignoreApi := ignoreApi s;
     history := history s; debounceDelay := debounceDelay s;
     debounceTimer := debounceTimer s; isUpdatePending := isUpdatePending s;
     pixelDataChanged := v; localStorage := localStorage s;
     timeouts := timeouts s; nextHandle := nextHandle s; frames := frames s;
     posted := posted s; inflight := inflight s |}.

Definition set_localStorage (v : Storage) (s : State) : State :=
  {| gridWidth := gridWidth s; gridHeight := gridHeight s;
     pixelData := pixelData s; currentColor := currentColor s;
     colorPalette := colorPalette s; ignoreApi := ignoreApi s;
     history := history s; debounceDelay := debounceDelay s;
     debounceTimer := debounceTimer s; isUpdatePending := isUpdatePending s;
     pixelDataChanged := pixelDataChanged s; localStorage := v;
     timeouts := timeouts s; nextHandle := nextHandle s; frames := frames s;
     posted := posted s; inflight := inflight s |}.

Definition set_timeouts (v : list (nat * nat)) (s : State) : State :=
  {| gridWidth := gridWidth s; gridHeight := gridHeight s;
     pixelData := pixelData s; currentColor := currentColor s;
     colorPalette := colorPalette s; ignoreApi := ignoreApi s;
     history := history s; debounceDelay := debounceDelay s;
     debounceTimer := debounceTimer s; isUpdatePending := isUpdatePending s;
     pixelDataChanged := pixelDataChanged s; localStorage := localStorage s;
     timeouts := v; nextHandle := nextHandle s; frames := frames s;
     posted := posted s; inflight := inflight s |}.

Definition set_nextHandle (v : nat) (s : State) : State :=
  {| gridWidth := gridWidth s; gridHeight := gridHeight s;
     pixelData := pixelData s; currentColor := currentColor s;
     colorPalette := colorPalette s; ignoreApi := ignoreApi s;
     history := history s; debounceDelay := debounceDelay s;
     debounceTimer := debounceTimer s; isUpdatePending := isUpdatePending s;
     pixelDataChanged := pixelDataChanged s; localStorage := localStorage s;
     timeouts := timeouts s; nextHandle := v; frames := frames s;
     posted := posted s; inflight := inflight s |}.

Definition set_frames (v : nat) (s : State) : State :=
  {| gridWidth := gridWidth s; gridHeight := gridHeight s;
     pixelData := pixelData s; currentColor := currentColor s;
     colorPalette := colorPalette s; ignoreApi := ignoreApi s;
     history := history s; debounceDelay := debounceDelay s;
     debounceTimer := debounceTimer s; isUpdatePending := isUpdatePending s;
     pixelDataChanged := pixelDataChanged s; localStorage := localStorage s;
     timeouts := timeouts s; nextHandle := nextHandle s; frames := v;
     posted := posted s; inflight := inflight s |}.

Definition set_posted (v : list string) (s : State) : State :=
  {| gridWidth := gridWidth s; gridHeight := gridHeight s;
     pixelData := pixelData s; currentColor := currentColor s;
     colorPalette := colorPalette s; ignoreApi := ignoreApi s;
     history := history s; debounceDelay := debounceDelay s;
     debounceTimer := debounceTimer s; isUpdatePending := isUpdatePending s;
     pixelDataChanged := pixelDataChanged s; localStorage := localStorage s;
     timeouts := timeouts s; nextHandle := nextHandle s; frames := frames s;
     posted := v; inflight := inflight s |}.

Definition set_inflight (v : nat) (s : State) : State :=
  {| gridWidth := gridWidth s; gridHeight := gridHeight s;
     pixelData := pixelData s; currentColor := currentColor s;
     colorPalette := colorPalette s; ignoreApi := ignoreApi s;
     history := history s; debounceDelay := debounceDelay s;
     debounceTimer := debounceTimer s; isUpdatePending := isUpdatePending s;
     pixelDataChanged := pixelDataChanged s; localStorage := localStorage s;
     timeouts := timeouts s; nextHandle := nextHandle s; frames := frames s;
     posted := posted s; inflight := v |}.

(** *** Payload *)

Definition formattedColors (s : State) : string :=
  replaceAll "#" ""
    (map_join (fun color => dq +:+ or_default color "#000000" +:+ dq)
              (pixelData s)).

Definition wledJson (s : State) : string :=
  "{" +:+ dq +:+ "on" +:+ dq +:+ ": true," +:+ dq +:+ "bri" +:+ dq
  +:+ ": 230, " +:+ dq +:+ "v" +:+ dq +:+ ": true, " +:+ dq +:+ "seg"
  +:+ dq +:+ ": {" +:+ dq +:+ "i" +:+ dq +:+ ":[" +:+ formattedColors s
  +:+ "]}}".

(** *** Persistence *)

Definition store_history (s : State) : State :=
  let ls := localStorage s in
  set_localStorage
    {| ls_pixelData := ls_pixelData ls;
       ls_currentColor := ls_currentColor ls;
       ls_colorPalette := ls_colorPalette ls;
       ls_gridWidth := ls_gridWidth ls;
       ls_gridHeight := ls_gridHeight ls;
       ls_debounceDelay := ls_debounceDelay ls;
       ls_drawHistory := Some (history s) |} s.

Definition saveToLocalStorage (s : State) : State :=
  set_localStorage
    {| ls_pixelData := toString (pixelData s);
       ls_currentColor := currentColor s;
       ls_colorPalette := join "," (colorPalette s);
       ls_gridWidth := Some (gridWidth s);
       ls_gridHeight := Some (gridHeight s);
       ls_debounceDelay := Some (debounceDelay s);
       ls_drawHistory := ls_drawHistory (localStorage s) |} s.

Definition loadHistoryFromStorage (s : State) : State :=
  match ls_drawHistory (localStorage s) with
  | Some h => set_history h s
  | None => s
  end.

(** *** History *)

Definition saveToHistory (action : HistoryAction) (s : State) : State :=
  let pushed := history s ++ [action] in
  let kept :=
    if maxHistoryLength <? length pushed then tail pushed else pushed in
  store_history (set_history kept s).

(** The log that [saveToHistory] leaves: the push, then the eviction. *)
Definition pushed (h : list HistoryAction) (a : HistoryAction)
    : list HistoryAction :=
  if maxHistoryLength <? length (h ++ [a]) then tail (h ++ [a])
  else h ++ [a].

(** *** The sender *)

Definition sendToWledImmediate (s : State) : State :=
  if ignoreApi s then s
  else set_inflight (S (inflight s))
         (set_posted (posted s ++ [wledJson s]) s).

Definition debouncedSendToWled (s : State) : State :=
  if ignoreApi s then s
  else
    let s := set_pixelDataChanged true s in
    match debounceTimer s with
    | Some _ => s
    | None =>
        let handle := nextHandle s in
        set_debounceTimer (Some handle)
          (set_nextHandle (S handle)
             (set_timeouts (timeouts s ++ [(handle, debounceDelay s)]) s))
    end.

(** The callback given to [setTimeout]. *)
Definition timeout_callback (s : State) : State :=
  if pixelDataChanged s
  then set_frames (S (frames s)) (set_isUpdatePending true s)
  else set_debounceTimer None s.

(** The callback given to [requestAnimationFrame]. *)
Definition frame_callback (s : State) : State :=
  set_debounceTimer None (set_isUpdatePending false (sendToWledImmediate s)).

(** [clearTimeout(handle)]. *)
Definition clearTimeout (handle : nat) (s : State) : State :=
  set_timeouts (filter (fun t => fst t <> handle) (timeouts s)) s.

Definition flushChanges (s : State) : State :=
  let s :=
    match debounceTimer s with
    | Some handle => set_debounceTimer None (clearTimeout handle s)
    | None => s
    end in
  if pixelDataChanged s then sendToWledImmediate s else s.

(** *** Grid operations *)

Definition undo (s : State) : State :=
  match last (history s) with
  | None => s
  | Some lastAction =>
      let s := set_history (removelast (history s)) s in
      let s :=
        match lastAction with
        | DrawAction index color =>
            set_pixelData (set (pixelData s) index color) s
        | ClearAction pixels => set_pixelData (spread pixels) s
        end in
      let s := store_history s in
      let s := saveToLocalStorage s in
      let s := set_pixelDataChanged true s in
      debouncedSendToWled s
  end.

(** The grid that [undo] leaves when it pops [a]. *)
Definition restored (a : HistoryAction) (pixels : list cell) : list cell :=
  match a with
  | DrawAction index color => set pixels index color
  | ClearAction previous => spread previous
  end.

Definition clearScreen (s : State) : State :=
  let s := saveToHistory (ClearAction (spread (pixelData s))) s in
  let s :=
    set_pixelData
      (replicate (gridWidth s * gridHeight s) (Str "#000000")) s in
  let s := saveToLocalStorage s in
  let s := set_pixelDataChanged true s in
  debouncedSendToWled s.

Definition setupGrid (s : State) : State :=
  let gridSize := gridWidth s * gridHeight s in
  let localData :=
    match ls_pixelData (localStorage s) with
    | EmptyString => []
    | text => split "," text
    end in
  let cellOf (i : nat) : cell :=
    match localData !! i with
    | Some (String c r) => Str (String c r)
    | _ => Str "#000000"
    end in
  let s := set_pixelData (map cellOf (seq 0 gridSize)) s in
  let s := loadHistoryFromStorage s in
  match ls_debounceDelay (localStorage s) with
  | Some delay => set_debounceDelay delay s
  | None => s
  end.

Definition updatePixel (index : nat) (newColor : string) (s : State)
    : State :=
  if is_str (get (pixelData s) index) newColor then s
  else
    let s :=
      saveToHistory (DrawAction index (get (pixelData s) index)) s in
    let s := set_pixelData (set (pixelData s) index (Str newColor)) s in
    let s := set_pixelDataChanged true s in
    saveToLocalStorage s.

(** The body of the [forEach] of [batchUpdatePixels]; an index is a
    number, possibly negative. *)
Definition batch_step (newColor : string) (s : State) (index : Z) : State :=
  let i := Z.to_nat index in
  if (0 <=? index)%Z && (i <? length (pixelData s))
     && negb (is_str (get (pixelData s) i) newColor)
  then
    let s := saveToHistory (DrawAction i (get (pixelData s) i)) s in
    set_pixelData (set (pixelData s) i (Str newColor)) s
  else s.

Definition batchUpdatePixels (indices : list Z) (newColor : string)
    (s : State) : State :=
  let s := fold_left (batch_step newColor) indices s in
  let s := set_pixelDataChanged true s in
  let s := saveToLocalStorage s in
  debouncedSendToWled s.

Definition applyPixelArray (newPixels : list cell) (s : State) : State :=
  if (length newPixels =? 0)
     || negb (length newPixels =? length (pixelData s))
  then s
  else
    let s := saveToHistory (ClearAction (spread (pixelData s))) s in
    let s := set_pixelData (spread newPixels) s in
    let s := set_pixelDataChanged true s in
    let s := saveToLocalStorage s in
    debouncedSendToWled s.

Definition ignoreApiAndContinue (s : State) : State :=
  setupGrid (set_ignoreApi true s).

(** *** Events

    What can happen to the composable: a call of one of the functions it
    returns, an assignment to the grid dimensions (the watcher on
    [[gridWidth, gridHeight]] then runs [setupGrid]), the expiry of an
    armed timeout, an animation frame, and the response to a request. *)

Inductive event : Type :=
| Call_updatePixel (index : nat) (newColor : string)
| Call_batchUpdatePixels (indices : list Z) (newColor : string)
| Call_applyPixelArray (newPixels : list cell)
| Call_clearScreen
| Call_undo
| Call_debouncedSendToWled
| Call_sendToWledImmediate
| Call_flushChanges
| Call_setupGrid
| Call_ignoreApiAndContinue
| Set_dimensions (width height : nat)
| Timeout_expires (handle : nat)
| Animation_frame
| Response_ok
| Response_failed.

Definition resize (width height : nat) (s : State) : State :=
  if (width =? gridWidth s) && (height =? gridHeight s) then s
  else setupGrid (set_gridHeight height (set_gridWidth width s)).

Definition expire (handle : nat) (s : State) : State :=
  if existsb (fun t => fst t =? handle) (timeouts s)
  then timeout_callback (clearTimeout handle s)
  else s.

Definition animate (s : State) : State :=
  match frames s with
  | O => s
  | S n => frame_callback (set_frames n s)
  end.

(** The [then] handler of [sendToWledImmediate] resets the change flag;
    its [catch] handler assigns to the error it caught, which leaves the
    composable as it is. *)
Definition respond (ok : bool) (s : State) : State :=
  match inflight s with
  | O => s
  | S n =>
      let s := set_inflight n s in
      if ok then set_pixelDataChanged false s else s
  end.

Definition step (s : State) (e : event) : State :=
  match e with
  | Call_updatePixel index newColor => updatePixel index newColor s
  | Call_batchUpdatePixels indices newColor =>
      batchUpdatePixels indices newColor s
  | Call_applyPixelArray newPixels => applyPixelArray newPixels s
  | Call_clearScreen => clearScreen s
  | Call_undo => undo s
  | Call_debouncedSendToWled => debouncedSendToWled s
  | Call_sendToWledImmediate => sendToWledImmediate s
  | Call_flushChanges => flushChanges s
  | Call_setupGrid => setupGrid s
  | Call_ignoreApiAndContinue => ignoreApiAndContinue s
  | Set_dimensions width height => resize width height s
  | Timeout_expires handle => expire handle s
  | Animation_frame => animate s
  | Response_ok => respond true s
  | Response_failed => respond false s
  end.

Definition run (events : list event) (s : State) : State :=
  fold_left step events s.

(** The composable when [useWledDraw] returns, over an empty store. *)
Definition initial : State :=
  {| gridWidth := 14; gridHeight := 20; pixelData := [];
     currentColor := "#ff2500";
     colorPalette := ["#ff2500"; "#ff9305"; "#fdfc00"; "#20f80f";
                      "#0533ff"; "#ffffff"; "#929292"; "#000000"];
     ignoreApi := false; history := []; debounceDelay := 100;
     debounceTimer := None; isUpdatePending := false;
     pixelDataChanged := false;
     localStorage :=
       {| ls_pixelData := ""; ls_currentColor := ""; ls_colorPalette := "";
          ls_gridWidth := None; ls_gridHeight := None;
          ls_debounceDelay := None; ls_drawHistory := None |};
     timeouts := []; nextHandle := 1; frames := 0; posted := [];
     inflight := 0 |}.

(** The bound on the log, in memory and in the store. *)
Definition log_bounded (s : State) : Prop :=
  length (history s) <= maxHistoryLength
  /\ forall h, ls_drawHistory (localStorage s) = Some h ->
               length h <= maxHistoryLength.

(** [record(action)] of the specification is [saveToHistory]; here a
    sequence of them. *)
Definition record_all (actions : list HistoryAction) (s : State) : State :=
  fold_left (fun s a => saveToHistory a s) actions s.

(** The invariant of the pixel buffer. *)
Definition size_ok (s : State) : Prop :=
  length (pixelData s) = gridWidth s * gridHeight s.

(** An action of the log fits a buffer of [n] cells. *)
Definition action_fits (n : nat) (a : HistoryAction) : Prop :=
  match a with
  | DrawAction index _ => index < n
  | ClearAction pixels => length pixels = n
  end.

(** An event that keeps the buffer at its size: an [updatePixel] within the
    buffer, an [undo] whose popped action fits the buffer; every other event
    is. *)
Definition admissible (s : State) (e : event) : Prop :=
  match e with
  | Call_updatePixel index _ => index < length (pixelData s)
  | Call_undo =>
      match last (history s) with
      | Some a => action_fits (length (pixelData s)) a
      | None => True
      end
  | _ => True
  end.

(** The buffer has its size and so has every action of the log and of its
    stored copy. *)
Definition grid_consistent (s : State) : Prop :=
  size_ok s
  /\ Forall (action_fits (length (pixelData s))) (history s)
  /\ forall h, ls_drawHistory (localStorage s) = Some h ->
               Forall (action_fits (length (pixelData s))) h.

(** An event of a session at the dimensions [w] and [h]. *)
Definition at_dimensions (w h : nat) (e : event) : Prop :=
  match e with
  | Call_updatePixel index _ => index < w * h
  | Set_dimensions width height => width = w /\ height = h
  | _ => True
  end.

(** A function that leaves the grid, the log and the store as they are. *)
Definition keeps_grid (f : State -> State) : Prop :=
  forall s,
    pixelData (f s) = pixelData s
    /\ gridWidth (f s) = gridWidth s
    /\ gridHeight (f s) = gridHeight s
    /\ history (f s) = history s
    /\ localStorage (f s) = localStorage s.

(** *** The debounce window

    An event of the window: an edit of the grid or a call of
    [debouncedSendToWled]; neither sends at once, cancels the timeout nor
    delivers a response. *)
Definition quiet (e : event) : Prop :=
  match e with
  | Call_updatePixel _ _ | Call_batchUpdatePixels _ _
  | Call_applyPixelArray _ | Call_clearScreen | Call_undo
  | Call_debouncedSendToWled => True
  | _ => False
  end.

(** [t] has the sender of [s]; the change flag may have been raised. *)
Definition sender_same (t s : State) : Prop :=
  ignoreApi t = ignoreApi s
  /\ debounceDelay t = debounceDelay s
  /\ debounceTimer t = debounceTimer s
  /\ timeouts t = timeouts s
  /\ nextHandle t = nextHandle s
  /\ frames t = frames s
  /\ posted t = posted s
  /\ (pixelDataChanged s = true -> pixelDataChanged t = true).




(** *** The composable without the debounced sender
       ([src/unnamed/part_001])

    It has neither the change flag nor the debounce delay; its
    [saveToHistory] is the one above. *)
Definition saveToLocalStorage_part_001 (s : State) : State :=
  set_localStorage
    {| ls_pixelData := toString (pixelData s);
       ls_currentColor := currentColor s;
       ls_colorPalette := join "," (colorPalette s);
       ls_gridWidth := Some (gridWidth s);
       ls_gridHeight := Some (gridHeight s);
       ls_debounceDelay := ls_debounceDelay (localStorage s);
       ls_drawHistory := ls_drawHistory (localStorage s) |} s.

Definition updatePixel_part_001 (index : nat) (newColor : string)
    (s : State) : State :=
  if is_str (get (pixelData s) index) newColor then s
  else
    let s :=
      saveToHistory (DrawAction index (get (pixelData s) index)) s in
    let s := set_pixelData (set (pixelData s) index (Str newColor)) s in
    saveToLocalStorage_part_001 s.

End WledDraw.

(** ** The gradient field ([src/components/GradientGenerator.vue])

    Numbers are real numbers; the arithmetic of the field rounds them to
    binary64 after every operation (see [rounding]). [parseInt(t, 16)] is
    modelled on strings of hexadecimal digits, which is what the substrings
    of a [#RRGGBB] color are; [None] is [NaN]. A function that throws
    returns [None]. *)

Module Gradient.

Local Open Scope R_scope.

Record ColorStop : Type := { color : string; position : R }.

Inductive GradientKind : Type := linear | radial | elliptical.

(** The refs of the component that the field reads. *)
Record Settings : Type := {
  gradientType : GradientKind;
  customAngle : R;
  centerX : R;
  centerY : R;
  ellipticalRotation : R;
  scaleValue : R;
  colorStops : list ColorStop
}.

(** *** Numbers *)

(** [x % y]: the remainder has the sign of the dividend. *)
Definition js_rem (x y : R) : R :=
  let q := x / y in
  x - y * IZR (if Rle_dec 0 q then Zfloor q else Zceil q).

(** [Math.round]: to the nearest integer, a tie to the greater one. *)
Definition Math_round (x : R) : Z := Zfloor (x + / 2).

Definition convertAngleToCss (angle : R) : R :=
  js_rem (angle + 90 + 360) 360.

(** [parseInt(t, 16)] on the longest prefix of hexadecimal digits. *)
Fixpoint parseInt16_go (t : string) (acc : N) (seen : bool) : option Z :=
  match t with
  | EmptyString => if seen then Some (Z.of_N acc) else None
  | String c r =>
      match HexString.ascii_to_digit c with
      | Some d => parseInt16_go r (16 * acc + d)%N true
      | None => if seen then Some (Z.of_N acc) else None
      end
  end.

Definition parseInt16 (t : string) : option Z := parseInt16_go t 0%N false.

(** [n.toString(16)] on an integer. *)
Definition toString16 (n : Z) : string :=
  match n with
  | Z0 => "0"
  | Zpos p => HexString.Raw.of_pos p ""
  | Zneg p => "-" +:+ HexString.Raw.of_pos p ""
  end.

(** [t.padStart(2, "0")]. *)
Definition padStart2 (t : string) : string :=
  match t with
  | EmptyString => "00"
  | String c EmptyString => String "0" t
  | _ => t
  end.

(** [t.substring(a, b)] for [a <= b]. *)
Definition substring (a b : nat) (t : string) : string :=
  String.substring a (b - a) t.

(** *** The ramp of color stops *)

(** One channel of [interpolateColor], from the parsed channels to the two
    printed digits. *)
Definition channel (c1 c2 : option Z) (factor : R) : string :=
  match c1, c2 with
  | Some v1, Some v2 =>
      padStart2 (toString16 (Math_round (IZR v1 + factor * (IZR v2 - IZR v1))))
  | _, _ => "NaN"
  end.

Definition interpolateColor (color1 color2 : string) (factor : R) : string :=
  let r1 := parseInt16 (substring 1 3 color1) in
  let g1 := parseInt16 (substring 3 5 color1) in
  let b1 := parseInt16 (substring 5 7 color1) in
  let r2 := parseInt16 (substring 1 3 color2) in
  let g2 := parseInt16 (substring 3 5 color2) in
  let b2 := parseInt16 (substring 5 7 color2) in
  "#" +:+ channel r1 r2 factor +:+ channel g1 g2 factor
  +:+ channel b1 b2 factor.

(** [[...colorStops].sort((a, b) => a.position - b.position)]: a stable
    sort by position. *)
Fixpoint insert_stop (s : ColorStop) (l : list ColorStop) : list ColorStop :=
  match l with
  | [] => [s]
  | t :: r =>
      if Rle_dec (position s) (position t) then s :: l
      else t :: insert_stop s r
  end.

Definition sort_stops (l : list ColorStop) : list ColorStop :=
  fold_right insert_stop [] l.

(** The loop that looks for the two stops around [pos]: the index of the
    first pair that brackets it. *)
Fixpoint find_start (pos : R) (sorted : list ColorStop) (i : nat)
    : option nat :=
  match sorted with
  | a :: (b :: _) as rest =>
      if Rle_dec (position a) pos then
        if Rle_dec pos (position b) then Some i
        else find_start pos rest (S i)
      else find_start pos rest (S i)
  | _ => None
  end.

Definition getColorAtPosition (stops : list ColorStop) (pos : R)
    : option string :=
  let sorted := sort_stops stops in
  match head sorted, last sorted with
  | Some first, Some final =>
      if Rle_dec pos (position first) then Some (color first)
      else if Rle_dec (position final) pos then Some (color final)
      else
        let startIndex := default 0%nat (find_start pos sorted 0) in
        match sorted !! startIndex, sorted !! S startIndex with
        | Some start, Some end_ =>
            let factor :=
              (pos - position start) / (position end_ - position start) in
            Some (interpolateColor (color start) (color end_) factor)
        | _, _ => None
        end
  | _, _ => None
  end.

(** *** The cache *)

(** The key of the cache, as the tuple of the values that the template
    literal prints. *)
Definition key : Type := GradientKind * Z * Z * (R * R * R * R * R).

Definition kind_eqb (a b : GradientKind) : bool :=
  match a, b with
  | linear, linear | radial, radial | elliptical, elliptical => true
  | _, _ => false
  end.

Definition Reqb (a b : R) : bool := if Req_dec_T a b then true else false.

Definition key_eqb (a b : key) : bool :=
  let '(ka, xa, ya, (a1, a2, a3, a4, a5)) := a in
  let '(kb, xb, yb, (b1, b2, b3, b4, b5)) := b in
  kind_eqb ka kb && (xa =? xb)%Z && (ya =? yb)%Z
  && Reqb a1 b1 && Reqb a2 b2 && Reqb a3 b3 && Reqb a4 b4 && Reqb a5 b5.

(** [colorCache]: a [Map], its entries in insertion order. *)
Definition cache : Type := list (key * string).

Fixpoint cache_get (k : key) (c : cache) : option string :=
  match c with
  | [] => None
  | (k', v) :: r => if key_eqb k k' then Some v else cache_get k r
  end.

(** [getColorFromCache(key, calcFunc)]; [calc] is what [calcFunc] returns,
    [None] when it throws. The result is [None] as well when
    [colorCache.get(key)] finds no entry. *)
Definition getColorFromCache (k : key) (calc : option string) (c : cache)
    : option (string * cache) :=
  match cache_get k c with
  | Some v => Some (v, c)
  | None =>
      match calc with
      | None => None
      | Some v =>
          let c1 := c ++ [(k, v)] in
          let c2 := if (5000 <? length c1)%nat then drop 2500 c1 else c1 in
          match cache_get k c2 with
          | Some v' => Some (v', c2)
          | None => None
          end
      end
  end.

(** *** Binary64 arithmetic

    The numbers of the field are binary64 values. An arithmetic operation
    of the source is the operation on real numbers followed by the rounding
    to the nearest binary64 value; [rounding] collects what the properties
    below use of that rounding, each of which round-to-nearest has: it
    leaves a binary64 value as it is, it is monotone, the integers up to
    2^53 in magnitude and their halves are binary64 values, and the error
    is at most the magnitude divided by 2^53, or 2^-64 for the smallest
    magnitudes. Overflow is outside the model. A division by zero gives
    [NaN] or an infinity in the source; the model has no such number and
    follows the source no further ([NotFinite]). *)

Record rounding : Type := {
  fl :> R -> R;
  fl_idem : forall v, fl (fl v) = fl v;
  fl_mono : forall u v, u <= v -> fl u <= fl v;
  fl_int :
    forall z : Z, (Z.abs z <= 9007199254740992)%Z -> fl (IZR z) = IZR z;
  fl_half :
    forall z : Z, (Z.abs z <= 9007199254740992)%Z ->
      fl (IZR z / 2) = IZR z / 2;
  fl_error :
    forall v,
      Rabs (fl v - v)
      <= Rabs v / 9007199254740992 + / 18446744073709551616
}.

(** Arithmetic without rounding is one such rounding. *)
Definition exact_rounding : rounding.
Proof.
  refine {| fl := fun v => v |}.
  - reflexivity.
  - intros u v H. exact H.
  - reflexivity.
  - reflexivity.
  - intros v. unfold Rminus. rewrite Rplus_opp_r, Rabs_R0.
    apply Rplus_le_le_0_compat.
    + apply Rmult_le_pos; [apply Rabs_pos|].
      apply Rlt_le, Rinv_0_lt_compat. lra.
    + apply Rlt_le, Rinv_0_lt_compat. lra.
Defined.

(** [Math.PI], [Math.cos] and [Math.sin]; the language fixes the cosine and
    the sine of 0. *)
Record MathLibrary : Type := {
  Math_PI : R;
  Math_cos : R -> R;
  Math_sin : R -> R;
  Math_cos_0 : Math_cos 0 = 1;
  Math_sin_0 : Math_sin 0 = 0
}.

(** The functions of the real numbers are one such library. *)
Definition real_functions : MathLibrary :=
  {| Math_PI := PI; Math_cos := cos; Math_sin := sin;
     Math_cos_0 := cos_0; Math_sin_0 := sin_0 |}.

(** What a computation comes to: a value, a [TypeError], or a number that
    is not finite. *)
Inductive computed (A : Type) : Type :=
| Value (a : A)
| Throws
| NotFinite.

Arguments Value {A} a.
Arguments Throws {A}.
Arguments NotFinite {A}.

(** [None] of a function that throws, as [Throws]. *)
Definition returned {A : Type} (r : option A) : computed A :=
  match r with
  | Some a => Value a
  | None => Throws
  end.

(** *** The field *)

Section Field.

Variables (fl : rounding) (m : MathLibrary).
Variables (g : Settings) (width height : nat).

(** [a / b]; [None] where [b] is 0. *)
Definition quotient (a b : R) : option R :=
  if Req_dec_T b 0 then None else Some (fl (a / b)).

(** [Math.sqrt(v)]; [None] where [v] is negative. *)
Definition Math_sqrt (v : R) : option R :=
  if Rlt_dec v 0 then None else Some (fl (sqrt v)).

Definition scaleFactor : R := fl (scaleValue g / 100).

(** The normalized and scaled coordinate of the column or the row [i] of
    the [n] columns or rows: [scaledX] and [scaledY] are computed alike. *)
Definition scaled (n i : nat) : option R :=
  let original := Rmin (fl (INR i * 1)) (fl (INR n - 1)) in
  match quotient original (fl (INR n - 1)) with
  | None => None
  | Some normalized =>
      match quotient (fl (normalized - 0.5)) scaleFactor with
      | None => None
      | Some q => Some (fl (0.5 + q))
      end
  end.

Definition scaledX (x : nat) : option R := scaled width x.

Definition scaledY (y : nat) : option R := scaled height y.

Definition isOutsideRange (sx sy : R) : bool :=
  if Rlt_dec sx 0 then true
  else if Rgt_dec sx 1 then true
  else if Rlt_dec sy 0 then true
  else if Rgt_dec sy 1 then true
  else false.

(** [mappedX] and [mappedY]: [s] the scaled coordinate, [n] the width or
    the height. *)
Definition mapped (outside : bool) (s : R) (n : nat) : Z :=
  if outside
  then if Rlt_dec s 0 then 0%Z else (Z.of_nat n - 1)%Z
  else
    Z.min (Z.max 0 (Math_round (fl (s * fl (INR n - 1)))))
          (Z.of_nat n - 1).

(** The key of the pixel whose scaled coordinates are [sx] and [sy]. *)
Definition cacheKey (sx sy : R) : key :=
  let outside := isOutsideRange sx sy in
  (gradientType g, mapped outside sx width, mapped outside sy height,
   (customAngle g, centerX g, centerY g, ellipticalRotation g, scaleValue g)).

(** The position along the direction of [customAngle]. *)
Definition linearPosition (sx sy : R) : R :=
  let angleRad := fl (fl (customAngle g * Math_PI m) / 180) in
  let angleVector := (Math_cos m angleRad, Math_sin m angleRad) in
  let position :=
    fl (fl (fl (sx * fst angleVector) + fl (sy * snd angleVector)) * 100) in
  Rmax 0 (Rmin 100 position).

(** The distance from the center, in percent of the greatest one. *)
Definition radialDistance (sx sy : R) : option R :=
  let centerXNorm := fl (centerX g / 100) in
  let centerYNorm := fl (centerY g / 100) in
  let dx := fl (sx - centerXNorm) in
  let dy := fl (sy - centerYNorm) in
  match quotient (INR width) (INR height) with
  | None => None
  | Some aspectRatio =>
      let dx := fl (dx * aspectRatio) in
      let '(dx, dy) :=
        match gradientType g with
        | elliptical =>
            let '(dx, dy) :=
              if Req_dec_T (ellipticalRotation g) 0 then (dx, dy)
              else
                let rotationRad :=
                  fl (fl (ellipticalRotation g * Math_PI m) / 180) in
                (fl (fl (dx * Math_cos m rotationRad)
                     - fl (dy * Math_sin m rotationRad)),
                 fl (fl (dx * Math_sin m rotationRad)
                     + fl (dy * Math_cos m rotationRad))) in
            (dx, fl (dy * 2))
        | _ => (dx, dy)
        end in
      let maxDistanceX :=
        fl (Rmax centerXNorm (fl (1 - centerXNorm)) * aspectRatio) in
      let maxDistanceY := Rmax centerYNorm (fl (1 - centerYNorm)) in
      match
        Math_sqrt (fl (fl (maxDistanceX * maxDistanceX)
                       + fl (maxDistanceY * maxDistanceY))),
        Math_sqrt (fl (fl (dx * dx) + fl (dy * dy)))
      with
      | Some maxDistance, Some root =>
          match quotient root maxDistance with
          | Some ratio => Some (fl (ratio * 100))
          | None => None
          end
      | _, _ => None
      end
  end.

(** [getColorAtPosition(position)] as a computation. *)
Definition ramp (position : R) : computed string :=
  returned (getColorAtPosition (colorStops g) position).

(** The function given to [getColorFromCache] for the pixel whose scaled
    coordinates are [sx] and [sy]. *)
Definition calcColor (sx sy : R) : computed string :=
  if isOutsideRange sx sy then
    match gradientType g with
    | linear => ramp (linearPosition sx sy)
    | _ => ramp 100
    end
  else
    match gradientType g with
    | linear => ramp (linearPosition sx sy)
    | _ =>
        match radialDistance sx sy with
        | Some distance => ramp (Rmin distance 100)
        | None => NotFinite
        end
    end.

(** [getColorFromCache(cacheKey, calcFunc)], [calc] being what [calcFunc]
    comes to: it is called on a miss only. *)
Definition cached (k : key) (calc : computed string) (c : cache)
    : computed (string * cache) :=
  match calc, cache_get k c with
  | Value v, _ => returned (getColorFromCache k (Some v) c)
  | NotFinite, None => NotFinite
  | _, _ => returned (getColorFromCache k None c)
  end.

(** The body of the inner loop: the pixels so far and the cache. *)
Definition pixel_step (y : nat) (acc : computed (list string * cache))
    (x : nat) : computed (list string * cache) :=
  match acc with
  | Value (optimizedPixels, c) =>
      match scaledX x, scaledY y with
      | Some sx, Some sy =>
          match cached (cacheKey sx sy) (calcColor sx sy) c with
          | Value (color, c') => Value (optimizedPixels ++ [color], c')
          | Throws => Throws
          | NotFinite => NotFinite
          end
      | _, _ => NotFinite
      end
  | _ => acc
  end.

Definition row_loop (acc : computed (list string * cache)) (y : nat)
    : computed (list string * cache) :=
  fold_left (pixel_step y) (seq 0 width) acc.

(** [calculateOptimizedPixels(width, height)] from the cache [c]: the
    pixels in row-major order and the cache it leaves. [skipFactor] is 1, so
    the pixels computed are the pixels returned. *)
Definition calculateOptimizedPixels (c : cache)
    : computed (list string * cache) :=
  fold_left row_loop (seq 0 height) (Value ([], c)).

(** Every entry of the cache holds the color of the pixels of its key. *)
Definition cache_sound (c : cache) : Prop :=
  Forall (fun e : key * string =>
            forall x y sx sy, (x < width)%nat -> (y < height)%nat ->
              scaledX x = Some sx -> scaledY y = Some sy ->
              key_eqb (cacheKey sx sy) (fst e) = true ->
              calcColor sx sy = Value (snd e)) c.

End Field.

(** The dimensions for which the properties of the field are stated: at
    least two columns or rows, so that [width - 1] and [height - 1] are not
    0, and at most 2^32. *)
Definition dimension (n : nat) : Prop :=
  (2 <= n)%nat /\ (Z.of_nat n <= 4294967296)%Z.

(** The scaled coordinate of the column or the row [i] of [n] at scale
    100, where the division by the scale factor changes nothing. *)
Definition coordinate (fl : rounding) (n i : nat) : R :=
  fl (0.5 + fl (fl (INR i / (INR n - 1)) - 0.5)).

(** The position on the ramp of column [x] at angle 0 and scale 100. *)
Definition column_position (fl : rounding) (width x : nat) : R :=
  fl (coordinate fl width x * 100).

(** The settings within the ranges of their sliders. *)
Definition slider_ranges (g : Settings) : Prop :=
  0 <= customAngle g <= 359
  /\ 0 <= centerX g <= 100 /\ 0 <= centerY g <= 100
  /\ 0 <= ellipticalRotation g <= 359
  /\ 50 <= scaleValue g <= 300.

(** The stops of the scenario: red at 0, blue at 100. *)
Definition red_blue : list ColorStop :=
  [ {| color := "#ff0000"; position := 0 |};
    {| color := "#0000ff"; position := 100 |} ].

(** A linear gradient at angle 0 and scale 100 over [stops]. *)
Definition linear_at_0 (stops : list ColorStop) : Settings :=
  {| gradientType := linear; customAngle := 0; centerX := 50; centerY := 50;
     ellipticalRotation := 0; scaleValue := 100; colorStops := stops |}.

End Gradient.

(** ** Invariants of the composable, stated for the properties below *)

Module Session.

Import JS WledDraw.

(** The stored copy of the log is the log; with no stored copy the log is
    empty. *)
Definition log_mirrored (s : State) : Prop :=
  match ls_drawHistory (localStorage s) with
  | Some h => h = history s
  | None => history s = []
  end.

(** The index [k] of a batch update names a cell of a buffer of [n]
    cells. *)
Definition names_cell (n : nat) (k : Z) : bool :=
  (0 <=? k)%Z && (Z.to_nat k <? n).

(** The string holds no comma, so that the comma-joined text of the store
    splits back into the cells. *)
Fixpoint comma_free (t : string) : Prop :=
  match t with
  | EmptyString => True
  | String c r => c <> ","%char /\ comma_free r
  end.

Definition cells_comma_free (a : list cell) : Prop :=
  Forall (fun v => match v with Str t => comma_free t | _ => True end) a.

(** How [toString] prints a cell. *)
Definition printed (v : cell) : string :=
  match v with Str t => t | _ => "" end.

(** The store holds the text of the buffer, as after every edit. *)
Definition pixels_stored (s : State) : Prop :=
  ls_pixelData (localStorage s) = toString (pixelData s).

End Session.

(** ** The color stops and their editor

    The functions of [src/components/GradientGenerator.vue] that edit the
    list of color stops, and the predicates of the properties of the ramp. *)

Module Stops.

Import Gradient.
Local Open Scope R_scope.

(** The positions never go down along the list. *)
Fixpoint ascending (l : list ColorStop) : Prop :=
  match l with
  | [] => True
  | a :: r => Forall (fun b => position a <= position b) r /\ ascending r
  end.

(** The three channels that [interpolateColor] reads from a color. *)
Definition channels (c : string) : option (Z * Z * Z) :=
  match parseInt16 (substring 1 3 c), parseInt16 (substring 3 5 c),
        parseInt16 (substring 5 7 c) with
  | Some r, Some g, Some b => Some (r, g, b)
  | _, _, _ => None
  end.

Definition byte_range (v : Z) : Prop := (0 <= v <= 255)%Z.

Definition is_hex (c : ascii) : bool :=
  match HexString.ascii_to_digit c with Some _ => true | None => false end.

Fixpoint all_hex (t : string) : bool :=
  match t with
  | EmptyString => true
  | String c r => is_hex c && all_hex r
  end.

(** A color as a color input gives it: [#] and six hexadecimal digits. *)
Definition hex_color (c : string) : bool :=
  match c with
  | String h r => Ascii.eqb h "#" && (String.length r =? 6)%nat && all_hex r
  | EmptyString => false
  end.


(** [padStart2 (toString16 n)] is two digits that [parseInt16] reads back
    as [n]. *)
Definition prints_as_pair (n : Z) : bool :=
  match padStart2 (toString16 n) with
  | String c (String d EmptyString) =>
      match HexString.ascii_to_digit c, HexString.ascii_to_digit d with
      | Some hi, Some lo => (Z.of_N (16 * hi + lo) =? n)%Z
      | _, _ => false
      end
  | _ => false
  end.

(** The loop of [addColorStop] over the neighbouring stops: [maxGap] and
    [gapPos] so far. *)
Fixpoint largest_gap (sorted : list ColorStop) (acc : R * R) : R * R :=
  match sorted with
  | a :: (b :: _) as rest =>
      let gap := position b - position a in
      largest_gap rest
        (if Rgt_dec gap (fst acc) then (gap, position a + gap / 2) else acc)
  | _ => acc
  end.

(** [found?.color || d]. *)
Definition color_or (found : option ColorStop) (d : string) : string :=
  match found with
  | Some s => match color s with EmptyString => d | c => c end
  | None => d
  end.

Definition below (p : R) (s : ColorStop) : bool :=
  if Rlt_dec (position s) p then true else false.

Definition above (p : R) (s : ColorStop) : bool :=
  if Rgt_dec (position s) p then true else false.

(** The stop that [addColorStop] pushes. *)
Definition new_stop (stops : list ColorStop) : ColorStop :=
  let sorted := sort_stops stops in
  let gapPos := snd (largest_gap sorted (0, 50)) in
  {| color :=
       interpolateColor
         (color_or (List.find (below gapPos) sorted) "#000000")
         (color_or (List.find (above gapPos) sorted) "#ffffff")
         0.5;
     position := gapPos |}.

(** [addColorStop] and [removeColorStop] as functions on the list of
    stops; what they store and emit is left out. *)
Definition addColorStop (stops : list ColorStop) : list ColorStop :=
  if (4 <=? length stops)%nat then stops
  else stops ++ [new_stop stops].

(** [splice(index, 1)] for an index that is not negative. *)
Definition removeColorStop (index : nat) (stops : list ColorStop)
    : list ColorStop :=
  if (length stops <=? 2)%nat then stops
  else take index stops ++ drop (S index) stops.

(** [updateStopColor] and [updateStopPosition] on the stops and the cache
    of colors, which they clear; [None] when the assignment throws: no stop
    at [index]. *)
Definition updateStopColor (index : nat) (newColor : string)
    (e : list ColorStop * cache) : option (list ColorStop * cache) :=
  let '(stops, c) := e in
  match stops !! index with
  | Some s =>
      Some (<[index := {| color := newColor; position := position s |}]> stops,
            [])
  | None => None
  end.

Definition updateStopPosition (index : nat) (newPosition : R)
    (e : list ColorStop * cache) : option (list ColorStop * cache) :=
  let '(stops, c) := e in
  match stops !! index with
  | Some s =>
      Some (<[index := {| color := color s;
                          position := Rmax 0 (Rmin 100 newPosition) |}]> stops,
            [])
  | None => None
  end.

(** What the template and the editor keep: two to four stops, at positions
    between 0 and 100. *)
Definition stops_ok (stops : list ColorStop) : Prop :=
  (2 <= length stops <= 4)%nat
  /\ Forall (fun s => 0 <= position s <= 100) stops.

(** The stops of a fresh component. *)
Definition default_stops : list ColorStop :=
  [ {| color := "#FF3300"; position := 9 |};
    {| color := "#FFB005"; position := 24 |} ].

End Stops.

(** ** The application over the composable without the debounced sender
       ([src/unnamed/part_002] over [src/unnamed/part_001]) *)

Module App.

Import JS WledDraw.

(** [sendToWled] of [src/unnamed/part_001]: the request is sent at once;
    nothing of the state depends on its response. *)
Definition sendToWled (s : State) : State :=
  if ignoreApi s then s else set_posted (posted s ++ [wledJson s]) s.

(** The callback of the [forEach] of [applyGradient] and of
    [applyImageToCanvas]. *)
Definition apply_step (s : State) (p : nat * string) : State :=
  let '(index, color) := p in
  if index <? length (pixelData s)
  then updatePixel_part_001 index color s
  else s.

(** [applyGradient(gradientData)]; [applyImageToCanvas] has the same
    body. *)
Definition applyGradient (gradientData : list string) (s : State) : State :=
  sendToWled
    (fold_left apply_step
       (combine (seq 0 (length gradientData)) gradientData) s).

Definition applyImageToCanvas (imagePixelData : list string) (s : State)
    : State :=
  sendToWled
    (fold_left apply_step
       (combine (seq 0 (length imagePixelData)) imagePixelData) s).

End App.

(** ** The pickers of colors ([src/unnamed/part_003],
       [src/components/ColorPicker.vue], [src/unnamed/part_005]) *)

Module Picker.

Import JS Gradient.

(** [palette.includes(color)]. *)
Definition includes (palette : list string) (color : string) : bool :=
  existsb (String.eqb color) palette.

(** The palette that [updateColor] of [src/unnamed/part_003] leaves:
    [pop], then [unshift]. *)
Definition updateColor (localColor : string) (paletteColors : list string)
    : list string :=
  if includes paletteColors localColor then paletteColors
  else localColor :: removelast paletteColors.

(** [addToColorHistory] of [src/components/ColorPicker.vue]. *)
Definition addToColorHistory (color : string) (colorHistory : list string)
    : list string :=
  if includes colorHistory color then colorHistory
  else color :: slice colorHistory 0 7.

(** [updateRgbValues]: the three channels, [None] for [NaN]. *)
Definition updateRgbValues (hex : string)
    : option Z * option Z * option Z :=
  (parseInt16 (substring 1 3 hex), parseInt16 (substring 3 5 hex),
   parseInt16 (substring 5 7 hex)).

(** The color that [updateHexFromRgb] builds from the three channels. *)
Definition updateHexFromRgb (r g b : Z) : string :=
  "#" +:+ padStart2 (toString16 r) +:+ padStart2 (toString16 g)
  +:+ padStart2 (toString16 b).

(** [rgbToHex] of [src/unnamed/part_005]. *)
Definition rgbToHex (r g b : R) : string :=
  "#" +:+ join ""
            (map (fun x => padStart2 (toString16 (Math_round x))) [r; g; b]).

End Picker.

(** ** The text of the request *)

Module Payload.

Import JS.

(** The character [c] occurs in [t]. *)
Fixpoint occurs (c : ascii) (t : string) : bool :=
  match t with
  | EmptyString => false
  | String d r => Ascii.eqb d c || occurs c r
  end.

(** What a cell of the buffer contributes to the list of colors of
    [src/unnamed/part_004]: nothing for a hole, the quoted color without
    its [#] otherwise, black for [undefined] and for the empty string. *)
Definition entry (v : cell) : string :=
  match v with
  | Hole => ""
  | _ => dq +:+ replaceAll "#" "" (or_default v "#000000") +:+ dq
  end.

End Payload.

(** ** Loading the settings ([src/unnamed/part_004]) *)

Module Startup.

Import JS WledDraw.

Definition set_currentColor (v : string) (s : State) : State :=
  {| gridWidth := gridWidth s; gridHeight := gridHeight s;
     pixelData := pixelData s; currentColor := v;
     colorPalette := colorPalette s; ignoreApi := ignoreApi s;
     history := history s; debounceDelay := debounceDelay s;
     debounceTimer := debounceTimer s; isUpdatePending := isUpdatePending s;
     pixelDataChanged := pixelDataChanged s; localStorage := localStorage s;
     timeouts := timeouts s; nextHandle := nextHandle s; frames := frames s;
     posted := posted s; inflight := inflight s |}.

Definition set_colorPalette (v : list string) (s : State) : State :=
  {| gridWidth := gridWidth s; gridHeight := gridHeight s;
     pixelData := pixelData s; currentColor := currentColor s;
     colorPalette := v; ignoreApi := ignoreApi s;
     history := history s; debounceDelay := debounceDelay s;
     debounceTimer := debounceTimer s; isUpdatePending := isUpdatePending s;
     pixelDataChanged := pixelDataChanged s; localStorage := localStorage s;
     timeouts := timeouts s; nextHandle := nextHandle s; frames := frames s;
     posted := posted s; inflight := inflight s |}.

(** [loadFromLocalStorage]: the assignments of its body. The watcher of the
    dimensions, which runs [setupGrid] after them, is the event
    [Set_dimensions]. *)
Definition loadFromLocalStorage (s : State) : State :=
  let ls := localStorage s in
  let s :=
    match ls_currentColor ls with
    | EmptyString => s
    | color => set_currentColor color s
    end in
  let s :=
    match ls_colorPalette ls with
    | EmptyString => s
    | text => set_colorPalette (split "," text) s
    end in
  let s :=
    match ls_gridWidth ls with
    | Some width => set_gridWidth width s
    | None => s
    end in
  let s :=
    match ls_gridHeight ls with
    | Some height => set_gridHeight height s
    | None => s
    end in
  match ls_debounceDelay ls with
  | Some delay => set_debounceDelay delay s
  | None => s
  end.

End Startup.

(** * Properties *)

Import JS.

(** ** Arrays *)

Lemma spread_idemp (a : list cell) : spread (spread a) = spread a.
Proof.
  unfold spread. rewrite map_map. apply map_ext. intros []; reflexivity.
Qed.

Lemma spread_app (a b : list cell) : spread (a ++ b) = spread a ++ spread b.
Proof. apply map_app. Qed.

Lemma spread_reverse (a : list cell) : spread (reverse a) = reverse (spread a).
Proof.
  induction a as [|v a IH]; [reflexivity|].
  rewrite reverse_cons, spread_app, IH. simpl. rewrite reverse_cons.
  reflexivity.
Qed.

Lemma spread_slice (a : list cell) (s e : nat) :
  spread (slice a s e) = slice (spread a) s e.
Proof.
  unfold slice, spread. rewrite <- firstn_map, <- skipn_map. reflexivity.
Qed.

Lemma length_spread (a : list cell) : length (spread a) = length a.
Proof. apply length_map. Qed.

Lemma get_spread (a : list cell) (i : nat) : get (spread a) i = get a i.
Proof.
  unfold get, spread. change (map ?f a) with (f <$> a).
  rewrite list_lookup_fmap. destruct (a !! i) as [[]|]; reflexivity.
Qed.

Lemma lookup_slice {A : Type} (a : list A) (s n i : nat) :
  i < n -> slice a s (s + n) !! i = a !! (s + i).
Proof.
  intros Hi. unfold slice. replace (s + n - s) with n by lia.
  rewrite lookup_take_lt by assumption. apply lookup_drop.
Qed.

Lemma length_slice {A : Type} (a : list A) (s n : nat) :
  s + n <= length a -> length (slice a s (s + n)) = n.
Proof.
  intros H. unfold slice. rewrite length_take, length_drop. lia.
Qed.

Lemma length_concat_rows {A : Type} (row : nat -> list A) (w h : nat) :
  (forall y, y < h -> length (row y) = w) ->
  length (concat (map row (seq 0 h))) = w * h.
Proof.
  induction h as [|h IH]; intros Hlen; [simpl; lia|].
  rewrite seq_S, map_app, concat_app, length_app, IH
    by (intros; apply Hlen; lia).
  simpl. rewrite app_nil_r, Hlen by lia. lia.
Qed.

(** Reading a concatenation of rows of equal length. *)
Lemma lookup_concat_rows {A : Type} (row : nat -> list A) (w h y x : nat) :
  (forall y', y' < h -> length (row y') = w) ->
  y < h -> x < w ->
  concat (map row (seq 0 h)) !! (y * w + x) = row y !! x.
Proof.
  intros Hlen. induction h as [|h IH]; intros Hy Hx; [lia|].
  assert (Hpre : length (concat (map row (seq 0 h))) = w * h)
    by (apply length_concat_rows; intros; apply Hlen; lia).
  rewrite seq_S, map_app, concat_app. simpl. rewrite app_nil_r.
  destruct (decide (y = h)) as [->|Hne].
  - rewrite lookup_app_r by lia. f_equal. lia.
  - rewrite lookup_app_l by nia.
    apply IH; [intros; apply Hlen; lia | lia | assumption].
Qed.

(** ** The serpentine encoder *)

Section Serpentine.

Import Controls.

Variables (w : nat) (cells : list cell).

Lemma odd_test (y : nat) : negb (y mod 2 =? 0) = Nat.odd y.
Proof.
  rewrite <- Nat.bit0_mod, Nat.bit0_odd.
  destruct (Nat.odd y); reflexivity.
Qed.

Lemma serpentine_loop (ys : list nat) (acc : list cell) :
  fold_left (row_step w cells) ys acc
  = acc ++ concat (map (encoded_row w cells) ys).
Proof.
  revert acc. induction ys as [|y ys IH]; intros acc; simpl.
  - rewrite app_nil_r. reflexivity.
  - rewrite IH. unfold row_step, encoded_row.
    destruct (negb (y mod 2 =? 0)); rewrite <- app_assoc; reflexivity.
Qed.

Lemma serpentine_rows (h : nat) :
  serpentine w h cells = concat (map (encoded_row w cells) (seq 0 h)).
Proof. unfold serpentine. rewrite serpentine_loop. reflexivity. Qed.

Lemma length_encoded_row (h y : nat) :
  length cells = w * h -> y < h -> length (encoded_row w cells y) = w.
Proof.
  intros Hsize Hy. unfold encoded_row.
  destruct (negb (y mod 2 =? 0));
    rewrite ?length_reverse, ?length_spread; apply length_slice; nia.
Qed.

Lemma get_encoded_row (h y x : nat) :
  length cells = w * h -> y < h -> x < w ->
  get (encoded_row w cells y) x
  = get cells (y * w + (if Nat.odd y then w - 1 - x else x)).
Proof.
  intros Hsize Hy Hx. unfold encoded_row. rewrite odd_test.
  destruct (Nat.odd y).
  - unfold get at 1. rewrite reverse_lookup
      by (rewrite length_spread, length_slice by nia; assumption).
    rewrite length_spread, length_slice by nia.
    fold (get (spread (slice cells (y * w) (y * w + w))) (w - S x)).
    rewrite get_spread. unfold get. rewrite lookup_slice by lia.
    replace (w - S x) with (w - 1 - x) by lia. reflexivity.
  - unfold get. rewrite lookup_slice by lia. reflexivity.
Qed.

Lemma serpentine_physical_order (h : nat) :
  spread (serpentine w h cells) = physical_order w h (spread cells).
Proof.
  rewrite serpentine_rows. unfold physical_order, spread at 1.
  rewrite concat_map, map_map. f_equal. apply map_ext. intros y.
  fold (spread (encoded_row w cells y)). unfold encoded_row. rewrite odd_test.
  cbv zeta. destruct (Nat.odd y).
  - rewrite spread_reverse, spread_idemp, spread_slice. reflexivity.
  - apply spread_slice.
Qed.

End Serpentine.

(** C1. For a grid of width [w] and height [h] in row-major order, the
    serpentine encoder lists the cells row by row, the odd-indexed rows
    reversed and the even-indexed rows unchanged: the output has [w * h]
    cells, the cell at column [x] of row [y] of the output is the cell at
    column [w - 1 - x] (odd [y]) or [x] (even [y]) of row [y] of the grid, and
    the output is the physical order of the specification. The 2x2 grid
    red, green, blue, white is sent as red, green, white, blue. *)
Theorem C1_serpentine_rows_alternate (w h : nat) (cells : list cell)
    (Hsize : length cells = w * h) :
  length (Controls.serpentine w h cells) = w * h
  /\ (forall y x, y < h -> x < w ->
        get (Controls.serpentine w h cells) (y * w + x)
        = get cells (y * w + (if Nat.odd y then w - 1 - x else x)))
  /\ spread (Controls.serpentine w h cells)
     = Controls.physical_order w h (spread cells)
  /\ Controls.serpentine 2 2 Controls.grid2x2
     = [Str "#ff0000"; Str "#00ff00"; Str "#ffffff"; Str "#0000ff"]
  /\ Controls.formattedColors 2 2 Controls.grid2x2
     = join "," (map (fun s => dq +:+ s +:+ dq)
                     ["ff0000"; "00ff00"; "ffffff"; "0000ff"]).
Proof.
  split; [|split; [|split; [|split]]].
  - rewrite serpentine_rows. apply length_concat_rows.
    intros y Hy. apply (length_encoded_row w cells h); assumption.
  - intros y x Hy Hx. rewrite serpentine_rows. unfold get at 1.
    rewrite (lookup_concat_rows (Controls.encoded_row w cells) w h)
      by (try assumption; intros; apply (length_encoded_row w cells h);
          assumption).
    apply (get_encoded_row w cells h); assumption.
  - apply serpentine_physical_order.
  - reflexivity.
  - vm_compute. reflexivity.
Qed.

Lemma C1_serpentine_rows_alternate_witness :
  length Controls.grid2x2 = 2 * 2
  /\ get (Controls.serpentine 2 2 Controls.grid2x2) (1 * 2 + 0) = Str "#ffffff".
Proof.
  split; [reflexivity|].
  rewrite (proj1 (proj2 (C1_serpentine_rows_alternate 2 2 Controls.grid2x2
                           eq_refl))
             1 0 ltac:(lia) ltac:(lia)).
  reflexivity.
Defined.

(** ** Reads and writes of arrays *)

Lemma is_str_true (v : cell) (c : string) : is_str v c = true <-> v = Str c.
Proof.
  destruct v as [| |t]; simpl; try (split; discriminate).
  rewrite String.eqb_eq. split; [intros ->; reflexivity | congruence].
Qed.

Lemma is_str_false (v : cell) (c : string) : is_str v c = false <-> v <> Str c.
Proof.
  rewrite <- is_str_true. destruct (is_str v c); split; congruence.
Qed.

Lemma get_not_hole (a : list cell) (i : nat) : get a i <> Hole.
Proof. unfold get. destruct (a !! i) as [[]|]; discriminate. Qed.

Lemma get_ge (a : list cell) (i : nat) : length a <= i -> get a i = Undefined.
Proof.
  intros H. unfold get. rewrite lookup_ge_None_2 by assumption. reflexivity.
Qed.

Lemma length_set (a : list cell) (i : nat) (v : cell) :
  length (set a i v) = Nat.max (length a) (S i).
Proof.
  unfold set. destruct (Nat.ltb_spec i (length a)).
  - rewrite length_insert. lia.
  - rewrite !length_app, length_replicate. simpl. lia.
Qed.

Lemma lookup_set_eq (a : list cell) (i : nat) (v : cell) :
  set a i v !! i = Some v.
Proof.
  unfold set. destruct (Nat.ltb_spec i (length a)).
  - apply list_lookup_insert_eq. assumption.
  - rewrite lookup_app_r by assumption.
    rewrite lookup_app_r by (rewrite length_replicate; lia).
    rewrite length_replicate. replace (i - length a - (i - length a)) with 0 by lia.
    reflexivity.
Qed.

Lemma lookup_set_ne (a : list cell) (i j : nat) (v : cell) :
  j <> i -> j < length a -> set a i v !! j = a !! j.
Proof.
  intros Hne Hj. unfold set. destruct (Nat.ltb_spec i (length a)).
  - apply list_lookup_insert_ne. congruence.
  - apply lookup_app_l. assumption.
Qed.

Lemma get_set_eq (a : list cell) (i : nat) (v : cell) :
  v <> Hole -> get (set a i v) i = v.
Proof.
  intros Hv. unfold get. rewrite lookup_set_eq. destruct v; congruence.
Qed.

Lemma get_set_ne (a : list cell) (i j : nat) (v : cell) :
  j <> i -> get (set a i v) j = get a j.
Proof.
  intros Hne. destruct (Nat.lt_ge_cases j (length a)) as [Hj|Hj].
  - unfold get. rewrite lookup_set_ne by assumption. reflexivity.
  - rewrite (get_ge a j) by assumption. unfold get, set.
    destruct (Nat.ltb_spec i (length a)).
    + rewrite list_lookup_insert_ne by congruence.
      rewrite lookup_ge_None_2 by assumption. reflexivity.
    + rewrite lookup_app_r by assumption.
      destruct (Nat.lt_ge_cases j i) as [Hji|Hji].
      * rewrite lookup_app_l by (rewrite length_replicate; lia).
        rewrite lookup_replicate_2 by lia. reflexivity.
      * rewrite lookup_ge_None_2; [reflexivity|].
        rewrite length_app, length_replicate. simpl. lia.
Qed.

(** ** The history log *)

Section History.

Import WledDraw.

Lemma history_saveToHistory (a : HistoryAction) (s : State) :
  history (saveToHistory a s) = pushed (history s) a.
Proof. reflexivity. Qed.

Lemma pushed_snoc (h : list HistoryAction) (a : HistoryAction) :
  exists h', pushed h a = h' ++ [a]
             /\ (h' = h \/ h' = tail h /\ maxHistoryLength <= length h).
Proof.
  unfold pushed. destruct (Nat.ltb_spec maxHistoryLength (length (h ++ [a]))) as [Hlt|Hge].
  - destruct h as [|b h].
    + simpl in Hlt. unfold maxHistoryLength in Hlt. lia.
    + exists h. split; [reflexivity|]. right. split; [reflexivity|].
      rewrite length_app in Hlt. simpl in *. lia.
  - exists h. split; [reflexivity | left; reflexivity].
Qed.

Lemma last_pushed (h : list HistoryAction) (a : HistoryAction) :
  last (pushed h a) = Some a.
Proof.
  destruct (pushed_snoc h a) as (h' & -> & _). apply last_snoc.
Qed.

End History.

(** ** Undo *)

Section Undo.

Import WledDraw.

(** Scheduling a send touches neither the grid nor the log. *)
Lemma debouncedSendToWled_frame (s : State) :
  pixelData (debouncedSendToWled s) = pixelData s
  /\ gridWidth (debouncedSendToWled s) = gridWidth s
  /\ gridHeight (debouncedSendToWled s) = gridHeight s
  /\ history (debouncedSendToWled s) = history s
  /\ localStorage (debouncedSendToWled s) = localStorage s
  /\ posted (debouncedSendToWled s) = posted s.
Proof.
  unfold debouncedSendToWled.
  destruct (ignoreApi s); [tauto|]. simpl.
  destruct (debounceTimer s); simpl; tauto.
Qed.

Lemma pixelData_debouncedSendToWled (s : State) :
  pixelData (debouncedSendToWled s) = pixelData s.
Proof. apply debouncedSendToWled_frame. Qed.

Lemma gridWidth_debouncedSendToWled (s : State) :
  gridWidth (debouncedSendToWled s) = gridWidth s.
Proof. apply debouncedSendToWled_frame. Qed.

Lemma gridHeight_debouncedSendToWled (s : State) :
  gridHeight (debouncedSendToWled s) = gridHeight s.
Proof. apply debouncedSendToWled_frame. Qed.

Lemma history_debouncedSendToWled (s : State) :
  history (debouncedSendToWled s) = history s.
Proof. apply debouncedSendToWled_frame. Qed.

Lemma localStorage_debouncedSendToWled (s : State) :
  localStorage (debouncedSendToWled s) = localStorage s.
Proof. apply debouncedSendToWled_frame. Qed.

Lemma undo_empty (s : State) : history s = [] -> undo s = s.
Proof. intros H. unfold undo. rewrite H. reflexivity. Qed.

(** [undo] pops the newest entry and applies its inverse. *)
Lemma undo_snoc (s : State) (h : list HistoryAction) (a : HistoryAction) :
  history s = h ++ [a] ->
  pixelData (undo s) = restored a (pixelData s)
  /\ history (undo s) = h
  /\ gridWidth (undo s) = gridWidth s
  /\ gridHeight (undo s) = gridHeight s
  /\ ls_drawHistory (localStorage (undo s)) = Some h.
Proof.
  intros H. unfold undo. rewrite H, last_snoc, removelast_last.
  rewrite pixelData_debouncedSendToWled, history_debouncedSendToWled,
    gridWidth_debouncedSendToWled, gridHeight_debouncedSendToWled,
    localStorage_debouncedSendToWled.
  destruct a; simpl; tauto.
Qed.

(** After [saveToHistory a], the entry that [undo] pops is [a]. *)
Lemma undo_pops_pushed (s : State) (h : list HistoryAction)
    (a : HistoryAction) :
  history s = pushed h a ->
  pixelData (undo s) = restored a (pixelData s)
  /\ gridWidth (undo s) = gridWidth s
  /\ gridHeight (undo s) = gridHeight s.
Proof.
  intros Hs. destruct (pushed_snoc h a) as (h' & Hh' & _).
  rewrite Hh' in Hs. destruct (undo_snoc s h' a Hs) as (? & _ & ? & ? & _).
  auto.
Qed.

End Undo.

(** C9. When the cell at index [i] already holds the color [c],
    [updatePixel i c] does nothing at all: the state it returns is the state
    it was given, so no entry is added to the history, the pixel buffer is
    unchanged and the change flag keeps its value. The same holds of the
    [updatePixel] of the composable without the debounced sender. *)
Theorem C9_updatePixel_same_color_noop (s : WledDraw.State) (i : nat)
    (c : string) (Hsame : get (WledDraw.pixelData s) i = Str c) :
  WledDraw.updatePixel i c s = s
  /\ WledDraw.history (WledDraw.updatePixel i c s) = WledDraw.history s
  /\ WledDraw.pixelData (WledDraw.updatePixel i c s) = WledDraw.pixelData s
  /\ WledDraw.pixelDataChanged (WledDraw.updatePixel i c s)
     = WledDraw.pixelDataChanged s
  /\ WledDraw.updatePixel_part_001 i c s = s.
Proof.
  apply is_str_true in Hsame.
  unfold WledDraw.updatePixel, WledDraw.updatePixel_part_001.
  rewrite Hsame. repeat split; reflexivity.
Qed.

Lemma C9_updatePixel_same_color_noop_witness :
  get (WledDraw.pixelData (WledDraw.setupGrid WledDraw.initial)) 3
  = Str "#000000"
  /\ WledDraw.updatePixel 3 "#000000" (WledDraw.setupGrid WledDraw.initial)
     = WledDraw.setupGrid WledDraw.initial.
Proof.
  split; [reflexivity|].
  apply (C9_updatePixel_same_color_noop
           (WledDraw.setupGrid WledDraw.initial) 3 "#000000").
  reflexivity.
Defined.

(** C7. [undo] right after [clearScreen] restores the snapshot that
    [clearScreen] recorded just before it cleared, element for element: the
    snapshot is the newest entry of the log, the restored buffer is equal to
    it, and it reads as the buffer did before the clear at every index. On an
    empty log [undo] returns the state it was given. *)
Theorem C7_undo_restores_cleared_grid (s : WledDraw.State) :
  last (WledDraw.history (WledDraw.clearScreen s))
  = Some (WledDraw.ClearAction (spread (WledDraw.pixelData s)))
  /\ WledDraw.pixelData (WledDraw.undo (WledDraw.clearScreen s))
     = spread (WledDraw.pixelData s)
  /\ length (WledDraw.pixelData (WledDraw.undo (WledDraw.clearScreen s)))
     = length (WledDraw.pixelData s)
  /\ (forall i,
        get (WledDraw.pixelData (WledDraw.undo (WledDraw.clearScreen s))) i
        = get (WledDraw.pixelData s) i)
  /\ WledDraw.undo (WledDraw.set_history [] s) = WledDraw.set_history [] s.
Proof.
  assert (Hlog : WledDraw.history (WledDraw.clearScreen s)
                 = WledDraw.pushed (WledDraw.history s)
                     (WledDraw.ClearAction (spread (WledDraw.pixelData s)))).
  { unfold WledDraw.clearScreen. cbv zeta.
    rewrite history_debouncedSendToWled. reflexivity. }
  assert (Hpix : WledDraw.pixelData (WledDraw.undo (WledDraw.clearScreen s))
                 = spread (WledDraw.pixelData s)).
  { destruct (undo_pops_pushed _ _ _ Hlog) as (-> & _). simpl.
    apply spread_idemp. }
  split; [|split; [|split; [|split]]].
  - rewrite Hlog. apply last_pushed.
  - exact Hpix.
  - rewrite Hpix. apply length_spread.
  - intros i. rewrite Hpix. apply get_spread.
  - apply undo_empty. reflexivity.
Qed.

(** C6. After one recorded [updatePixel i c] (the cell at [i] did not hold
    [c]), [undo] restores the color that the cell at [i] held before the edit
    and changes nothing else: every other cell of the buffer is the cell it
    was, every index other than [i] reads as before, and the width and the
    height of the grid are unchanged. *)
Theorem C6_undo_restores_drawn_pixel (s : WledDraw.State) (i : nat)
    (c : string) (Hrecorded : get (WledDraw.pixelData s) i <> Str c) :
  let s' := WledDraw.undo (WledDraw.updatePixel i c s) in
  get (WledDraw.pixelData s') i = get (WledDraw.pixelData s) i
  /\ (forall j, j <> i -> j < length (WledDraw.pixelData s) ->
        WledDraw.pixelData s' !! j = WledDraw.pixelData s !! j)
  /\ (forall j, j <> i ->
        get (WledDraw.pixelData s') j = get (WledDraw.pixelData s) j)
  /\ (i < length (WledDraw.pixelData s) ->
        length (WledDraw.pixelData s') = length (WledDraw.pixelData s))
  /\ WledDraw.gridWidth s' = WledDraw.gridWidth s
  /\ WledDraw.gridHeight s' = WledDraw.gridHeight s.
Proof.
  intros s'. subst s'. apply is_str_false in Hrecorded.
  set (old := get (WledDraw.pixelData s) i).
  set (s1 := WledDraw.updatePixel i c s).
  assert (Hs1 : WledDraw.history s1
                = WledDraw.pushed (WledDraw.history s) (WledDraw.DrawAction i old)
                /\ WledDraw.pixelData s1 = set (WledDraw.pixelData s) i (Str c)
                /\ WledDraw.gridWidth s1 = WledDraw.gridWidth s
                /\ WledDraw.gridHeight s1 = WledDraw.gridHeight s).
  { subst s1. unfold WledDraw.updatePixel. rewrite Hrecorded.
    repeat split; reflexivity. }
  destruct Hs1 as (Hlog & Hpix & Hw & Hh).
  destruct (undo_pops_pushed _ _ _ Hlog) as (Hu & Hw' & Hh').
  rewrite Hu, Hw', Hh', Hpix, Hw, Hh. simpl.
  split; [|split; [|split; [|split]]]; try (split; reflexivity).
  - apply get_set_eq, get_not_hole.
  - intros j Hne Hj. rewrite lookup_set_ne; [apply lookup_set_ne; assumption
      | assumption | rewrite length_set; lia].
  - intros j Hne. rewrite !get_set_ne by assumption. reflexivity.
  - intros Hi. rewrite !length_set. lia.
Qed.

Lemma C6_undo_restores_drawn_pixel_witness :
  get (WledDraw.pixelData (WledDraw.setupGrid WledDraw.initial)) 3
  <> Str "#ff2500"
  /\ get (WledDraw.pixelData
            (WledDraw.undo
               (WledDraw.updatePixel 3 "#ff2500"
                  (WledDraw.setupGrid WledDraw.initial)))) 3
     = Str "#000000".
Proof.
  assert (H : get (WledDraw.pixelData (WledDraw.setupGrid WledDraw.initial)) 3
              <> Str "#ff2500") by (vm_compute; discriminate).
  split; [exact H|].
  exact (proj1 (C6_undo_restores_drawn_pixel
                  (WledDraw.setupGrid WledDraw.initial) 3 "#ff2500" H)).
Defined.

(** ** The bound on the history *)

Section HistoryBound.

Import WledDraw.

Lemma pushed_room (h : list HistoryAction) (a : HistoryAction) :
  length h < maxHistoryLength -> pushed h a = h ++ [a].
Proof.
  intros H. unfold pushed. rewrite length_app. simpl.
  destruct (Nat.ltb_spec maxHistoryLength (length h + 1)); [lia | reflexivity].
Qed.

Lemma pushed_full (h : list HistoryAction) (a : HistoryAction) :
  maxHistoryLength <= length h -> pushed h a = tail h ++ [a].
Proof.
  intros H. unfold pushed. rewrite length_app. simpl.
  destruct (Nat.ltb_spec maxHistoryLength (length h + 1)); [|lia].
  destruct h; [simpl in H; unfold maxHistoryLength in H; lia | reflexivity].
Qed.

Lemma length_pushed (h : list HistoryAction) (a : HistoryAction) :
  length h <= maxHistoryLength -> length (pushed h a) <= maxHistoryLength.
Proof.
  intros H. destruct (Nat.lt_ge_cases (length h) maxHistoryLength).
  - rewrite pushed_room, length_app by assumption. simpl. lia.
  - rewrite pushed_full, length_app by assumption.
    unfold maxHistoryLength in *. destruct h; simpl in *; lia.
Qed.

(** The log keeps the newest [maxHistoryLength] entries. *)
Lemma pushed_drop (h : list HistoryAction) (a : HistoryAction) :
  length h <= maxHistoryLength ->
  pushed h a = drop (length (h ++ [a]) - maxHistoryLength) (h ++ [a]).
Proof.
  intros H. rewrite length_app. simpl.
  destruct (Nat.lt_ge_cases (length h) maxHistoryLength).
  - rewrite pushed_room by assumption.
    replace (length h + 1 - maxHistoryLength) with 0 by lia. reflexivity.
  - rewrite pushed_full by assumption.
    replace (length h + 1 - maxHistoryLength) with 1 by lia.
    destruct h; [simpl in *; unfold maxHistoryLength in *; lia | reflexivity].
Qed.

Lemma fold_pushed_drop (acts h : list HistoryAction) :
  length h <= maxHistoryLength ->
  fold_left pushed acts h
  = drop (length (h ++ acts) - maxHistoryLength) (h ++ acts).
Proof.
  revert h. induction acts as [|a acts IH]; intros h Hh; simpl.
  - rewrite app_nil_r. replace (length h - maxHistoryLength) with 0 by lia.
    reflexivity.
  - rewrite IH by (apply length_pushed; assumption).
    rewrite pushed_drop by assumption.
    set (k := length (h ++ [a]) - maxHistoryLength).
    assert (Hk : k <= length (h ++ [a])) by (subst k; lia).
    rewrite <- (drop_app_le (h ++ [a]) acts k Hk), <- app_assoc. simpl.
    rewrite drop_drop, length_drop. f_equal.
    subst k. rewrite !length_app in *. simpl in *. lia.
Qed.

Lemma history_record_all (acts : list HistoryAction) (s : State) :
  history (record_all acts s) = fold_left pushed acts (history s)
  /\ pixelData (record_all acts s) = pixelData s.
Proof.
  unfold record_all. revert s.
  induction acts as [|a acts IH]; intros s; simpl; [tauto|].
  destruct (IH (saveToHistory a s)) as [-> ->]. split; reflexivity.
Qed.

(** As many undos as the log has entries empty it, newest entry first. *)
Lemma undo_all (h : list HistoryAction) (s : State) :
  history s = h ->
  history (run (replicate (length h) Call_undo) s) = []
  /\ pixelData (run (replicate (length h) Call_undo) s)
     = fold_left (fun px a => restored a px) (rev h) (pixelData s).
Proof.
  revert s. induction h as [|a h IH] using rev_ind; intros s Hs.
  - simpl. auto.
  - rewrite length_app, Nat.add_comm. simpl.
    destruct (undo_snoc s h a Hs) as (Hpix & Hlog & _).
    destruct (IH (undo s) Hlog) as [-> ->].
    rewrite Hpix, rev_unit. split; reflexivity.
Qed.

(** Every event keeps the log, and its stored copy, within the bound. *)
Lemma log_bounded_frame (s s' : State) :
  history s' = history s ->
  ls_drawHistory (localStorage s') = ls_drawHistory (localStorage s) ->
  log_bounded s -> log_bounded s'.
Proof. unfold log_bounded. intros -> ->. tauto. Qed.

Lemma log_bounded_saveToHistory (a : HistoryAction) (s : State) :
  log_bounded s -> log_bounded (saveToHistory a s).
Proof.
  intros [H _]. split; simpl.
  - apply length_pushed, H.
  - intros h [= <-]. apply length_pushed, H.
Qed.

Lemma log_bounded_debouncedSendToWled (s : State) :
  log_bounded s -> log_bounded (debouncedSendToWled s).
Proof.
  apply log_bounded_frame.
  - apply history_debouncedSendToWled.
  - rewrite localStorage_debouncedSendToWled. reflexivity.
Qed.

Lemma log_bounded_sendToWledImmediate (s : State) :
  log_bounded s -> log_bounded (sendToWledImmediate s).
Proof.
  unfold sendToWledImmediate. destruct (ignoreApi s); [tauto|].
  apply log_bounded_frame; reflexivity.
Qed.

Lemma setupGrid_frame (s : State) :
  localStorage (setupGrid s) = localStorage s
  /\ history (setupGrid s)
     = default (history s) (ls_drawHistory (localStorage s))
  /\ gridWidth (setupGrid s) = gridWidth s
  /\ gridHeight (setupGrid s) = gridHeight s
  /\ length (pixelData (setupGrid s)) = gridWidth s * gridHeight s.
Proof.
  unfold setupGrid, loadHistoryFromStorage. cbv zeta. simpl.
  destruct (ls_drawHistory (localStorage s)); simpl;
    destruct (ls_debounceDelay (localStorage s)); simpl;
    rewrite length_map, length_seq; tauto.
Qed.

Lemma log_bounded_setupGrid (s : State) :
  log_bounded s -> log_bounded (setupGrid s).
Proof.
  intros [Hh Hs]. destruct (setupGrid_frame s) as (Hst & Hlog & _).
  split; [|rewrite Hst; exact Hs].
  rewrite Hlog. destruct (ls_drawHistory (localStorage s)); simpl; auto.
Qed.

Lemma log_bounded_undo (s : State) : log_bounded s -> log_bounded (undo s).
Proof.
  intros Hb. destruct (history s) as [|a h] eqn:Hh using rev_ind.
  - rewrite undo_empty by assumption. assumption.
  - clear IHh. destruct (undo_snoc s h a Hh) as (_ & Hlog & _ & _ & Hst).
    destruct Hb as [Hb _]. rewrite Hh, length_app in Hb. simpl in Hb.
    split; [rewrite Hlog; lia|]. rewrite Hst. intros ? [= <-]. lia.
Qed.

Lemma log_bounded_updatePixel (i : nat) (c : string) (s : State) :
  log_bounded s -> log_bounded (updatePixel i c s).
Proof.
  intros Hb. unfold updatePixel.
  destruct (is_str (get (pixelData s) i) c); [assumption|].
  apply (log_bounded_frame (saveToHistory (DrawAction i (get (pixelData s) i)) s));
    [reflexivity | reflexivity |].
  apply log_bounded_saveToHistory, Hb.
Qed.

Lemma log_bounded_batch_step (c : string) (s : State) (index : Z) :
  log_bounded s -> log_bounded (batch_step c s index).
Proof.
  intros Hb. unfold batch_step.
  destruct (_ && _); [|assumption].
  apply (log_bounded_frame
           (saveToHistory
              (DrawAction (Z.to_nat index) (get (pixelData s) (Z.to_nat index))) s));
    [reflexivity | reflexivity |].
  apply log_bounded_saveToHistory, Hb.
Qed.

Lemma log_bounded_step (s : State) (e : event) :
  log_bounded s -> log_bounded (step s e).
Proof.
  intros Hb. destruct e; simpl.
  - apply log_bounded_updatePixel, Hb.
  - unfold batchUpdatePixels. apply log_bounded_debouncedSendToWled.
    apply (log_bounded_frame (fold_left (batch_step newColor) indices s));
      [reflexivity | reflexivity |].
    revert s Hb. induction indices as [|i indices IH]; intros s Hb; simpl;
      [assumption|]. apply IH, log_bounded_batch_step, Hb.
  - unfold applyPixelArray. destruct (_ || _); [assumption|].
    apply log_bounded_debouncedSendToWled.
    apply (log_bounded_frame
             (saveToHistory (ClearAction (spread (pixelData s))) s));
      [reflexivity | reflexivity |].
    apply log_bounded_saveToHistory, Hb.
  - unfold clearScreen. apply log_bounded_debouncedSendToWled.
    apply (log_bounded_frame
             (saveToHistory (ClearAction (spread (pixelData s))) s));
      [reflexivity | reflexivity |].
    apply log_bounded_saveToHistory, Hb.
  - apply log_bounded_undo, Hb.
  - apply log_bounded_debouncedSendToWled, Hb.
  - apply log_bounded_sendToWledImmediate, Hb.
  - unfold flushChanges.
    assert (Hb' : log_bounded
                    match debounceTimer s with
                    | Some handle => set_debounceTimer None (clearTimeout handle s)
                    | None => s
                    end)
      by (destruct (debounceTimer s); [revert Hb; apply log_bounded_frame|];
          auto).
    destruct (pixelDataChanged _); [apply log_bounded_sendToWledImmediate|];
      exact Hb'.
  - apply log_bounded_setupGrid, Hb.
  - unfold ignoreApiAndContinue. apply log_bounded_setupGrid.
    revert Hb. apply log_bounded_frame; reflexivity.
  - unfold resize. destruct (_ && _); [assumption|].
    apply log_bounded_setupGrid. revert Hb.
    apply log_bounded_frame; reflexivity.
  - unfold expire. destruct (existsb _ _); [|assumption].
    unfold timeout_callback. simpl.
    destruct (pixelDataChanged s); revert Hb; apply log_bounded_frame;
      reflexivity.
  - unfold animate. destruct (frames s); [assumption|].
    unfold frame_callback.
    apply (log_bounded_frame (sendToWledImmediate (set_frames n s)));
      [reflexivity | reflexivity |].
    apply log_bounded_sendToWledImmediate. revert Hb.
    apply log_bounded_frame; reflexivity.
  - unfold respond. destruct (inflight s); [assumption|].
    revert Hb. apply log_bounded_frame; reflexivity.
  - unfold respond. destruct (inflight s); [assumption|].
    revert Hb. apply log_bounded_frame; reflexivity.
Qed.

Lemma log_bounded_run (events : list event) (s : State) :
  log_bounded s -> log_bounded (run events s).
Proof.
  unfold run. revert s. induction events as [|e events IH]; intros s Hb; simpl;
    [assumption|]. apply IH, log_bounded_step, Hb.
Qed.

End HistoryBound.

(** C5. The history never holds more than 50 entries: in every state that a
    sequence of events reaches from the initial one; after every
    [saveToHistory] on a log within the bound; a push on a log of 50 entries
    drops the oldest entry and appends the new one. After exactly 51 pushes
    on an empty log the log holds the 50 newest actions, 50 undos then empty
    it, applying the inverses of those 50 actions newest first and never
    that of the oldest action, and a further undo changes nothing. *)
Theorem C5_history_capped_at_50 :
  (forall events,
      length (WledDraw.history (WledDraw.run events WledDraw.initial)) <= 50)
  /\ (forall s a,
        length (WledDraw.history s) <= 50 ->
        length (WledDraw.history (WledDraw.saveToHistory a s)) <= 50)
  /\ (forall s a,
        length (WledDraw.history s) = 50 ->
        WledDraw.history (WledDraw.saveToHistory a s)
        = tail (WledDraw.history s) ++ [a])
  /\ (forall s oldest rest,
        WledDraw.history s = [] -> length rest = 50 ->
        let s51 := WledDraw.record_all (oldest :: rest) s in
        let s' := WledDraw.run (replicate 50 WledDraw.Call_undo) s51 in
        WledDraw.history s51 = rest
        /\ WledDraw.history s' = []
        /\ WledDraw.pixelData s'
           = fold_left (fun px a => WledDraw.restored a px) (rev rest)
               (WledDraw.pixelData s)
        /\ WledDraw.undo s' = s').
Proof.
  split; [|split; [|split]].
  - intros events.
    destruct (log_bounded_run events WledDraw.initial) as [H _];
      [split; [simpl; lia | discriminate] | exact H].
  - intros s a H. simpl. apply length_pushed, H.
  - intros s a H. simpl. apply pushed_full.
    unfold WledDraw.maxHistoryLength. lia.
  - intros s oldest rest Hs Hrest s51 s'.
    destruct (history_record_all (oldest :: rest) s) as [Hlog Hpix].
    rewrite Hs, fold_pushed_drop in Hlog by (simpl; lia).
    simpl in Hlog. rewrite Hrest in Hlog. simpl in Hlog.
    fold s51 in Hlog, Hpix.
    destruct (undo_all rest s51 Hlog) as [Hnil Hres].
    rewrite Hrest in Hnil, Hres. fold s' in Hnil, Hres.
    rewrite Hpix in Hres. repeat split; try assumption.
    apply undo_empty, Hnil.
Qed.

Lemma C5_history_capped_at_50_witness :
  let rest := replicate 50 (WledDraw.DrawAction 0 (Str "#123456")) in
  let s51 :=
    WledDraw.record_all (WledDraw.DrawAction 1 (Str "#abcdef") :: rest)
      (WledDraw.setupGrid WledDraw.initial) in
  WledDraw.history (WledDraw.setupGrid WledDraw.initial) = []
  /\ length rest = 50
  /\ WledDraw.history s51 = rest
  /\ get (WledDraw.pixelData
            (WledDraw.run (replicate 50 WledDraw.Call_undo) s51)) 1
     = Str "#000000".
Proof.
  intros rest s51.
  pose proof (proj2 (proj2 (proj2 C5_history_capped_at_50))
                (WledDraw.setupGrid WledDraw.initial)
                (WledDraw.DrawAction 1 (Str "#abcdef")) rest
                eq_refl eq_refl) as H.
  cbv zeta in H. destruct H as (Hlog & _ & Hpix & _).
  split; [reflexivity|]. split; [reflexivity|]. split; [exact Hlog|].
  refine (eq_trans (f_equal (fun px => get px 1) Hpix) _).
  vm_compute. reflexivity.
Defined.

(** ** The size of the pixel buffer *)

Section BufferSize.

Import WledDraw.

Lemma keeps_grid_debouncedSendToWled : keeps_grid debouncedSendToWled.
Proof. intros s. pose proof (debouncedSendToWled_frame s). tauto. Qed.

Lemma keeps_grid_sendToWledImmediate : keeps_grid sendToWledImmediate.
Proof.
  intros s. unfold sendToWledImmediate. destruct (ignoreApi s); simpl; tauto.
Qed.

Lemma keeps_grid_flushChanges : keeps_grid flushChanges.
Proof.
  intros s. unfold flushChanges.
  destruct (debounceTimer s); simpl;
    destruct (pixelDataChanged s); simpl;
    try match goal with |- context [sendToWledImmediate ?t] =>
          destruct (keeps_grid_sendToWledImmediate t) as (-> & -> & -> & -> & ->)
        end;
    simpl; tauto.
Qed.

Lemma keeps_grid_expire (handle : nat) : keeps_grid (expire handle).
Proof.
  intros s. unfold expire, timeout_callback.
  destruct (existsb _ _); simpl; [|tauto].
  destruct (pixelDataChanged s); simpl; tauto.
Qed.

Lemma keeps_grid_animate : keeps_grid animate.
Proof.
  intros s. unfold animate, frame_callback.
  destruct (frames s); simpl; [tauto|].
  apply (keeps_grid_sendToWledImmediate (set_frames n s)).
Qed.

Lemma keeps_grid_respond (ok : bool) : keeps_grid (respond ok).
Proof.
  intros s. unfold respond. destruct (inflight s), ok; simpl; tauto.
Qed.

Lemma keeps_grid_size_ok (f : State -> State) (s : State) :
  keeps_grid f -> size_ok s -> size_ok (f s).
Proof.
  intros Hf. destruct (Hf s) as (Hp & Hw & Hh & _).
  unfold size_ok. rewrite Hp, Hw, Hh. tauto.
Qed.

Lemma keeps_grid_consistent (f : State -> State) (s : State) :
  keeps_grid f -> grid_consistent s -> grid_consistent (f s).
Proof.
  intros Hf. destruct (Hf s) as (Hp & Hw & Hh & Hl & Hs).
  unfold grid_consistent, size_ok. rewrite Hp, Hw, Hh, Hl, Hs. tauto.
Qed.

Lemma length_set_in_range (a : list cell) (i : nat) (v : cell) :
  i < length a -> length (set a i v) = length a.
Proof. intros H. rewrite length_set. lia. Qed.

Lemma length_restored (a : HistoryAction) (pixels : list cell) :
  action_fits (length pixels) a -> length (restored a pixels) = length pixels.
Proof.
  destruct a; simpl; intros H.
  - apply length_set_in_range, H.
  - rewrite length_spread. exact H.
Qed.

(** What the operations on the grid leave. *)
Lemma updatePixel_frame (i : nat) (c : string) (s : State) :
  updatePixel i c s = s
  \/ pixelData (updatePixel i c s) = set (pixelData s) i (Str c)
     /\ gridWidth (updatePixel i c s) = gridWidth s
     /\ gridHeight (updatePixel i c s) = gridHeight s
     /\ history (updatePixel i c s)
        = pushed (history s) (DrawAction i (get (pixelData s) i))
     /\ ls_drawHistory (localStorage (updatePixel i c s))
        = Some (history (updatePixel i c s)).
Proof.
  unfold updatePixel. destruct (is_str _ _); [left; reflexivity|].
  right. repeat split; reflexivity.
Qed.

Lemma batch_step_frame (c : string) (s : State) (index : Z) :
  batch_step c s index = s
  \/ Z.to_nat index < length (pixelData s)
     /\ pixelData (batch_step c s index)
        = set (pixelData s) (Z.to_nat index) (Str c)
     /\ gridWidth (batch_step c s index) = gridWidth s
     /\ gridHeight (batch_step c s index) = gridHeight s
     /\ history (batch_step c s index)
        = pushed (history s)
            (DrawAction (Z.to_nat index) (get (pixelData s) (Z.to_nat index)))
     /\ ls_drawHistory (localStorage (batch_step c s index))
        = Some (history (batch_step c s index)).
Proof.
  unfold batch_step.
  destruct (Nat.ltb_spec (Z.to_nat index) (length (pixelData s))) as [Hlt|Hge];
    [|rewrite andb_false_r; left; reflexivity].
  destruct (_ && _); [|left; reflexivity].
  right. repeat split; try reflexivity. exact Hlt.
Qed.

Lemma clearScreen_frame (s : State) :
  pixelData (clearScreen s)
  = replicate (gridWidth s * gridHeight s) (Str "#000000")
  /\ gridWidth (clearScreen s) = gridWidth s
  /\ gridHeight (clearScreen s) = gridHeight s
  /\ history (clearScreen s)
     = pushed (history s) (ClearAction (spread (pixelData s)))
  /\ ls_drawHistory (localStorage (clearScreen s))
     = Some (history (clearScreen s)).
Proof.
  unfold clearScreen. cbv zeta.
  destruct (keeps_grid_debouncedSendToWled
              (set_pixelDataChanged true
                 (saveToLocalStorage
                    (set_pixelData
                       (replicate
                          (gridWidth (saveToHistory (ClearAction (spread (pixelData s))) s)
                           * gridHeight (saveToHistory (ClearAction (spread (pixelData s))) s))
                          (Str "#000000"))
                       (saveToHistory (ClearAction (spread (pixelData s))) s)))))
    as (-> & -> & -> & -> & ->).
  repeat split; reflexivity.
Qed.

Lemma applyPixelArray_frame (newPixels : list cell) (s : State) :
  applyPixelArray newPixels s = s
  \/ length newPixels = length (pixelData s)
     /\ pixelData (applyPixelArray newPixels s) = spread newPixels
     /\ gridWidth (applyPixelArray newPixels s) = gridWidth s
     /\ gridHeight (applyPixelArray newPixels s) = gridHeight s
     /\ history (applyPixelArray newPixels s)
        = pushed (history s) (ClearAction (spread (pixelData s)))
     /\ ls_drawHistory (localStorage (applyPixelArray newPixels s))
        = Some (history (applyPixelArray newPixels s)).
Proof.
  unfold applyPixelArray.
  destruct (Nat.eqb_spec (length newPixels) (length (pixelData s))) as [He|Hne];
    [|rewrite orb_true_r; left; reflexivity].
  destruct (length newPixels =? 0); [left; reflexivity|]. simpl.
  right. split; [exact He|].
  match goal with |- context [debouncedSendToWled ?t] =>
    destruct (keeps_grid_debouncedSendToWled t) as (-> & -> & -> & -> & ->)
  end.
  repeat split; reflexivity.
Qed.

End BufferSize.

Section BufferInvariant.

Import WledDraw.

Lemma Forall_pushed (P : HistoryAction -> Prop) (h : list HistoryAction)
    (a : HistoryAction) :
  Forall P h -> P a -> Forall P (pushed h a).
Proof.
  intros Hh Ha. destruct (pushed_snoc h a) as (h' & -> & [->|[-> _]]);
    apply Forall_app; split; auto using Forall_tail.
Qed.

(** A step that leaves a buffer of the same length and a fitting log. *)
Lemma grid_consistent_intro (s s' : State) :
  grid_consistent s ->
  length (pixelData s') = length (pixelData s) ->
  gridWidth s' = gridWidth s ->
  gridHeight s' = gridHeight s ->
  Forall (action_fits (length (pixelData s))) (history s') ->
  (forall h, ls_drawHistory (localStorage s') = Some h ->
             Forall (action_fits (length (pixelData s))) h) ->
  grid_consistent s' /\ gridWidth s' = gridWidth s
  /\ gridHeight s' = gridHeight s.
Proof.
  intros (Hsize & _) Hlen Hw Hh Hlog Hst.
  unfold grid_consistent, size_ok in *. rewrite Hlen, Hw, Hh. tauto.
Qed.

Lemma grid_consistent_batch (c : string) (indices : list Z) (s : State) :
  grid_consistent s ->
  let s' := fold_left (batch_step c) indices s in
  grid_consistent s' /\ gridWidth s' = gridWidth s
  /\ gridHeight s' = gridHeight s.
Proof.
  revert s. induction indices as [|i indices IH]; intros s Hc; simpl;
    [tauto|].
  assert (H1 : grid_consistent (batch_step c s i)
               /\ gridWidth (batch_step c s i) = gridWidth s
               /\ gridHeight (batch_step c s i) = gridHeight s).
  { destruct (batch_step_frame c s i) as [->|(Hi & Hp & Hw & Hh & Hl & Hs)];
      [tauto|].
    destruct Hc as (Hsize & Hlog & Hst).
    apply grid_consistent_intro; try assumption.
    - split; [|split]; assumption.
    - rewrite Hp. apply length_set_in_range, Hi.
    - rewrite Hl. apply Forall_pushed; [assumption | exact Hi].
    - rewrite Hs, Hl. intros h [= <-].
      apply Forall_pushed; [assumption | exact Hi]. }
  destruct H1 as (Hc1 & Hw1 & Hh1).
  destruct (IH _ Hc1) as (? & Hw2 & Hh2). cbv zeta in *.
  rewrite Hw2, Hh2. tauto.
Qed.

Lemma grid_consistent_undo (s : State) :
  grid_consistent s ->
  grid_consistent (undo s) /\ gridWidth (undo s) = gridWidth s
  /\ gridHeight (undo s) = gridHeight s.
Proof.
  intros Hc. destruct (last (history s)) as [a|] eqn:Hlast.
  - apply last_Some in Hlast. destruct Hlast as [h Hh].
    destruct (undo_snoc s h a Hh) as (Hp & Hl & Hw & Hg & Hs).
    pose proof Hc as (Hsize & Hlog & Hst).
    rewrite Hh in Hlog. apply Forall_app in Hlog. destruct Hlog as [Hlog Ha].
    apply Forall_cons in Ha. destruct Ha as [Ha _].
    apply grid_consistent_intro; try assumption.
    + rewrite Hp. apply length_restored, Ha.
    + rewrite Hl. exact Hlog.
    + rewrite Hs. intros ? [= <-]. exact Hlog.
  - apply last_None in Hlast. rewrite undo_empty by assumption. tauto.
Qed.

Lemma grid_consistent_setupGrid (s : State) :
  grid_consistent s ->
  grid_consistent (setupGrid s) /\ gridWidth (setupGrid s) = gridWidth s
  /\ gridHeight (setupGrid s) = gridHeight s.
Proof.
  intros Hc. pose proof Hc as (Hsize & Hlog & Hst).
  destruct (setupGrid_frame s) as (Hs & Hl & Hw & Hh & Hlen).
  apply grid_consistent_intro; try assumption.
  - rewrite Hlen. symmetry. exact Hsize.
  - rewrite Hl. destruct (ls_drawHistory (localStorage s)); simpl; auto.
  - rewrite Hs. exact Hst.
Qed.

(** An event at the dimensions of the grid keeps the buffer, the log and
    the dimensions consistent. *)
Lemma grid_consistent_step (s : State) (e : event) :
  grid_consistent s ->
  at_dimensions (gridWidth s) (gridHeight s) e ->
  grid_consistent (step s e) /\ gridWidth (step s e) = gridWidth s
  /\ gridHeight (step s e) = gridHeight s.
Proof.
  intros Hc He. pose proof Hc as (Hsize & Hlog & Hst).
  assert (Hkeep : forall f, keeps_grid f ->
            grid_consistent (f s) /\ gridWidth (f s) = gridWidth s
            /\ gridHeight (f s) = gridHeight s).
  { intros f Hf. split; [apply keeps_grid_consistent; assumption|].
    destruct (Hf s) as (_ & ? & ? & _). tauto. }
  destruct e; simpl in *.
  - assert (Hi : index < length (pixelData s)) by (rewrite Hsize; exact He).
    destruct (updatePixel_frame index newColor s)
      as [->|(Hp & Hw & Hh & Hl & Hs)]; [tauto|].
    apply grid_consistent_intro; try assumption.
    + rewrite Hp. apply length_set_in_range, Hi.
    + rewrite Hl. apply Forall_pushed; [assumption | exact Hi].
    + rewrite Hs, Hl. intros h [= <-].
      apply Forall_pushed; [assumption | exact Hi].
  - destruct (grid_consistent_batch newColor indices s Hc) as (Hc' & Hw & Hh).
    cbv zeta in *. unfold batchUpdatePixels.
    set (s1 := fold_left (batch_step newColor) indices s) in *.
    destruct (keeps_grid_debouncedSendToWled
                (saveToLocalStorage (set_pixelDataChanged true s1)))
      as (Hp2 & Hw2 & Hh2 & Hl2 & Hs2).
    destruct Hc' as (Hsize' & Hlog' & Hst').
    unfold grid_consistent, size_ok. cbv zeta.
    rewrite Hp2, Hw2, Hh2, Hl2, Hs2. simpl. tauto.
  - destruct (applyPixelArray_frame newPixels s)
      as [->|(Hn & Hp & Hw & Hh & Hl & Hs)]; [tauto|].
    apply grid_consistent_intro; try assumption.
    + rewrite Hp, length_spread. exact Hn.
    + rewrite Hl. apply Forall_pushed; [assumption|]. apply length_spread.
    + rewrite Hs, Hl. intros h [= <-].
      apply Forall_pushed; [assumption|]. apply length_spread.
  - destruct (clearScreen_frame s) as (Hp & Hw & Hh & Hl & Hs).
    apply grid_consistent_intro; try assumption.
    + rewrite Hp, length_replicate. symmetry. exact Hsize.
    + rewrite Hl. apply Forall_pushed; [assumption|]. apply length_spread.
    + rewrite Hs, Hl. intros h [= <-].
      apply Forall_pushed; [assumption|]. apply length_spread.
  - apply grid_consistent_undo, Hc.
  - apply (Hkeep _ keeps_grid_debouncedSendToWled).
  - apply (Hkeep _ keeps_grid_sendToWledImmediate).
  - apply (Hkeep _ keeps_grid_flushChanges).
  - apply grid_consistent_setupGrid, Hc.
  - unfold ignoreApiAndContinue.
    apply (grid_consistent_setupGrid (set_ignoreApi true s)). exact Hc.
  - destruct He as [-> ->]. unfold resize. rewrite !Nat.eqb_refl. simpl. tauto.
  - apply (Hkeep _ (keeps_grid_expire handle)).
  - apply (Hkeep _ keeps_grid_animate).
  - apply (Hkeep _ (keeps_grid_respond true)).
  - apply (Hkeep _ (keeps_grid_respond false)).
Qed.

Lemma grid_consistent_run (events : list event) (s : State) :
  grid_consistent s ->
  Forall (at_dimensions (gridWidth s) (gridHeight s)) events ->
  grid_consistent (run events s).
Proof.
  unfold run. revert s. induction events as [|e events IH]; intros s Hc He;
    simpl; [assumption|].
  apply Forall_cons in He. destruct He as [He Hes].
  destruct (grid_consistent_step s e Hc He) as (Hc' & Hw & Hh).
  apply IH; [assumption|]. rewrite Hw, Hh. exact Hes.
Qed.

(** One event keeps the buffer at its size when it is admissible. *)
Lemma size_ok_step (s : State) (e : event) :
  size_ok s -> admissible s e -> size_ok (step s e).
Proof.
  intros Hsize He.
  destruct e; simpl in *;
    try (apply keeps_grid_size_ok;
         [first [ apply keeps_grid_debouncedSendToWled
                | apply keeps_grid_sendToWledImmediate
                | apply keeps_grid_flushChanges
                | apply keeps_grid_expire
                | apply keeps_grid_animate
                | apply keeps_grid_respond ]
         | assumption]).
  - destruct (updatePixel_frame index newColor s)
      as [->|(Hp & Hw & Hh & _)]; [assumption|].
    unfold size_ok. rewrite Hp, Hw, Hh, length_set_in_range; assumption.
  - unfold batchUpdatePixels.
    set (s1 := fold_left (batch_step newColor) indices s).
    destruct (keeps_grid_debouncedSendToWled
                (saveToLocalStorage (set_pixelDataChanged true s1)))
      as (Hp2 & Hw2 & Hh2 & _).
    unfold size_ok. cbv zeta. rewrite Hp2, Hw2, Hh2. simpl. subst s1.
    clear Hp2 Hw2 Hh2. revert s Hsize.
    induction indices as [|i indices IH]; intros s Hsize; simpl;
      [assumption|].
    apply IH. destruct (batch_step_frame newColor s i)
      as [->|(Hi & Hp & Hw & Hh & _)]; [assumption|].
    unfold size_ok. rewrite Hp, Hw, Hh, length_set_in_range; assumption.
  - destruct (applyPixelArray_frame newPixels s)
      as [->|(Hn & Hp & Hw & Hh & _)]; [assumption|].
    unfold size_ok. rewrite Hp, Hw, Hh, length_spread, Hn. exact Hsize.
  - destruct (clearScreen_frame s) as (Hp & Hw & Hh & _).
    unfold size_ok. rewrite Hp, Hw, Hh. apply length_replicate.
  - destruct (last (history s)) as [a|] eqn:Hlast.
    + apply last_Some in Hlast. destruct Hlast as [h Hh].
      destruct (undo_snoc s h a Hh) as (Hp & _ & Hw & Hg & _).
      unfold size_ok. rewrite Hp, Hw, Hg, length_restored; assumption.
    + apply last_None in Hlast. rewrite undo_empty; assumption.
  - destruct (setupGrid_frame s) as (_ & _ & Hw & Hh & Hlen).
    unfold size_ok. rewrite Hlen, Hw, Hh. reflexivity.
  - unfold ignoreApiAndContinue.
    destruct (setupGrid_frame (set_ignoreApi true s)) as (_ & _ & Hw & Hh & Hlen).
    unfold size_ok. rewrite Hlen, Hw, Hh. reflexivity.
  - unfold resize. destruct (_ && _); [assumption|].
    match goal with |- size_ok (setupGrid ?t) =>
      destruct (setupGrid_frame t) as (_ & _ & Hw & Hh & Hlen)
    end.
    unfold size_ok. rewrite Hlen, Hw, Hh. reflexivity.
Qed.

End BufferInvariant.

(** Where the invariant does hold: the pixel buffer holds
    [gridWidth * gridHeight] cells after [setupGrid], every event keeps it
    so when it is admissible (an [updatePixel] whose index lies within the
    buffer, an [undo] whose popped action fits the buffer, any other
    event), and so does every session that starts on a buffer consistent
    with its log and keeps the dimensions. *)
Lemma buffer_size_kept_where_admissible :
  (forall s, WledDraw.size_ok (WledDraw.setupGrid s))
  /\ (forall s width height,
        WledDraw.size_ok s ->
        WledDraw.size_ok (WledDraw.resize width height s))
  /\ (forall s e,
        WledDraw.size_ok s -> WledDraw.admissible s e ->
        WledDraw.size_ok (WledDraw.step s e))
  /\ (forall s events,
        WledDraw.grid_consistent s ->
        Forall (WledDraw.at_dimensions (WledDraw.gridWidth s)
                  (WledDraw.gridHeight s)) events ->
        WledDraw.size_ok (WledDraw.run events s)).
Proof.
  split; [|split; [|split]].
  - intros s. destruct (setupGrid_frame s) as (_ & _ & Hw & Hh & Hlen).
    unfold WledDraw.size_ok. rewrite Hlen, Hw, Hh. reflexivity.
  - intros s width height Hs.
    apply (size_ok_step s (WledDraw.Set_dimensions width height) Hs I).
  - apply size_ok_step.
  - intros s events Hc He. apply (grid_consistent_run events s Hc He).
Qed.

(** C4. The code breaks the invariant. Set up the 14x20 grid, clear the
    screen, change the dimensions to 2x2 and undo: the undo restores the
    snapshot of 280 cells into a grid of 4, because [undo] assigns the
    snapshot without a look at its length, whereas [applyPixelArray]
    rejects an array of another length in the same state. Likewise an
    [updatePixel] beyond the buffer extends it, whereas [batchUpdatePixels]
    skips such an index. And until the first [setupGrid] the buffer is
    empty for a grid of 14x20. *)
Theorem C4_undo_after_resize_breaks_size :
  let resized :=
    WledDraw.run
      [WledDraw.Call_setupGrid; WledDraw.Call_clearScreen;
       WledDraw.Set_dimensions 2 2]
      WledDraw.initial in
  let s := WledDraw.undo resized in
  let grid := WledDraw.setupGrid WledDraw.initial in
  (WledDraw.size_ok resized
   /\ length (WledDraw.pixelData s) = 280
   /\ WledDraw.gridWidth s * WledDraw.gridHeight s = 4
   /\ ~ WledDraw.size_ok s
   /\ WledDraw.applyPixelArray (replicate 280 (Str "#ff2500")) resized
      = resized)
  /\ (WledDraw.size_ok grid
      /\ length (WledDraw.pixelData (WledDraw.updatePixel 300 "#ff2500" grid))
         = 301
      /\ ~ WledDraw.size_ok (WledDraw.updatePixel 300 "#ff2500" grid)
      /\ WledDraw.size_ok
           (WledDraw.batchUpdatePixels [300%Z] "#ff2500" grid))
  /\ (length (WledDraw.pixelData WledDraw.initial) = 0
      /\ WledDraw.gridWidth WledDraw.initial
         * WledDraw.gridHeight WledDraw.initial = 280).
Proof.
  intros resized s grid.
  assert (Hlen : length (WledDraw.pixelData s) = 280)
    by (vm_compute; reflexivity).
  assert (Hdim : WledDraw.gridWidth s * WledDraw.gridHeight s = 4)
    by (vm_compute; reflexivity).
  assert (Hext : length (WledDraw.pixelData
                           (WledDraw.updatePixel 300 "#ff2500" grid)) = 301)
    by (vm_compute; reflexivity).
  split; [|split].
  - split; [vm_compute; reflexivity|].
    split; [exact Hlen|]. split; [exact Hdim|]. split.
    + unfold WledDraw.size_ok. rewrite Hlen, Hdim. discriminate.
    + vm_compute. reflexivity.
  - split; [vm_compute; reflexivity|]. split; [exact Hext|]. split.
    + unfold WledDraw.size_ok. rewrite Hext. vm_compute. discriminate.
    + vm_compute. reflexivity.
  - split; reflexivity.
Qed.

(** ** The debounced sender *)

Section Debounce.

Import WledDraw.

Lemma sender_same_refl (s : State) : sender_same s s.
Proof. unfold sender_same. tauto. Qed.

Lemma sender_same_trans (s t u : State) :
  sender_same u t -> sender_same t s -> sender_same u s.
Proof.
  unfold sender_same.
  intros (-> & -> & -> & -> & -> & -> & -> & ?) (-> & -> & -> & -> & -> & -> & -> & ?).
  tauto.
Qed.

Lemma sender_same_batch (c : string) (indices : list Z) (s : State) :
  sender_same (fold_left (batch_step c) indices s) s.
Proof.
  revert s. induction indices as [|i indices IH]; intros s; simpl.
  - apply sender_same_refl.
  - apply (sender_same_trans _ (batch_step c s i)); [apply IH|].
    unfold batch_step. destruct (_ && _); [|apply sender_same_refl].
    unfold sender_same. simpl. tauto.
Qed.

(** An event of the window leaves the sender alone or ends with a call of
    [debouncedSendToWled]. *)
Lemma quiet_step (s : State) (e : event) :
  quiet e ->
  exists t, sender_same t s
            /\ (step s e = t \/ step s e = debouncedSendToWled t).
Proof.
  destruct e; simpl; try contradiction; intros _.
  - exists (updatePixel index newColor s). split; [|left; reflexivity].
    unfold updatePixel. destruct (is_str _ _); [apply sender_same_refl|].
    unfold sender_same. simpl. tauto.
  - eexists. split; [|right; reflexivity].
    apply (sender_same_trans _ (fold_left (batch_step newColor) indices s));
      [|apply sender_same_batch].
    unfold sender_same. simpl. tauto.
  - unfold applyPixelArray. destruct (_ || _).
    + exists s. split; [apply sender_same_refl | left; reflexivity].
    + eexists. split; [|right; reflexivity]. unfold sender_same. simpl. tauto.
  - eexists. split; [|right; reflexivity]. unfold sender_same. simpl. tauto.
  - unfold undo. destruct (last (history s)) as [a|].
    + eexists. split; [|right; reflexivity].
      unfold sender_same. destruct a; simpl; tauto.
    + exists s. split; [apply sender_same_refl | left; reflexivity].
  - exists s. split; [apply sender_same_refl | right; reflexivity].
Qed.












End Debounce.




(** A response that arrives inside the window resets the change flag, and
    the timeout then finds nothing to send: the edit made after the first
    send never reaches the device. *)
Remark response_inside_window_drops_send :
  let s :=
    WledDraw.run
      [WledDraw.Call_setupGrid; WledDraw.Call_sendToWledImmediate;
       WledDraw.Call_updatePixel 0 "#ff2500";
       WledDraw.Call_debouncedSendToWled; WledDraw.Call_debouncedSendToWled;
       WledDraw.Call_debouncedSendToWled; WledDraw.Response_ok;
       WledDraw.Timeout_expires 1; WledDraw.Animation_frame]
      WledDraw.initial in
  length (WledDraw.posted s) = 1
  /\ WledDraw.posted s
     = [WledDraw.wledJson (WledDraw.setupGrid WledDraw.initial)]
  /\ get (WledDraw.pixelData s) 0 = Str "#ff2500"
  /\ WledDraw.timeouts s = [] /\ WledDraw.frames s = 0.
Proof. vm_compute. repeat split; reflexivity. Qed.

(** ** The ramp of color stops *)

Section Ramp.

Import Gradient.
Local Open Scope R_scope.

Lemma Math_round_eq (x : R) (z : Z) :
  IZR z <= x + / 2 < IZR z + 1 -> Math_round x = z.
Proof. intros H. unfold Math_round. apply Zfloor_eq, H. Qed.

Lemma sort_red_blue : sort_stops red_blue = red_blue.
Proof.
  unfold sort_stops, red_blue. simpl.
  destruct (Rle_dec 0 100) as [_|H]; [reflexivity | exfalso; lra].
Qed.

(** The channels of the two colors of the scenario. *)
Lemma channels_red_blue :
  parseInt16 (substring 1 3 "#ff0000") = Some 255%Z
  /\ parseInt16 (substring 3 5 "#ff0000") = Some 0%Z
  /\ parseInt16 (substring 5 7 "#ff0000") = Some 0%Z
  /\ parseInt16 (substring 1 3 "#0000ff") = Some 0%Z
  /\ parseInt16 (substring 3 5 "#0000ff") = Some 0%Z
  /\ parseInt16 (substring 5 7 "#0000ff") = Some 255%Z.
Proof. repeat split; reflexivity. Qed.

(** Halfway between red and blue, both moving channels are 127.5, which
    [Math.round] takes to 128. *)
Lemma interpolate_red_blue_half (factor : R) :
  factor = / 2 -> interpolateColor "#ff0000" "#0000ff" factor = "#800080".
Proof.
  intros ->. unfold interpolateColor.
  destruct channels_red_blue as (-> & -> & -> & -> & -> & ->).
  unfold channel.
  rewrite (Math_round_eq (IZR 255 + / 2 * (IZR 0 - IZR 255)) 128) by lra.
  rewrite (Math_round_eq (IZR 0 + / 2 * (IZR 0 - IZR 0)) 0) by lra.
  rewrite (Math_round_eq (IZR 0 + / 2 * (IZR 255 - IZR 0)) 128) by lra.
  reflexivity.
Qed.

Lemma ramp_red_blue_midpoint :
  getColorAtPosition red_blue 50 = Some "#800080".
Proof.
  unfold getColorAtPosition. rewrite sort_red_blue. simpl.
  destruct (Rle_dec 50 0) as [H|_]; [exfalso; lra|].
  destruct (Rle_dec 100 50) as [H|_]; [exfalso; lra|].
  destruct (Rle_dec 0 50) as [_|H]; [|exfalso; lra].
  destruct (Rle_dec 50 100) as [_|H]; [|exfalso; lra].
  simpl. f_equal. apply interpolate_red_blue_half. lra.
Qed.

End Ramp.

(** C3 (as amended). For the stops red (#ff0000) at 0 and blue (#0000ff) at
    100, the ramp at position 50 is #800080: each moving channel is
    interpolated to 127.5, and [Math.round] rounds the half up, to 128. *)
Theorem C3_ramp_midpoint_red_blue :
  Gradient.getColorAtPosition Gradient.red_blue 50 = Some "#800080"
  /\ Gradient.Math_round (127.5) = 128%Z.
Proof.
  split; [apply ramp_red_blue_midpoint|].
  apply Math_round_eq. lra.
Qed.

(** C3 (as stated) fails: the ramp at 50 is not #7f007f. *)
Lemma C3_ramp_midpoint_is_not_7f007f :
  Gradient.getColorAtPosition Gradient.red_blue 50 <> Some "#7f007f".
Proof. rewrite ramp_red_blue_midpoint. discriminate. Qed.

(** ** The ramp is total on a non-empty list of stops *)

Section RampTotal.

Import Gradient.
Local Open Scope R_scope.

Lemma length_insert_stop (s : ColorStop) (l : list ColorStop) :
  length (insert_stop s l) = S (length l).
Proof.
  induction l as [|t r IH]; simpl; [reflexivity|].
  destruct (Rle_dec _ _); simpl; [reflexivity | rewrite IH; reflexivity].
Qed.

Lemma length_sort_stops (l : list ColorStop) :
  length (sort_stops l) = length l.
Proof.
  induction l as [|s l IH]; simpl; [reflexivity|].
  rewrite length_insert_stop, IH. reflexivity.
Qed.

(** When the loop finds a pair, both of its stops exist. *)
Lemma find_start_Some (pos : R) (l : list ColorStop) (i j : nat) :
  find_start pos l i = Some j ->
  exists a b, (i <= j)%nat /\ l !! (j - i)%nat = Some a
              /\ l !! S (j - i) = Some b.
Proof.
  revert i. induction l as [|a l IH]; intros i; simpl; [discriminate|].
  destruct l as [|b l]; [discriminate|].
  assert (Hrec : find_start pos (b :: l) (S i) = Some j ->
                 exists a0 b0, (i <= j)%nat
                   /\ (a :: b :: l) !! (j - i)%nat = Some a0
                   /\ (a :: b :: l) !! S (j - i) = Some b0).
  { intros H. destruct (IH _ H) as (a0 & b0 & Hle & Ha & Hb).
    exists a0, b0. split; [lia|].
    replace (j - i)%nat with (S (j - S i)) by lia. auto. }
  destruct (Rle_dec (position a) pos); [|exact Hrec].
  destruct (Rle_dec pos (position b)); [|exact Hrec].
  intros [= <-]. exists a, b. rewrite Nat.sub_diag. auto.
Qed.

Lemma getColorAtPosition_total (stops : list ColorStop) (pos : R) :
  stops <> [] -> exists c, getColorAtPosition stops pos = Some c.
Proof.
  intros Hne. unfold getColorAtPosition.
  pose proof (length_sort_stops stops) as Hlen.
  destruct (sort_stops stops) as [|first rest] eqn:Hs.
  { destruct stops; [congruence | discriminate]. }
  destruct (last (first :: rest)) as [final|] eqn:Hlast;
    [|apply last_None in Hlast; discriminate].
  cbn [head].
  destruct (Rle_dec pos (position first)); [eauto|].
  destruct (Rle_dec (position final) pos); [eauto|].
  destruct (find_start pos (first :: rest) 0) as [j|] eqn:Hfind.
  - destruct (find_start_Some _ _ _ _ Hfind) as (a & b & _ & Ha & Hb).
    rewrite Nat.sub_0_r in Ha, Hb.
    change (default 0%nat (Some j)) with j. rewrite Ha, Hb. eauto.
  - destruct rest as [|second rest]; [|simpl; eauto].
    simpl in Hlast. injection Hlast as <-. exfalso. lra.
Qed.

Lemma getColorAtPosition_first (stops : list ColorStop) (pos : R)
    (first : ColorStop) :
  head (sort_stops stops) = Some first -> pos <= position first ->
  getColorAtPosition stops pos = Some (color first).
Proof.
  intros Hh Hp. unfold getColorAtPosition. rewrite Hh.
  destruct (last (sort_stops stops)) as [final|] eqn:Hl.
  - destruct (Rle_dec pos (position first)); [reflexivity | contradiction].
  - apply last_None in Hl. rewrite Hl in Hh. discriminate.
Qed.

Lemma getColorAtPosition_last (stops : list ColorStop) (pos : R)
    (first final : ColorStop) :
  head (sort_stops stops) = Some first ->
  last (sort_stops stops) = Some final ->
  position first < pos -> position final <= pos ->
  getColorAtPosition stops pos = Some (color final).
Proof.
  intros Hh Hl Hp Hq. unfold getColorAtPosition. rewrite Hh, Hl.
  destruct (Rle_dec pos (position first)); [exfalso; lra|].
  destruct (Rle_dec (position final) pos); [reflexivity | contradiction].
Qed.

End RampTotal.

(** ** Binary64 rounding *)

Section Rounding.

Import Gradient.
Local Open Scope R_scope.

Variable fl : rounding.

Lemma fl_0 : fl 0 = 0.
Proof. apply (fl_int fl 0). simpl. lia. Qed.

Lemma fl_1 : fl 1 = 1.
Proof. apply (fl_int fl 1). simpl. lia. Qed.

Lemma fl_100 : fl 100 = 100.
Proof. apply (fl_int fl 100). simpl. lia. Qed.

Lemma fl_one_half : fl 0.5 = 0.5.
Proof.
  replace 0.5 with (IZR 1 / 2) by lra. apply (fl_half fl 1). simpl. lia.
Qed.

Lemma fl_minus_one_half : fl (- 0.5) = - 0.5.
Proof.
  replace (- 0.5) with (IZR (-1) / 2) by lra. apply (fl_half fl (-1)).
  simpl. lia.
Qed.

Lemma fl_INR (n : nat) :
  (Z.of_nat n <= 9007199254740992)%Z -> fl (INR n) = INR n.
Proof.
  intros H. rewrite INR_IZR_INZ. apply fl_int. lia.
Qed.

(** A value of magnitude at most [bound] moves by at most
    [bound / 2^53 + 2^-64]. *)
Lemma fl_near (v bound : R) :
  Rabs v <= bound ->
  v - (bound / 9007199254740992 + / 18446744073709551616) <= fl v
  <= v + (bound / 9007199254740992 + / 18446744073709551616).
Proof.
  intros Hv. pose proof (fl_error fl v) as He.
  assert (Hb : Rabs v / 9007199254740992 <= bound / 9007199254740992)
    by (apply Rmult_le_compat_r; [|exact Hv]; apply Rlt_le, Rinv_0_lt_compat; lra).
  unfold Rabs at 1 in He. destruct (Rcase_abs (fl v - v)); lra.
Qed.

Lemma fl_between (lo hi v : R) :
  fl lo = lo -> fl hi = hi -> lo <= v <= hi -> lo <= fl v <= hi.
Proof.
  intros Hlo Hhi [H1 H2]. rewrite <- Hlo, <- Hhi.
  split; apply fl_mono; assumption.
Qed.

End Rounding.

(** ** The linear field at angle 0 and scale 100 *)

Section LinearField.

Import Gradient.
Local Open Scope R_scope.

Variables (fl : rounding) (m : MathLibrary).
Variables (g : Settings) (width height : nat).
Hypothesis Hkind : gradientType g = linear.
Hypothesis Hangle : customAngle g = 0.
Hypothesis Hscale : scaleValue g = 100.
Hypothesis Hwidth : dimension width.
Hypothesis Hheight : dimension height.

Lemma INR_below (n i : nat) : (i < n)%nat -> 0 <= INR i <= INR n - 1.
Proof.
  intros H. split; [apply pos_INR|].
  apply le_INR in H. rewrite S_INR in H. lra.
Qed.

Lemma INR_span (n : nat) : (2 <= n)%nat -> 0 < INR n - 1.
Proof. intros H. apply le_INR in H. simpl in H. lra. Qed.

(** [n - 1] for a dimension [n]: between 1 and 2^32, and a binary64
    value. *)
Lemma span_exact (n : nat) :
  dimension n ->
  1 <= INR n - 1 <= 4294967296 /\ fl (INR n - 1) = INR n - 1.
Proof.
  intros [Hn Hmax].
  assert (Hz : INR n - 1 = IZR (Z.of_nat n - 1))
    by (rewrite minus_IZR, <- INR_IZR_INZ; reflexivity).
  split.
  - rewrite Hz. split; apply IZR_le; lia.
  - rewrite Hz. apply fl_int. lia.
Qed.

Lemma index_exact (n i : nat) :
  dimension n -> (i < n)%nat -> fl (INR i * 1) = INR i.
Proof.
  intros [_ Hmax] Hi. rewrite Rmult_1_r. apply fl_INR. lia.
Qed.

Lemma normalized_range (n i : nat) :
  (2 <= n)%nat -> (i < n)%nat -> 0 <= INR i / (INR n - 1) <= 1.
Proof.
  intros Hn Hi. pose proof (INR_below n i Hi). pose proof (INR_span n Hn).
  split.
  - apply Rmult_le_pos; [lra|]. left. apply Rinv_0_lt_compat. lra.
  - apply (Rmult_le_reg_r (INR n - 1)); [lra|]. field_simplify; lra.
Qed.

Lemma scaleFactor_100 : scaleFactor fl g = 1.
Proof.
  unfold scaleFactor. rewrite Hscale.
  replace (100 / 100) with 1 by lra. apply fl_1.
Qed.

(** At scale 100 the scaled coordinate is [coordinate]: the division by
    the scale factor 1 leaves a binary64 value as it is. *)
Lemma scaled_coordinate (n i : nat) :
  dimension n -> (i < n)%nat ->
  scaled fl g n i = Some (coordinate fl n i).
Proof.
  intros Hn Hi. destruct (span_exact n Hn) as [Hspan Hfl].
  pose proof (INR_below n i Hi) as Hbelow.
  unfold scaled, quotient. cbv zeta.
  rewrite (index_exact n i Hn Hi), Hfl, Rmin_left by lra.
  destruct (Req_dec_T (INR n - 1) 0) as [E|_]; [exfalso; lra|].
  rewrite scaleFactor_100.
  destruct (Req_dec_T 1 0) as [E|_]; [exfalso; lra|].
  unfold coordinate.
  replace (fl (fl (INR i / (INR n - 1)) - 0.5) / 1)
    with (fl (fl (INR i / (INR n - 1)) - 0.5)) by lra.
  rewrite fl_idem. reflexivity.
Qed.

Lemma coordinate_exact (n i : nat) :
  fl (coordinate fl n i) = coordinate fl n i.
Proof. unfold coordinate. apply fl_idem. Qed.

(** The steps of [coordinate]: each stays in its range. *)
Lemma coordinate_steps (n i : nat) :
  (2 <= n)%nat -> (i < n)%nat ->
  0 <= fl (INR i / (INR n - 1)) <= 1
  /\ - 0.5 <= fl (fl (INR i / (INR n - 1)) - 0.5) <= 0.5
  /\ 0 <= coordinate fl n i <= 1.
Proof.
  intros Hn Hi. pose proof (normalized_range n i Hn Hi) as Ht.
  assert (H1 : 0 <= fl (INR i / (INR n - 1)) <= 1)
    by (apply fl_between; [apply fl_0 | apply fl_1 | exact Ht]).
  assert (H2 : - 0.5 <= fl (fl (INR i / (INR n - 1)) - 0.5) <= 0.5)
    by (apply fl_between;
        [apply fl_minus_one_half | apply fl_one_half | lra]).
  split; [exact H1|]. split; [exact H2|].
  unfold coordinate. apply fl_between; [apply fl_0 | apply fl_1 | lra].
Qed.

Lemma coordinate_range (n i : nat) :
  (2 <= n)%nat -> (i < n)%nat -> 0 <= coordinate fl n i <= 1.
Proof. intros Hn Hi. apply (coordinate_steps n i Hn Hi). Qed.

Lemma coordinate_first (n : nat) : coordinate fl n 0 = 0.
Proof.
  unfold coordinate. simpl INR. unfold Rdiv at 1. rewrite Rmult_0_l, fl_0.
  replace (0 - 0.5) with (- 0.5) by lra. rewrite fl_minus_one_half.
  replace (0.5 + - 0.5) with 0 by lra. apply fl_0.
Qed.

Lemma coordinate_last (n : nat) :
  (2 <= n)%nat -> coordinate fl n (n - 1) = 1.
Proof.
  intros Hn. pose proof (INR_span n Hn) as Hspan.
  unfold coordinate. rewrite minus_INR by lia. simpl INR.
  replace ((INR n - 1) / (INR n - 1)) with 1 by (field; lra).
  rewrite fl_1. replace (1 - 0.5) with 0.5 by lra. rewrite fl_one_half.
  replace (0.5 + 0.5) with 1 by lra. apply fl_1.
Qed.

(** The coordinate never decreases along the columns or the rows. *)
Lemma coordinate_mono (n i j : nat) :
  (2 <= n)%nat -> (i <= j)%nat ->
  coordinate fl n i <= coordinate fl n j.
Proof.
  intros Hn Hij. pose proof (INR_span n Hn) as Hspan.
  unfold coordinate. apply fl_mono, Rplus_le_compat_l, fl_mono.
  apply Rplus_le_compat_r, fl_mono.
  apply Rmult_le_compat_r; [left; apply Rinv_0_lt_compat; lra|].
  apply le_INR, Hij.
Qed.

(** The coordinate is the quotient [i / (n - 1)] up to three roundings of
    values of magnitude at most 1. *)
Lemma coordinate_near (n i : nat) :
  (2 <= n)%nat -> (i < n)%nat ->
  Rabs (coordinate fl n i - INR i / (INR n - 1))
  <= 3 * (/ 9007199254740992 + / 18446744073709551616).
Proof.
  intros Hn Hi. pose proof (normalized_range n i Hn Hi) as Ht.
  destruct (coordinate_steps n i Hn Hi) as (H1 & H2 & H3).
  pose proof (fl_near fl (INR i / (INR n - 1)) 1) as E1.
  pose proof (fl_near fl (fl (INR i / (INR n - 1)) - 0.5) 1) as E2.
  pose proof (fl_near fl
                (0.5 + fl (fl (INR i / (INR n - 1)) - 0.5)) 1) as E3.
  fold (coordinate fl n i) in E3.
  assert (A1 : Rabs (INR i / (INR n - 1)) <= 1)
    by (apply Rabs_le; lra).
  assert (A2 : Rabs (fl (INR i / (INR n - 1)) - 0.5) <= 1)
    by (apply Rabs_le; lra).
  assert (A3 : Rabs (0.5 + fl (fl (INR i / (INR n - 1)) - 0.5)) <= 1)
    by (apply Rabs_le; lra).
  specialize (E1 A1). specialize (E2 A2). specialize (E3 A3).
  apply Rabs_le. lra.
Qed.

(** Back on the grid the coordinate rounds to its own index: the keys of
    the cache tell the columns and the rows apart. *)
Lemma mapped_coordinate (n i : nat) :
  dimension n -> (i < n)%nat ->
  mapped fl false (coordinate fl n i) n = Z.of_nat i.
Proof.
  intros Hdim Hi. pose proof Hdim as [Hn _].
  destruct (span_exact n Hdim) as [Hspan Hfl].
  pose proof (coordinate_near n i Hn Hi) as Hnear.
  pose proof (coordinate_range n i Hn Hi) as Hrange.
  pose proof (INR_below n i Hi) as Hbelow.
  unfold mapped. rewrite Hfl.
  set (s := coordinate fl n i) in *. set (W := INR n - 1) in *.
  assert (Hquot : INR i / W * W = INR i) by (field; lra).
  assert (Hprod : Rabs (s * W - INR i)
                  <= 3 * (/ 9007199254740992 + / 18446744073709551616)
                     * 4294967296).
  { rewrite <- Hquot at 1. rewrite <- Rmult_minus_distr_r, Rabs_mult.
    rewrite (Rabs_pos_eq W) by lra.
    apply Rmult_le_compat; [apply Rabs_pos | lra | exact Hnear | lra]. }
  assert (Hmag : Rabs (s * W) <= 4294967296).
  { apply Rabs_le. split; [|nra].
    assert (0 <= s * W) by (apply Rmult_le_pos; lra). lra. }
  pose proof (fl_near fl (s * W) 4294967296 Hmag) as Hfl_near.
  unfold Rabs in Hprod. destruct (Rcase_abs (s * W - INR i)) as [Hneg|Hpos].
  - rewrite (Math_round_eq (fl (s * W)) (Z.of_nat i))
      by (rewrite <- INR_IZR_INZ; lra).
    lia.
  - rewrite (Math_round_eq (fl (s * W)) (Z.of_nat i))
      by (rewrite <- INR_IZR_INZ; lra).
    lia.
Qed.

Lemma inside_range (sx sy : R) :
  0 <= sx <= 1 -> 0 <= sy <= 1 -> isOutsideRange sx sy = false.
Proof.
  intros Hx Hy. unfold isOutsideRange.
  destruct (Rlt_dec sx 0); [exfalso; lra|].
  destruct (Rgt_dec sx 1); [exfalso; lra|].
  destruct (Rlt_dec sy 0); [exfalso; lra|].
  destruct (Rgt_dec sy 1); [exfalso; lra | reflexivity].
Qed.

Lemma cacheKey_at_100 (x y : nat) :
  (x < width)%nat -> (y < height)%nat ->
  cacheKey fl g width height (coordinate fl width x)
    (coordinate fl height y)
  = (linear, Z.of_nat x, Z.of_nat y,
     (0, centerX g, centerY g, ellipticalRotation g, 100)).
Proof.
  intros Hx Hy. unfold cacheKey. cbv zeta.
  rewrite inside_range
    by (apply coordinate_range;
        [apply Hwidth || apply Hheight | assumption]).
  rewrite !mapped_coordinate by assumption.
  rewrite Hkind, Hangle, Hscale. reflexivity.
Qed.

(** At angle 0 the position is the horizontal coordinate alone: the angle
    is given to the cosine and the sine as it is. *)
Lemma linearPosition_at_0 (sx sy : R) :
  fl sx = sx -> 0 <= sx <= 1 ->
  linearPosition fl m g sx sy = fl (sx * 100).
Proof.
  intros Hfl Hx. unfold linearPosition. cbv zeta. rewrite Hangle.
  rewrite Rmult_0_l, fl_0. replace (0 / 180) with 0 by lra. rewrite fl_0.
  simpl fst. simpl snd. rewrite Math_cos_0, Math_sin_0.
  rewrite Rmult_1_r, Rmult_0_r, Hfl, fl_0, Rplus_0_r, Hfl.
  assert (Hp : 0 <= fl (sx * 100) <= 100)
    by (apply fl_between; [apply fl_0 | apply fl_100 | lra]).
  rewrite Rmin_right, Rmax_right by lra. reflexivity.
Qed.

Lemma column_position_range (x : nat) :
  (x < width)%nat -> 0 <= column_position fl width x <= 100.
Proof.
  intros Hx. destruct Hwidth as [Hw _].
  pose proof (coordinate_range width x Hw Hx).
  unfold column_position. apply fl_between; [apply fl_0 | apply fl_100 | lra].
Qed.

Lemma calcColor_at_0 (x y : nat) :
  (x < width)%nat -> (y < height)%nat ->
  calcColor fl m g width height (coordinate fl width x)
    (coordinate fl height y)
  = ramp g (column_position fl width x)
  /\ linearPosition fl m g (coordinate fl width x) (coordinate fl height y)
     = column_position fl width x.
Proof.
  intros Hx Hy. destruct Hwidth as [Hw _]. destruct Hheight as [Hh _].
  assert (Hpos : linearPosition fl m g (coordinate fl width x)
                   (coordinate fl height y)
                 = column_position fl width x).
  { apply linearPosition_at_0;
      [apply coordinate_exact | apply coordinate_range; assumption]. }
  split; [|exact Hpos].
  unfold calcColor.
  rewrite inside_range by (apply coordinate_range; assumption).
  rewrite Hkind, Hpos. reflexivity.
Qed.

End LinearField.

(** ** The memoized field *)

Section Cache.

Import Gradient.
Local Open Scope R_scope.

Lemma Reqb_refl (a : R) : Reqb a a = true.
Proof. unfold Reqb. destruct (Req_dec_T a a); [reflexivity | contradiction]. Qed.

Lemma key_eqb_refl (k : key) : key_eqb k k = true.
Proof.
  destruct k as [[[kind x] y] [[[[a1 a2] a3] a4] a5]]. simpl.
  rewrite !Z.eqb_refl, !Reqb_refl. destruct kind; reflexivity.
Qed.

Lemma key_eqb_coordinates (kind kind' : GradientKind) (x y x' y' : Z)
    (p p' : R * R * R * R * R) :
  key_eqb (kind, x, y, p) (kind', x', y', p') = true -> x = x' /\ y = y'.
Proof.
  destruct p as [[[[a1 a2] a3] a4] a5], p' as [[[[b1 b2] b3] b4] b5]. simpl.
  rewrite !andb_true_iff, !Z.eqb_eq. tauto.
Qed.

Lemma cache_get_Some (k : key) (c : cache) (v : string) :
  cache_get k c = Some v ->
  exists k', In (k', v) c /\ key_eqb k k' = true.
Proof.
  induction c as [|[k' v'] c IH]; simpl; [discriminate|].
  destruct (key_eqb k k') eqn:He.
  - intros [= <-]. exists k'. auto.
  - intros H. destruct (IH H) as (k'' & ? & ?). exists k''. auto.
Qed.

Lemma cache_get_snoc (k : key) (c : cache) (v : string) :
  cache_get k c = None -> cache_get k (c ++ [(k, v)]) = Some v.
Proof.
  induction c as [|[k' v'] c IH]; simpl.
  - rewrite key_eqb_refl. reflexivity.
  - destruct (key_eqb k k'); [discriminate | exact IH].
Qed.

Lemma cache_get_drop (k : key) (c : cache) (n : nat) :
  cache_get k c = None -> cache_get k (drop n c) = None.
Proof.
  revert n. induction c as [|[k' v'] c IH]; intros [|n]; simpl; auto.
  destruct (key_eqb k k'); [discriminate | apply IH].
Qed.

(** The entry just set outlives the eviction of the 2500 oldest ones. *)
Lemma cache_get_after_eviction (k : key) (c : cache) (v : string) :
  cache_get k c = None ->
  cache_get k
    (if (5000 <? length (c ++ [(k, v)]))%nat
     then drop 2500 (c ++ [(k, v)]) else c ++ [(k, v)])
  = Some v.
Proof.
  intros Hmiss. destruct (Nat.ltb_spec 5000 (length (c ++ [(k, v)]))) as [Hbig|_].
  - rewrite length_app in Hbig. simpl in Hbig.
    rewrite drop_app_le by lia. apply cache_get_snoc, cache_get_drop, Hmiss.
  - apply cache_get_snoc, Hmiss.
Qed.

Variables (fl : rounding) (m : MathLibrary).
Variables (g : Settings) (width height : nat).
Variable colorOf : nat -> nat -> string.
Variables coordX coordY : nat -> R.

(** The scaled coordinates are numbers, the keys tell apart the pixels
    that differ in color, and the computation of a color returns. *)
Hypothesis scaledX_coord :
  forall x, (x < width)%nat -> scaledX fl g width x = Some (coordX x).
Hypothesis scaledY_coord :
  forall y, (y < height)%nat -> scaledY fl g height y = Some (coordY y).
Hypothesis key_separates :
  forall x y x' y',
    (x < width)%nat -> (y < height)%nat ->
    (x' < width)%nat -> (y' < height)%nat ->
    key_eqb (cacheKey fl g width height (coordX x) (coordY y))
            (cacheKey fl g width height (coordX x') (coordY y')) = true ->
    colorOf x y = colorOf x' y'.
Hypothesis calc_colorOf :
  forall x y, (x < width)%nat -> (y < height)%nat ->
    calcColor fl m g width height (coordX x) (coordY y)
    = Value (colorOf x y).

Lemma cached_sound (x y : nat) (c : cache) :
  (x < width)%nat -> (y < height)%nat ->
  cache_sound fl m g width height c ->
  exists c',
    cached (cacheKey fl g width height (coordX x) (coordY y))
      (calcColor fl m g width height (coordX x) (coordY y)) c
    = Value (colorOf x y, c')
    /\ cache_sound fl m g width height c'.
Proof.
  intros Hx Hy Hc. rewrite calc_colorOf by assumption.
  unfold cached, getColorFromCache.
  destruct (cache_get (cacheKey fl g width height (coordX x) (coordY y)) c)
    as [v|] eqn:Hget.
  - exists c. split; [|exact Hc].
    destruct (cache_get_Some _ _ _ Hget) as (k' & Hin & Hk).
    unfold cache_sound in Hc. rewrite Forall_forall in Hc.
    rewrite <- list_elem_of_In in Hin.
    specialize (Hc _ Hin x y _ _ Hx Hy (scaledX_coord x Hx)
                  (scaledY_coord y Hy) Hk).
    simpl in Hc. rewrite calc_colorOf in Hc by assumption.
    injection Hc as <-. reflexivity.
  - cbv zeta. unfold cache in *.
    rewrite cache_get_after_eviction by assumption.
    eexists. split; [reflexivity|].
    assert (Hc1 : cache_sound fl m g width height
                    (c ++ [(cacheKey fl g width height (coordX x) (coordY y),
                            colorOf x y)])).
    { apply Forall_app. split; [exact Hc|].
      apply Forall_cons. split; [|constructor].
      intros x' y' sx sy Hx' Hy' Hsx Hsy Hk. simpl in *.
      rewrite scaledX_coord in Hsx by assumption.
      rewrite scaledY_coord in Hsy by assumption.
      injection Hsx as <-. injection Hsy as <-.
      rewrite calc_colorOf by assumption. f_equal.
      apply key_separates; assumption. }
    destruct (_ <? _)%nat; [apply Forall_drop|]; exact Hc1.
Qed.

Lemma row_loop_sound (y : nat) :
  (y < height)%nat ->
  forall n a pixels c,
    (a + n <= width)%nat -> cache_sound fl m g width height c ->
    exists c',
      fold_left (pixel_step fl m g width height y) (seq a n)
        (Value (pixels, c))
      = Value (pixels ++ map (fun x => colorOf x y) (seq a n), c')
      /\ cache_sound fl m g width height c'.
Proof.
  intros Hy. induction n as [|n IH]; intros a pixels c Ha Hc; simpl.
  - exists c. rewrite app_nil_r. auto.
  - rewrite scaledX_coord, scaledY_coord by (assumption || lia).
    destruct (cached_sound a y c ltac:(lia) Hy Hc) as (c1 & -> & Hc1).
    destruct (IH (S a) (pixels ++ [colorOf a y]) c1 ltac:(lia) Hc1)
      as (c2 & -> & Hc2).
    exists c2. rewrite <- app_assoc. auto.
Qed.

Lemma calculateOptimizedPixels_sound (c : cache) :
  cache_sound fl m g width height c ->
  exists c',
    calculateOptimizedPixels fl m g width height c
    = Value (concat (map (fun y => map (fun x => colorOf x y) (seq 0 width))
                         (seq 0 height)), c')
    /\ cache_sound fl m g width height c'.
Proof.
  intros Hc. unfold calculateOptimizedPixels.
  assert (Hgen : forall n a pixels c0,
            (a + n <= height)%nat -> cache_sound fl m g width height c0 ->
            exists c',
              fold_left (row_loop fl m g width height) (seq a n)
                (Value (pixels, c0))
              = Value (pixels
                       ++ concat (map (fun y => map (fun x => colorOf x y)
                                                    (seq 0 width)) (seq a n)),
                       c')
              /\ cache_sound fl m g width height c').
  { induction n as [|n IH]; intros a pixels c0 Ha Hc0; simpl.
    - exists c0. rewrite app_nil_r. auto.
    - unfold row_loop at 2.
      destruct (row_loop_sound a ltac:(lia) width 0%nat pixels c0
                  ltac:(lia) Hc0) as (c1 & -> & Hc1).
      destruct (IH (S a) (pixels ++ map (fun x => colorOf x a) (seq 0 width))
                  c1 ltac:(lia) Hc1) as (c2 & -> & Hc2).
      exists c2. rewrite <- app_assoc. auto. }
  apply (Hgen height 0%nat [] c); [lia | exact Hc].
Qed.

End Cache.

Section LinearColumns.

Import Gradient.
Local Open Scope R_scope.

Variables (fl : rounding) (m : MathLibrary).

Lemma column_position_first (width : nat) : column_position fl width 0 = 0.
Proof.
  unfold column_position. rewrite coordinate_first, Rmult_0_l. apply fl_0.
Qed.

Lemma column_position_last (width : nat) :
  (2 <= width)%nat -> column_position fl width (width - 1) = 100.
Proof.
  intros Hw. unfold column_position.
  rewrite coordinate_last, Rmult_1_l by assumption. apply fl_100.
Qed.

Lemma column_position_mono (width x x' : nat) :
  (2 <= width)%nat -> (x <= x')%nat ->
  column_position fl width x <= column_position fl width x'.
Proof.
  intros Hw Hx. unfold column_position. apply fl_mono.
  apply Rmult_le_compat_r; [lra|]. apply coordinate_mono; assumption.
Qed.

(** At angle 0 and scale 100, from an empty cache, the pixel at column [x]
    of any row is what the ramp returns at the position of column [x]. *)
Lemma linear_field_columns (g : Settings) (width height : nat) :
  gradientType g = linear -> customAngle g = 0 -> scaleValue g = 100 ->
  dimension width -> dimension height -> colorStops g <> [] ->
  exists pixels c',
    calculateOptimizedPixels fl m g width height [] = Value (pixels, c')
    /\ length pixels = (width * height)%nat
    /\ forall x y, (x < width)%nat -> (y < height)%nat ->
         pixels !! (y * width + x)%nat
         = getColorAtPosition (colorStops g) (column_position fl width x).
Proof.
  intros Hkind Hangle Hscale Hw Hh Hstops.
  set (colorOf := fun (x y : nat) =>
         default "" (getColorAtPosition (colorStops g)
                       (column_position fl width x))).
  assert (Hcol : forall x,
            getColorAtPosition (colorStops g) (column_position fl width x)
            = Some (colorOf x 0%nat)).
  { intros x. subst colorOf. simpl.
    destruct (getColorAtPosition_total (colorStops g)
                (column_position fl width x) Hstops) as [c ->]. reflexivity. }
  destruct (calculateOptimizedPixels_sound fl m g width height colorOf
              (coordinate fl width) (coordinate fl height))
    with (c := @nil (key * string)) as (c' & Hrun & _).
  - intros x Hx. apply (scaled_coordinate fl g Hscale); assumption.
  - intros y Hy. apply (scaled_coordinate fl g Hscale); assumption.
  - intros x y x' y' Hx Hy Hx' Hy'.
    rewrite !(cacheKey_at_100 fl g width height Hkind Hangle Hscale Hw Hh)
      by assumption.
    intros Hk. apply key_eqb_coordinates in Hk. destruct Hk as [Hk _].
    apply Nat2Z.inj in Hk. subst x'. reflexivity.
  - intros x y Hx Hy.
    destruct (calcColor_at_0 fl m g width height Hkind Hangle Hw Hh x y
                Hx Hy) as [-> _].
    unfold ramp. rewrite Hcol. reflexivity.
  - constructor.
  - eexists _, c'. split; [exact Hrun|]. split.
    + apply length_concat_rows. intros y _. rewrite length_map, length_seq.
      reflexivity.
    + intros x y Hx Hy.
      rewrite (lookup_concat_rows
                 (fun y => map (fun x => colorOf x y) (seq 0 width))
                 width height y x)
        by (try assumption; intros; rewrite length_map, length_seq; reflexivity).
      change (map ?f ?l) with (f <$> l). rewrite list_lookup_fmap.
      rewrite lookup_seq_lt by assumption. simpl. symmetry. apply Hcol.
Qed.

Lemma convertAngleToCss_0 : convertAngleToCss 0 = 90.
Proof.
  unfold convertAngleToCss, js_rem. cbv zeta.
  destruct (Rle_dec 0 ((0 + 90 + 360) / 360)) as [_|H]; [|exfalso; lra].
  rewrite (Zfloor_eq 1) by lra. lra.
Qed.

(** The field of the scenario, for every rounding: red, blue, red, blue. *)
Lemma red_blue_2x2 :
  exists c',
    calculateOptimizedPixels fl m (linear_at_0 red_blue) 2 2 []
    = Value (["#ff0000"; "#0000ff"; "#ff0000"; "#0000ff"], c').
Proof.
  assert (Hdim : dimension 2) by (split; [lia | simpl; lia]).
  destruct (linear_field_columns (linear_at_0 red_blue) 2 2
              eq_refl eq_refl eq_refl Hdim Hdim ltac:(discriminate))
    as (pixels & c' & Hrun & Hlen & Hpix).
  assert (Hred : getColorAtPosition red_blue (column_position fl 2 0)
                 = Some "#ff0000").
  { rewrite column_position_first.
    apply (getColorAtPosition_first _ _
             {| color := "#ff0000"; position := 0 |});
      [rewrite sort_red_blue; reflexivity | simpl; lra]. }
  assert (Hblue : getColorAtPosition red_blue (column_position fl 2 1)
                  = Some "#0000ff").
  { assert (Hlast : column_position fl 2 1 = 100)
      by (apply (column_position_last 2); lia).
    rewrite Hlast.
    apply (getColorAtPosition_last _ _
             {| color := "#ff0000"; position := 0 |}
             {| color := "#0000ff"; position := 100 |});
      try (rewrite sort_red_blue; reflexivity); simpl; lra. }
  pose proof (Hpix 0%nat 0%nat ltac:(lia) ltac:(lia)) as H0.
  pose proof (Hpix 1%nat 0%nat ltac:(lia) ltac:(lia)) as H1.
  pose proof (Hpix 0%nat 1%nat ltac:(lia) ltac:(lia)) as H2.
  pose proof (Hpix 1%nat 1%nat ltac:(lia) ltac:(lia)) as H3.
  simpl colorStops in H0, H1, H2, H3.
  rewrite Hred in H0, H2. rewrite Hblue in H1, H3.
  destruct pixels as [|p0 [|p1 [|p2 [|p3 [|p4 rest]]]]]; try discriminate.
  simpl in H0, H1, H2, H3.
  injection H0 as ->. injection H1 as ->. injection H2 as ->.
  injection H3 as ->.
  exists c'. exact Hrun.
Qed.

End LinearColumns.

(** C2 (as amended). At [customAngle = 0] and scale 100, on a grid of at
    least two columns and two rows and from an empty cache, the linear
    gradient runs from the left edge to the right edge, for every rounding
    of the arithmetic: the first column of every row has the color of the
    first stop and the last column that of the last stop (stops within
    0..100, the first below 100), the color of a pixel depends on its column
    only, and the position on the ramp never decreases from a column to the
    next, from 0 at the first to 100 at the last. The position is the
    horizontal coordinate alone: the angle is given to the cosine and the
    sine as it is; the conversion [(angle + 90 + 360) % 360], which takes 0
    to 90, is not applied. *)
Theorem C2_linear_angle_0_runs_left_to_right (round : Gradient.rounding)
    (m : Gradient.MathLibrary) (g : Gradient.Settings)
    (width height : nat) (first final : Gradient.ColorStop)
    (Hkind : Gradient.gradientType g = Gradient.linear)
    (Hangle : Gradient.customAngle g = 0%R)
    (Hscale : Gradient.scaleValue g = 100%R)
    (Hwidth : Gradient.dimension width)
    (Hheight : Gradient.dimension height)
    (Hfirst : head (Gradient.sort_stops (Gradient.colorStops g)) = Some first)
    (Hfinal : last (Gradient.sort_stops (Gradient.colorStops g)) = Some final)
    (Hlow : (0 <= Gradient.position first < 100)%R)
    (Hhigh : (Gradient.position final <= 100)%R) :
  (exists pixels c',
      Gradient.calculateOptimizedPixels round m g width height []
      = Gradient.Value (pixels, c')
      /\ length pixels = width * height
      /\ (forall y, y < height ->
            pixels !! (y * width + 0) = Some (Gradient.color first)
            /\ pixels !! (y * width + (width - 1))
               = Some (Gradient.color final))
      /\ (forall x y, x < width -> y < height ->
            pixels !! (y * width + x) = pixels !! x))
  /\ (forall x y, x < width -> y < height ->
        exists sx sy,
          Gradient.scaledX round g width x = Some sx
          /\ Gradient.scaledY round g height y = Some sy
          /\ Gradient.linearPosition round m g sx sy
             = Gradient.column_position round width x)
  /\ Gradient.column_position round width 0 = 0%R
  /\ Gradient.column_position round width (width - 1) = 100%R
  /\ (forall x x', x <= x' -> x' < width ->
        (Gradient.column_position round width x
         <= Gradient.column_position round width x')%R)
  /\ (forall sx sy, Gradient.fl round sx = sx -> (0 <= sx <= 1)%R ->
        Gradient.linearPosition round m g sx sy
        = Gradient.fl round (sx * 100)%R)
  /\ Gradient.convertAngleToCss 0 = 90%R.
Proof.
  assert (Hstops : Gradient.colorStops g <> []).
  { intros E. rewrite E in Hfirst. discriminate. }
  pose proof Hwidth as [Hw _]. pose proof Hheight as [Hh _].
  split; [|split; [|split; [|split; [|split; [|split]]]]].
  - destruct (linear_field_columns round m g width height Hkind Hangle Hscale
                Hwidth Hheight Hstops) as (pixels & c' & Hrun & Hlen & Hpix).
    exists pixels, c'. split; [exact Hrun|]. split; [exact Hlen|]. split.
    + intros y Hy. split.
      * rewrite Hpix by lia. rewrite column_position_first.
        apply (getColorAtPosition_first _ _ first Hfirst). lra.
      * rewrite Hpix by lia. rewrite column_position_last by assumption.
        apply (getColorAtPosition_last _ _ first final Hfirst Hfinal); lra.
    + intros x y Hx Hy. rewrite Hpix by assumption.
      rewrite <- (Hpix x 0) by lia. reflexivity.
  - intros x y Hx Hy.
    exists (Gradient.coordinate round width x), (Gradient.coordinate round height y).
    split; [apply (scaled_coordinate round g Hscale); assumption|].
    split; [apply (scaled_coordinate round g Hscale); assumption|].
    apply (calcColor_at_0 round m g width height Hkind Hangle Hwidth Hheight
             x y Hx Hy).
  - apply column_position_first.
  - apply column_position_last, Hw.
  - intros x x' Hx Hx'. apply column_position_mono; assumption.
  - intros sx sy Hsx Hrange. apply linearPosition_at_0; assumption.
  - apply convertAngleToCss_0.
Qed.

Lemma C2_linear_angle_0_runs_left_to_right_witness :
  exists pixels c',
    Gradient.calculateOptimizedPixels Gradient.exact_rounding
      Gradient.real_functions (Gradient.linear_at_0 Gradient.red_blue) 2 2 []
    = Gradient.Value (pixels, c')
    /\ pixels !! 0 = Some "#ff0000" /\ pixels !! 3 = Some "#0000ff".
Proof.
  assert (Hfirst : head (Gradient.sort_stops Gradient.red_blue)
                   = Some {| Gradient.color := "#ff0000";
                             Gradient.position := 0 |})
    by (rewrite sort_red_blue; reflexivity).
  assert (Hfinal : last (Gradient.sort_stops Gradient.red_blue)
                   = Some {| Gradient.color := "#0000ff";
                             Gradient.position := 100 |})
    by (rewrite sort_red_blue; reflexivity).
  assert (Hdim : Gradient.dimension 2) by (split; [lia | simpl; lia]).
  destruct (C2_linear_angle_0_runs_left_to_right Gradient.exact_rounding
              Gradient.real_functions
              (Gradient.linear_at_0 Gradient.red_blue) 2 2 _ _
              eq_refl eq_refl eq_refl Hdim Hdim Hfirst Hfinal
              ltac:(simpl; lra) ltac:(simpl; lra))
    as ((pixels & c' & Hrun & _ & Hedge & _) & _).
  exists pixels, c'. split; [exact Hrun|].
  destruct (Hedge 0 ltac:(lia)) as [H0 _].
  destruct (Hedge 1 ltac:(lia)) as [_ H3].
  split; [exact H0 | exact H3].
Defined.

(** C2 (as stated) fails: on a 2x2 grid with the stops red at 0 and blue at
    100, at angle 0 and for every rounding of the arithmetic, the right
    pixel of the top row has the last stop's color and the left pixel of the
    bottom row the first stop's. *)
Lemma C2_top_row_holds_last_stop :
  exists pixels,
    (forall (round : Gradient.rounding) (m : Gradient.MathLibrary),
       exists c',
         Gradient.calculateOptimizedPixels round m
           (Gradient.linear_at_0 Gradient.red_blue) 2 2 []
         = Gradient.Value (pixels, c'))
    /\ pixels !! (0 * 2 + 1) = Some "#0000ff"
    /\ pixels !! (1 * 2 + 0) = Some "#ff0000".
Proof.
  exists ["#ff0000"; "#0000ff"; "#ff0000"; "#0000ff"].
  split; [|split; reflexivity].
  intros round m. apply red_blue_2x2.
Qed.

(** * Further properties *)

(** ** The serpentine order as a rearrangement *)

Section SerpentineOrder.

Import Controls.

(** The rows of a buffer, one after the other, are its first [h * w]
    cells. *)
Lemma concat_slices {A : Type} (l : list A) (w h : nat) :
  concat (map (fun y => slice l (y * w) (y * w + w)) (seq 0 h))
  = take (h * w) l.
Proof.
  induction h as [|h IH]; [reflexivity|].
  rewrite seq_S, map_app, concat_app, IH. simpl. rewrite app_nil_r.
  unfold slice. replace (h * w + w - h * w) with w by lia.
  rewrite take_take_drop. f_equal. lia.
Qed.

Lemma physical_order_Permutation (w h : nat) (cells : list cell) :
  Permutation (physical_order w h cells) (take (h * w) cells).
Proof.
  rewrite <- concat_slices. unfold physical_order.
  induction (seq 0 h) as [|y ys IH]; simpl; [constructor|].
  apply Permutation_app; [|exact IH].
  destruct (Nat.odd y); [apply reverse_Permutation | reflexivity].
Qed.

(** Reading the encoded grid: the index lemma behind the serpentine
    order. *)
Lemma get_serpentine (w h : nat) (cells : list cell) (y x : nat) :
  length cells = w * h -> y < h -> x < w ->
  get (serpentine w h cells) (y * w + x)
  = get cells (y * w + (if Nat.odd y then w - 1 - x else x)).
Proof.
  intros Hsize Hy Hx. rewrite serpentine_rows. unfold get at 1.
  rewrite (lookup_concat_rows (encoded_row w cells) w h)
    by (try assumption; intros; apply (length_encoded_row w cells h);
        assumption).
  apply (get_encoded_row w cells h); assumption.
Qed.

Lemma length_serpentine (w h : nat) (cells : list cell) :
  length cells = w * h -> length (serpentine w h cells) = w * h.
Proof.
  intros Hsize. rewrite serpentine_rows. apply length_concat_rows.
  intros y Hy. apply (length_encoded_row w cells h); assumption.
Qed.

End SerpentineOrder.

(** X1. Encoding twice gives back the grid: for a buffer of [w * h] cells,
    the serpentine order of the serpentine order has the length of the
    buffer and reads as the buffer at every index. *)
Theorem X1_serpentine_twice_is_identity (w h : nat) (cells : list cell)
    (Hsize : length cells = w * h) :
  length (Controls.serpentine w h (Controls.serpentine w h cells))
  = length cells
  /\ forall i,
       get (Controls.serpentine w h (Controls.serpentine w h cells)) i
       = get cells i.
Proof.
  pose proof (length_serpentine w h cells Hsize) as Hlen1.
  pose proof (length_serpentine w h _ Hlen1) as Hlen2.
  split; [congruence|]. intros i.
  destruct (Nat.lt_ge_cases i (w * h)) as [Hi|Hi].
  - assert (Hw : w <> 0) by (intros ->; simpl in Hi; lia).
    pose proof (Nat.div_mod_eq i w) as Hdiv.
    pose proof (Nat.mod_upper_bound i w Hw) as Hx.
    assert (Hy : i / w < h) by (apply Nat.Div0.div_lt_upper_bound; lia).
    replace i with (i / w * w + i mod w) at 1 2 by lia.
    rewrite (get_serpentine w h _ _ _ Hlen1 Hy Hx).
    rewrite (get_serpentine w h cells _ _ Hsize Hy)
      by (destruct (Nat.odd (i / w)); lia).
    f_equal. destruct (Nat.odd (i / w)); lia.
  - rewrite !get_ge by lia. reflexivity.
Qed.

Lemma X1_serpentine_twice_is_identity_witness :
  length Controls.grid2x2 = 2 * 2
  /\ get (Controls.serpentine 2 2 (Controls.serpentine 2 2 Controls.grid2x2)) 3
     = Str "#ffffff".
Proof.
  split; [reflexivity|].
  exact (proj2 (X1_serpentine_twice_is_identity 2 2 Controls.grid2x2 eq_refl) 3).
Defined.

(** X2. Whatever the length of the buffer, the serpentine order is a
    rearrangement of its first [w * h] cells (holes read as [undefined]):
    cells beyond the grid are not sent, a short buffer is sent short and is
    not padded, and no cell is lost or sent twice. *)
Theorem X2_serpentine_rearranges_first_cells (w h : nat)
    (cells : list cell) :
  Permutation (spread (Controls.serpentine w h cells))
    (take (h * w) (spread cells))
  /\ length (Controls.serpentine w h cells) = Nat.min (h * w) (length cells).
Proof.
  assert (Hperm : Permutation (spread (Controls.serpentine w h cells))
                    (take (h * w) (spread cells))).
  { rewrite serpentine_physical_order. apply physical_order_Permutation. }
  split; [exact Hperm|].
  apply Permutation_length in Hperm.
  rewrite length_spread, length_take, length_spread in Hperm. exact Hperm.
Qed.

(** ** The device is never contacted once it is ignored *)

Section Ignored.

Import WledDraw.

Lemma debouncedSendToWled_ignored (s : State) :
  ignoreApi s = true -> debouncedSendToWled s = s.
Proof. intros H. unfold debouncedSendToWled. rewrite H. reflexivity. Qed.

Lemma sendToWledImmediate_ignored (s : State) :
  ignoreApi s = true -> sendToWledImmediate s = s.
Proof. intros H. unfold sendToWledImmediate. rewrite H. reflexivity. Qed.

Lemma setupGrid_sender (s : State) :
  ignoreApi (setupGrid s) = ignoreApi s /\ posted (setupGrid s) = posted s.
Proof.
  unfold setupGrid, loadHistoryFromStorage. cbv zeta. simpl.
  destruct (ls_drawHistory (localStorage s)); simpl;
    destruct (ls_debounceDelay (localStorage s)); simpl; tauto.
Qed.

Lemma quiet_step_ignored (s : State) (e : event) :
  quiet e -> ignoreApi s = true ->
  ignoreApi (step s e) = true /\ posted (step s e) = posted s.
Proof.
  intros Hq Hi. destruct (quiet_step s e Hq) as (t & Ht & Hstep).
  destruct Ht as (Hti & _ & _ & _ & _ & _ & Htp & _).
  assert (Hstep' : step s e = t).
  { destruct Hstep as [->| ->]; [reflexivity|].
    apply debouncedSendToWled_ignored. congruence. }
  rewrite Hstep'. split; congruence.
Qed.

Lemma step_ignored (s : State) (e : event) :
  ignoreApi s = true ->
  ignoreApi (step s e) = true /\ posted (step s e) = posted s.
Proof.
  intros Hi.
  destruct e; try (apply quiet_step_ignored; [exact I | assumption]);
    simpl.
  - rewrite sendToWledImmediate_ignored by assumption. auto.
  - unfold flushChanges.
    destruct (debounceTimer s); simpl;
      destruct (pixelDataChanged s); simpl;
      rewrite ?sendToWledImmediate_ignored by assumption; simpl; auto.
  - destruct (setupGrid_sender s) as [-> ->]. auto.
  - unfold ignoreApiAndContinue.
    destruct (setupGrid_sender (set_ignoreApi true s)) as [-> ->]. auto.
  - unfold resize. destruct (_ && _); [auto|].
    match goal with |- context [setupGrid ?t] =>
      destruct (setupGrid_sender t) as [-> ->] end. auto.
  - unfold expire, timeout_callback. destruct (existsb _ _); [|auto].
    simpl. destruct (pixelDataChanged s); simpl; auto.
  - unfold animate, frame_callback. destruct (frames s); [auto|].
    rewrite sendToWledImmediate_ignored by assumption. simpl. auto.
  - unfold respond. destruct (inflight s); simpl; auto.
  - unfold respond. destruct (inflight s); simpl; auto.
Qed.

End Ignored.

(** X3. Once the device is ignored it is never contacted again: whatever
    events follow (edits, sends, flushes, timeouts and frames armed before,
    changes of dimensions), the flag stays set and nothing is posted. *)
Theorem X3_ignored_device_is_never_posted_to (s : WledDraw.State)
    (events : list WledDraw.event)
    (Hignored : WledDraw.ignoreApi s = true) :
  WledDraw.ignoreApi (WledDraw.run events s) = true
  /\ WledDraw.posted (WledDraw.run events s) = WledDraw.posted s.
Proof.
  unfold WledDraw.run. revert s Hignored.
  induction events as [|e events IH]; intros s Hi; simpl; [auto|].
  destruct (step_ignored s e Hi) as [Hi' Hp'].
  destruct (IH _ Hi') as [-> ->]. auto.
Qed.

Lemma X3_ignored_device_is_never_posted_to_witness :
  let s :=
    WledDraw.run
      [WledDraw.Call_setupGrid; WledDraw.Call_updatePixel 0 "#ff2500";
       WledDraw.Call_debouncedSendToWled; WledDraw.Timeout_expires 1;
       WledDraw.Call_ignoreApiAndContinue]
      WledDraw.initial in
  WledDraw.ignoreApi s = true
  /\ WledDraw.frames s = 1
  /\ WledDraw.posted
       (WledDraw.run
          [WledDraw.Animation_frame; WledDraw.Call_clearScreen;
           WledDraw.Call_flushChanges; WledDraw.Call_sendToWledImmediate] s)
     = [].
Proof.
  intros s. split; [reflexivity|]. split; [reflexivity|].
  exact (proj2 (X3_ignored_device_is_never_posted_to s _ eq_refl)).
Defined.

(** ** The stored copy of the log *)

Section LogMirror.

Import WledDraw Session.

Lemma log_mirrored_recorded (s : State) :
  ls_drawHistory (localStorage s) = Some (history s) -> log_mirrored s.
Proof. unfold log_mirrored. intros ->. reflexivity. Qed.

Lemma log_mirrored_frame (s s' : State) :
  history s' = history s ->
  ls_drawHistory (localStorage s') = ls_drawHistory (localStorage s) ->
  log_mirrored s -> log_mirrored s'.
Proof. unfold log_mirrored. intros -> ->. tauto. Qed.

Lemma log_mirrored_keeps (f : State -> State) (s : State) :
  keeps_grid f -> log_mirrored s -> log_mirrored (f s).
Proof.
  intros Hf. destruct (Hf s) as (_ & _ & _ & Hl & Hs).
  apply log_mirrored_frame; [exact Hl | rewrite Hs; reflexivity].
Qed.

(** [setupGrid] leaves a mirrored log as it is. *)
Lemma setupGrid_keeps_log (s : State) :
  log_mirrored s ->
  history (setupGrid s) = history s /\ log_mirrored (setupGrid s).
Proof.
  intros Hm. destruct (setupGrid_frame s) as (Hst & Hlog & _).
  assert (Hh : history (setupGrid s) = history s).
  { rewrite Hlog. unfold log_mirrored in Hm.
    destruct (ls_drawHistory (localStorage s)); simpl; congruence. }
  split; [exact Hh|].
  revert Hm. apply log_mirrored_frame; [exact Hh | rewrite Hst; reflexivity].
Qed.

Lemma log_mirrored_batch (c : string) (indices : list Z) (s : State) :
  log_mirrored s -> log_mirrored (fold_left (batch_step c) indices s).
Proof.
  revert s. induction indices as [|i indices IH]; intros s Hm; simpl;
    [assumption|].
  apply IH. destruct (batch_step_frame c s i) as [->|(_ & _ & _ & _ & _ & Hs)];
    [assumption | apply log_mirrored_recorded, Hs].
Qed.

Lemma log_mirrored_step (s : State) (e : event) :
  log_mirrored s -> log_mirrored (step s e).
Proof.
  intros Hm. destruct e; simpl.
  - destruct (updatePixel_frame index newColor s)
      as [->|(_ & _ & _ & _ & Hs)];
      [assumption | apply log_mirrored_recorded, Hs].
  - unfold batchUpdatePixels.
    apply (log_mirrored_keeps _ _ keeps_grid_debouncedSendToWled).
    apply (log_mirrored_frame (fold_left (batch_step newColor) indices s));
      [reflexivity | reflexivity |].
    apply log_mirrored_batch, Hm.
  - destruct (applyPixelArray_frame newPixels s)
      as [->|(_ & _ & _ & _ & _ & Hs)];
      [assumption | apply log_mirrored_recorded, Hs].
  - destruct (clearScreen_frame s) as (_ & _ & _ & _ & Hs).
    apply log_mirrored_recorded, Hs.
  - destruct (last (history s)) as [a|] eqn:Hlast.
    + apply last_Some in Hlast. destruct Hlast as [h Hh].
      destruct (undo_snoc s h a Hh) as (_ & Hl & _ & _ & Hs).
      apply log_mirrored_recorded. congruence.
    + apply last_None in Hlast. rewrite undo_empty; assumption.
  - apply (log_mirrored_keeps _ _ keeps_grid_debouncedSendToWled Hm).
  - apply (log_mirrored_keeps _ _ keeps_grid_sendToWledImmediate Hm).
  - apply (log_mirrored_keeps _ _ keeps_grid_flushChanges Hm).
  - apply setupGrid_keeps_log, Hm.
  - unfold ignoreApiAndContinue.
    apply (setupGrid_keeps_log (set_ignoreApi true s)). exact Hm.
  - unfold resize. destruct (_ && _); [assumption|].
    match goal with |- log_mirrored (setupGrid ?t) =>
      apply (setupGrid_keeps_log t) end. exact Hm.
  - apply (log_mirrored_keeps _ _ (keeps_grid_expire handle) Hm).
  - apply (log_mirrored_keeps _ _ keeps_grid_animate Hm).
  - apply (log_mirrored_keeps _ _ (keeps_grid_respond true) Hm).
  - apply (log_mirrored_keeps _ _ (keeps_grid_respond false) Hm).
Qed.

Lemma log_mirrored_run (events : list event) (s : State) :
  log_mirrored s -> log_mirrored (run events s).
Proof.
  unfold run. revert s. induction events as [|e events IH]; intros s Hm;
    simpl; [assumption|]. apply IH, log_mirrored_step, Hm.
Qed.

End LogMirror.

(** X4. A change of the dimensions never clears or alters the undo log: in
    every state that a sequence of events reaches from the initial one, the
    log after [setupGrid], and after any change of the dimensions, is the
    log before it. The actions recorded for the old grid stay undoable on
    the new one. *)
Theorem X4_resize_keeps_the_log (events : list WledDraw.event)
    (width height : nat) :
  let s := WledDraw.run events WledDraw.initial in
  WledDraw.history (WledDraw.setupGrid s) = WledDraw.history s
  /\ WledDraw.history (WledDraw.resize width height s) = WledDraw.history s.
Proof.
  intros s.
  assert (Hm : Session.log_mirrored s)
    by (apply log_mirrored_run; reflexivity).
  split; [apply setupGrid_keeps_log, Hm|].
  unfold WledDraw.resize. destruct (_ && _); [reflexivity|].
  match goal with |- WledDraw.history (WledDraw.setupGrid ?t) = _ =>
    apply (setupGrid_keeps_log t) end.
  exact Hm.
Qed.

(** ** Batch updates *)

Section Batch.

Import WledDraw Session.

(** One index of the batch: the cell it names reads [c] afterwards, every
    other cell is the cell it was. *)
Lemma batch_step_cells (c : string) (s : State) (k : Z) :
  length (pixelData (batch_step c s k)) = length (pixelData s)
  /\ gridWidth (batch_step c s k) = gridWidth s
  /\ gridHeight (batch_step c s k) = gridHeight s
  /\ (names_cell (length (pixelData s)) k = true ->
      get (pixelData (batch_step c s k)) (Z.to_nat k) = Str c)
  /\ (forall j, names_cell (length (pixelData s)) k = false \/ j <> Z.to_nat k ->
        pixelData (batch_step c s k) !! j = pixelData s !! j).
Proof.
  unfold batch_step, names_cell.
  destruct ((0 <=? k)%Z && (Z.to_nat k <? length (pixelData s))) eqn:Hin;
    simpl.
  - apply andb_true_iff in Hin. destruct Hin as [_ Hlt].
    apply Nat.ltb_lt in Hlt.
    destruct (is_str (get (pixelData s) (Z.to_nat k)) c) eqn:Hsame; simpl.
    + apply is_str_true in Hsame. repeat split; auto.
    + repeat split.
      * apply length_set_in_range, Hlt.
      * intros _. apply get_set_eq. discriminate.
      * intros j [Hf|Hne]; [discriminate|].
        destruct (Nat.lt_ge_cases j (length (pixelData s))) as [Hj|Hj].
        -- apply lookup_set_ne; assumption.
        -- rewrite !lookup_ge_None_2; [reflexivity | lia |].
           rewrite length_set_in_range; assumption.
  - repeat split; auto. discriminate.
Qed.

Lemma batch_fold_cells (c : string) (indices : list Z) (s : State) :
  let s' := fold_left (batch_step c) indices s in
  length (pixelData s') = length (pixelData s)
  /\ gridWidth s' = gridWidth s
  /\ gridHeight s' = gridHeight s
  /\ (forall i, get (pixelData s) i = Str c \/
                (i < length (pixelData s) /\ In (Z.of_nat i) indices) ->
        get (pixelData s') i = Str c)
  /\ (forall i, ~ In (Z.of_nat i) indices ->
        pixelData s' !! i = pixelData s !! i).
Proof.
  revert s. induction indices as [|k indices IH]; intros s; simpl.
  - repeat split; auto. intros i [H|[_ []]]. exact H.
  - destruct (batch_step_cells c s k) as (Hlen & Hw & Hh & Hset & Hkeep).
    destruct (IH (batch_step c s k)) as (Hlen' & Hw' & Hh' & Hset' & Hkeep').
    cbv zeta in *. rewrite Hlen', Hw', Hh', Hlen, Hw, Hh.
    repeat split.
    + intros i Hi. apply Hset'. rewrite Hlen.
      destruct Hi as [Hc | [Hlt [-> | Hin]]].
      * left. destruct (decide (names_cell (length (pixelData s)) k = true
                                /\ i = Z.to_nat k)) as [[Hn ->]|Hno].
        -- apply Hset, Hn.
        -- unfold get. rewrite Hkeep; [exact Hc|].
           destruct (names_cell (length (pixelData s)) k); [|auto].
           right. intros ->. apply Hno. auto.
      * left. rewrite Nat2Z.id in Hset. apply Hset.
        unfold names_cell. rewrite Nat2Z.id.
        apply andb_true_iff.
        split; [apply Z.leb_le; lia | apply Nat.ltb_lt, Hlt].
      * right. auto.
    + intros i Hni. rewrite Hkeep' by tauto. apply Hkeep.
      destruct (names_cell (length (pixelData s)) k) eqn:Hn; [|auto].
      right. intros ->. apply Hni. left.
      unfold names_cell in Hn. apply andb_true_iff in Hn.
      destruct Hn as [Hk _]. apply Z.leb_le in Hk. lia.
Qed.

End Batch.

(** X5. A batch update never changes the length of the buffer nor the
    dimensions: an index that is negative or beyond the buffer is skipped.
    Every cell of the buffer that the batch names reads the new color
    afterwards, and every cell it does not name is the cell it was. *)
Theorem X5_batch_update_stays_in_bounds (s : WledDraw.State)
    (indices : list Z) (c : string) :
  let s' := WledDraw.batchUpdatePixels indices c s in
  length (WledDraw.pixelData s') = length (WledDraw.pixelData s)
  /\ WledDraw.gridWidth s' = WledDraw.gridWidth s
  /\ WledDraw.gridHeight s' = WledDraw.gridHeight s
  /\ (forall i, i < length (WledDraw.pixelData s) ->
        In (Z.of_nat i) indices -> get (WledDraw.pixelData s') i = Str c)
  /\ (forall i, ~ In (Z.of_nat i) indices ->
        WledDraw.pixelData s' !! i = WledDraw.pixelData s !! i).
Proof.
  intros s'. subst s'. unfold WledDraw.batchUpdatePixels.
  match goal with |- context [WledDraw.debouncedSendToWled ?t] =>
    destruct (keeps_grid_debouncedSendToWled t) as (-> & -> & -> & _)
  end.
  simpl.
  destruct (batch_fold_cells c indices s) as (Hlen & Hw & Hh & Hset & Hkeep).
  cbv zeta in *. repeat split; auto.
Qed.

(** ** Applying a full array *)

(** X6. [applyPixelArray] replaces the buffer by a copy of an array of the
    buffer's length, and an [undo] right after restores the buffer as it
    was; an empty array, or one of another length, is rejected and the
    state stays as it is. *)
Theorem X6_applied_array_is_undone (s : WledDraw.State)
    (newPixels : list cell) :
  (length newPixels = length (WledDraw.pixelData s) -> newPixels <> [] ->
     WledDraw.pixelData (WledDraw.applyPixelArray newPixels s)
     = spread newPixels
     /\ WledDraw.pixelData
          (WledDraw.undo (WledDraw.applyPixelArray newPixels s))
        = spread (WledDraw.pixelData s))
  /\ (length newPixels <> length (WledDraw.pixelData s) \/ newPixels = [] ->
        WledDraw.applyPixelArray newPixels s = s).
Proof.
  split.
  - intros Hlen Hne.
    assert (Hrun : (length newPixels =? 0)
                   || negb (length newPixels =? length (WledDraw.pixelData s))
                   = false).
    { rewrite Hlen, Nat.eqb_refl. simpl. rewrite orb_false_r.
      apply Nat.eqb_neq. rewrite <- Hlen. destruct newPixels; [congruence|].
      discriminate. }
    assert (Hpix : WledDraw.pixelData (WledDraw.applyPixelArray newPixels s)
                   = spread newPixels
                   /\ WledDraw.history (WledDraw.applyPixelArray newPixels s)
                      = WledDraw.pushed (WledDraw.history s)
                          (WledDraw.ClearAction
                             (spread (WledDraw.pixelData s)))).
    { unfold WledDraw.applyPixelArray. rewrite Hrun.
      match goal with |- context [WledDraw.debouncedSendToWled ?t] =>
        destruct (keeps_grid_debouncedSendToWled t) as (-> & _ & _ & -> & _)
      end.
      split; reflexivity. }
    destruct Hpix as [Hpix Hlog]. split; [exact Hpix|].
    destruct (undo_pops_pushed _ _ _ Hlog) as (-> & _). simpl.
    apply spread_idemp.
  - intros Hbad. unfold WledDraw.applyPixelArray.
    destruct Hbad as [Hne | ->]; [|reflexivity].
    apply Nat.eqb_neq in Hne. rewrite Hne, orb_true_r. reflexivity.
Qed.

Lemma X6_applied_array_is_undone_witness :
  let s := WledDraw.resize 2 2 (WledDraw.setupGrid WledDraw.initial) in
  length Controls.grid2x2 = length (WledDraw.pixelData s)
  /\ WledDraw.pixelData
       (WledDraw.undo (WledDraw.applyPixelArray Controls.grid2x2 s))
     = replicate 4 (Str "#000000")
  /\ WledDraw.applyPixelArray [Str "#ff0000"] s = s.
Proof.
  intros s. split; [reflexivity|]. split.
  - exact (proj2 (proj1 (X6_applied_array_is_undone s Controls.grid2x2)
                    eq_refl ltac:(discriminate))).
  - apply (proj2 (X6_applied_array_is_undone s [Str "#ff0000"])).
    left. vm_compute. lia.
Defined.

(** ** Flushing *)

(** X7. While the debounce timeout is armed and a change is pending,
    [flushChanges] posts the current grid once, at once, and cancels the
    timeout: no timeout is left and the expiry of the cancelled one does
    nothing. Once the response to the request has arrived, a second flush
    does nothing either. *)
Theorem X7_flush_sends_once_and_cancels (s : WledDraw.State)
    (handle delay : nat)
    (Hdevice : WledDraw.ignoreApi s = false)
    (Htimer : WledDraw.debounceTimer s = Some handle)
    (Harmed : WledDraw.timeouts s = [(handle, delay)])
    (Hchanged : WledDraw.pixelDataChanged s = true) :
  let s' := WledDraw.flushChanges s in
  WledDraw.posted s' = WledDraw.posted s ++ [WledDraw.wledJson s]
  /\ WledDraw.timeouts s' = []
  /\ WledDraw.debounceTimer s' = None
  /\ WledDraw.pixelData s' = WledDraw.pixelData s
  /\ WledDraw.step s' (WledDraw.Timeout_expires handle) = s'
  /\ WledDraw.flushChanges (WledDraw.respond true s')
     = WledDraw.respond true s'.
Proof.
  intros s'. subst s'.
  unfold WledDraw.flushChanges, WledDraw.clearTimeout,
    WledDraw.sendToWledImmediate.
  rewrite Htimer. simpl. rewrite Hchanged, Hdevice, Harmed. simpl.
  rewrite filter_cons_False by (simpl; tauto). simpl.
  repeat split.
Qed.

Lemma X7_flush_sends_once_and_cancels_witness :
  let s :=
    WledDraw.run
      [WledDraw.Call_setupGrid; WledDraw.Call_updatePixel 0 "#ff2500";
       WledDraw.Call_debouncedSendToWled]
      WledDraw.initial in
  WledDraw.timeouts s = [(1, 100)]
  /\ WledDraw.posted (WledDraw.flushChanges s) = [WledDraw.wledJson s]
  /\ WledDraw.timeouts (WledDraw.flushChanges s) = [].
Proof.
  intros s.
  destruct (X7_flush_sends_once_and_cancels s 1 100
              eq_refl eq_refl eq_refl eq_refl) as (Hp & Ht & _).
  split; [reflexivity|]. split; [exact Hp | exact Ht].
Defined.

(** X8. A flush that comes after the timeout has expired but before its
    frame callback ran does not cancel that callback: the flush posts the
    grid, and the animation frame posts it a second time. *)
Theorem X8_flush_after_expiry_posts_twice (s : WledDraw.State)
    (handle : nat)
    (Hdevice : WledDraw.ignoreApi s = false)
    (Htimer : WledDraw.debounceTimer s = Some handle)
    (Hexpired : WledDraw.timeouts s = [])
    (Hframe : WledDraw.frames s = 1)
    (Hchanged : WledDraw.pixelDataChanged s = true) :
  WledDraw.posted
    (WledDraw.run [WledDraw.Call_flushChanges; WledDraw.Animation_frame] s)
  = WledDraw.posted s ++ [WledDraw.wledJson s; WledDraw.wledJson s].
Proof.
  unfold WledDraw.run. simpl.
  unfold WledDraw.animate, WledDraw.frame_callback, WledDraw.flushChanges,
    WledDraw.clearTimeout, WledDraw.sendToWledImmediate.
  rewrite Htimer. simpl. rewrite Hchanged, Hdevice, Hexpired. simpl.
  rewrite Hframe. simpl. rewrite Hdevice. simpl.
  rewrite <- app_assoc. reflexivity.
Qed.

Lemma X8_flush_after_expiry_posts_twice_witness :
  let s :=
    WledDraw.run
      [WledDraw.Call_setupGrid; WledDraw.Call_updatePixel 0 "#ff2500";
       WledDraw.Call_debouncedSendToWled; WledDraw.Timeout_expires 1]
      WledDraw.initial in
  WledDraw.frames s = 1
  /\ length
       (WledDraw.posted
          (WledDraw.run
             [WledDraw.Call_flushChanges; WledDraw.Animation_frame] s))
     = 2.
Proof.
  intros s. split; [reflexivity|].
  rewrite (X8_flush_after_expiry_posts_twice s 1
             eq_refl eq_refl eq_refl eq_refl eq_refl).
  reflexivity.
Defined.


(** ** The buffer read back from the store *)

Section Reload.

Import WledDraw Session.

Lemma append_cons (c : ascii) (t u : string) :
  String c t +:+ u = String c (t +:+ u).
Proof. reflexivity. Qed.

Lemma append_nil_r (t : string) : t +:+ "" = t.
Proof.
  induction t as [|c t IH]; [reflexivity|].
  rewrite append_cons, IH. reflexivity.
Qed.

Lemma append_assoc (t u v : string) : (t +:+ u) +:+ v = t +:+ (u +:+ v).
Proof.
  induction t as [|c t IH]; [reflexivity|].
  rewrite !append_cons, IH. reflexivity.
Qed.

(** A stretch without a comma goes to the current piece. *)
Lemma split_go_free (cur t rest : string) :
  comma_free t ->
  split_go "," cur (t +:+ rest) = split_go "," (cur +:+ t) rest.
Proof.
  revert cur. induction t as [|c t IH]; intros cur Hfree.
  - rewrite append_nil_r. reflexivity.
  - destruct Hfree as [Hc Hfree]. apply Ascii.eqb_neq in Hc.
    rewrite append_cons. simpl. rewrite Hc.
    rewrite IH by assumption. rewrite append_assoc. reflexivity.
Qed.

Lemma split_go_comma (cur r : string) :
  split_go "," cur (String "," r) = cur :: split_go "," "" r.
Proof. reflexivity. Qed.

Lemma split_go_join (cur x : string) (l : list string) :
  Forall comma_free (x :: l) ->
  split_go "," cur (join "," (x :: l)) = (cur +:+ x) :: l.
Proof.
  revert cur x. induction l as [|y l IH]; intros cur x Hfree.
  - apply Forall_cons in Hfree. destruct Hfree as [Hx _].
    change (join "," [x]) with x. rewrite <- (append_nil_r x) at 1.
    rewrite split_go_free by assumption. reflexivity.
  - apply Forall_cons in Hfree. destruct Hfree as [Hx Hfree].
    change (join "," (x :: y :: l)) with (x +:+ ("," +:+ join "," (y :: l))).
    rewrite split_go_free by assumption.
    change ("," +:+ join "," (y :: l)) with (String "," (join "," (y :: l))).
    rewrite split_go_comma, IH by assumption. reflexivity.
Qed.

(** Splitting the joined text gives back the pieces. *)
Lemma split_join (l : list string) :
  l <> [] -> Forall comma_free l -> split "," (join "," l) = l.
Proof.
  intros Hne Hfree. destruct l as [|x l]; [congruence|].
  unfold split. rewrite split_go_join by assumption. reflexivity.
Qed.

(** A joined text is empty only for no piece or one empty piece. *)
Lemma join_empty (l : list string) :
  join "," l = "" -> l = [] \/ l = [""].
Proof.
  destruct l as [|x [|y l]]; simpl; auto.
  - intros ->. auto.
  - destruct x; discriminate.
Qed.

Lemma reloaded_cell (a : list cell) (i : nat) :
  cells_comma_free a ->
  match
    match toString a with
    | EmptyString => []
    | text => split "," text
    end !! i
  with
  | Some (String c r) => Str (String c r)
  | _ => Str "#000000"
  end
  = Str (or_default (get a i) "#000000").
Proof.
  intros Hfree. unfold toString.
  assert (Hfree' : Forall comma_free (map printed a)).
  { unfold cells_comma_free in Hfree. apply Forall_map.
    eapply Forall_impl; [exact Hfree|]. intros [| |t]; simpl; auto. }
  assert (Hlook : map printed a !! i = printed <$> a !! i)
    by (change (map printed a) with (printed <$> a); apply list_lookup_fmap).
  assert (Hcell : match map printed a !! i with
                  | Some (String c r) => Str (String c r)
                  | _ => Str "#000000"
                  end = Str (or_default (get a i) "#000000")).
  { rewrite Hlook. unfold get.
    destruct (a !! i) as [[| |[|c r]]|]; reflexivity. }
  change (map (fun v => match v with Str s => s | _ => "" end) a)
    with (map printed a).
  destruct (join "," (map printed a)) as [|c r] eqn:Hjoin.
  - rewrite lookup_nil. rewrite <- Hcell.
    destruct (join_empty _ Hjoin) as [-> | ->]; [reflexivity|].
    destruct i as [|[|i]]; reflexivity.
  - rewrite <- Hjoin, split_join; [exact Hcell | | exact Hfree'].
    intros E. rewrite E in Hjoin. discriminate.
Qed.

Lemma pixelData_setupGrid (s : State) :
  pixelData (setupGrid s)
  = map (fun i =>
           match
             match ls_pixelData (localStorage s) with
             | EmptyString => []
             | text => split "," text
             end !! i
           with
           | Some (String c r) => Str (String c r)
           | _ => Str "#000000"
           end)
        (seq 0 (gridWidth s * gridHeight s)).
Proof.
  unfold setupGrid, loadHistoryFromStorage. cbv zeta. simpl.
  destruct (ls_drawHistory (localStorage s)); simpl;
    destruct (ls_debounceDelay (localStorage s)); reflexivity.
Qed.

End Reload.

(** X9. A change of the dimensions keeps the cells by their index in the
    buffer, not by their place in the grid: when the store holds the text of
    the buffer (as after every edit) and no color holds a comma, the new
    buffer has [width * height] cells, and its cell [i] is the color that the
    old buffer held at index [i], or black where the old buffer held no
    color or ended before [i]. *)
Theorem X9_resize_keeps_cells_by_index (s : WledDraw.State)
    (width height : nat)
    (Hstored : Session.pixels_stored s)
    (Hfree : Session.cells_comma_free (WledDraw.pixelData s))
    (Hchange : (width =? WledDraw.gridWidth s)
               && (height =? WledDraw.gridHeight s) = false) :
  let s' := WledDraw.resize width height s in
  length (WledDraw.pixelData s') = width * height
  /\ forall i, i < width * height ->
       WledDraw.pixelData s' !! i
       = Some (Str (or_default (get (WledDraw.pixelData s) i) "#000000")).
Proof.
  intros s'. subst s'. unfold WledDraw.resize. rewrite Hchange.
  rewrite pixelData_setupGrid. simpl.
  split; [rewrite length_map, length_seq; reflexivity|].
  intros i Hi.
  match goal with |- map ?f ?l !! i = _ => change (map f l) with (f <$> l) end.
  rewrite list_lookup_fmap, lookup_seq_lt by assumption. simpl.
  unfold Session.pixels_stored in Hstored. rewrite Hstored.
  f_equal. apply reloaded_cell, Hfree.
Qed.

Lemma X9_resize_keeps_cells_by_index_witness :
  let s :=
    WledDraw.run
      [WledDraw.Set_dimensions 2 2; WledDraw.Call_updatePixel 3 "#ff2500"]
      WledDraw.initial in
  Session.pixels_stored s
  /\ length (WledDraw.pixelData (WledDraw.resize 3 2 s)) = 6
  /\ WledDraw.pixelData (WledDraw.resize 3 2 s) !! 3 = Some (Str "#ff2500")
  /\ WledDraw.pixelData (WledDraw.resize 3 2 s) !! 5 = Some (Str "#000000").
Proof.
  intros s.
  assert (Hstored : Session.pixels_stored s) by (vm_compute; reflexivity).
  assert (Hfree : Session.cells_comma_free (WledDraw.pixelData s)).
  { vm_compute. repeat (constructor; [repeat split; discriminate|]).
    constructor. }
  split; [exact Hstored|].
  destruct (X9_resize_keeps_cells_by_index s 3 2 Hstored Hfree eq_refl)
    as [Hlen Hcell].
  split; [exact Hlen|].
  split; [exact (Hcell 3 ltac:(lia))|exact (Hcell 5 ltac:(lia))].
Defined.

(** ** The ramp between the stops *)

Section SortedStops.

Import Gradient Stops.
Local Open Scope R_scope.

Lemma insert_stop_Permutation (s : ColorStop) (l : list ColorStop) :
  Permutation (insert_stop s l) (s :: l).
Proof.
  induction l as [|t r IH]; simpl; [reflexivity|].
  destruct (Rle_dec _ _); [reflexivity|].
  rewrite IH. apply perm_swap.
Qed.

Lemma sort_stops_Permutation (l : list ColorStop) :
  Permutation (sort_stops l) l.
Proof.
  induction l as [|s l IH]; simpl; [reflexivity|].
  rewrite insert_stop_Permutation, IH. reflexivity.
Qed.

Lemma sort_stops_In (l : list ColorStop) (s : ColorStop) :
  In s (sort_stops l) <-> In s l.
Proof.
  split; apply Permutation_in;
    [|symmetry]; apply sort_stops_Permutation.
Qed.

Lemma insert_stop_ascending (s : ColorStop) (l : list ColorStop) :
  ascending l -> ascending (insert_stop s l).
Proof.
  induction l as [|t r IH]; simpl; [auto|].
  intros [Ht Hr]. destruct (Rle_dec (position s) (position t)) as [Hle|Hgt].
  - simpl. repeat split; [|assumption..].
    constructor; [exact Hle|].
    eapply Forall_impl; [exact Ht|]. simpl. intros b Hb. lra.
  - simpl. split; [|apply IH, Hr].
    rewrite insert_stop_Permutation. constructor; [lra | exact Ht].
Qed.

Lemma sort_stops_ascending (l : list ColorStop) : ascending (sort_stops l).
Proof.
  induction l as [|s l IH]; simpl; [exact I|].
  apply insert_stop_ascending, IH.
Qed.

(** The first stop of an ascending list is a least one, the last a
    greatest one. *)
Lemma ascending_head (l : list ColorStop) (a s : ColorStop) :
  ascending l -> head l = Some a -> In s l -> position a <= position s.
Proof.
  destruct l as [|a' r]; [discriminate|]. simpl.
  intros [Ha _] [= ->] [->|Hin]; [lra|].
  rewrite Forall_forall in Ha. apply Ha, list_elem_of_In, Hin.
Qed.

Lemma ascending_last (l : list ColorStop) (z s : ColorStop) :
  ascending l -> last l = Some z -> In s l -> position s <= position z.
Proof.
  induction l as [|a r IH]; [discriminate|].
  intros [Ha Hr] Hl Hin. destruct r as [|b r].
  - simpl in Hl. injection Hl as <-. destruct Hin as [->|[]]. lra.
  - change (last (a :: b :: r)) with (last (b :: r)) in Hl.
    destruct Hin as [->|Hin]; [|exact (IH Hr Hl Hin)].
    rewrite Forall_forall in Ha. apply Ha, list_elem_of_In.
    apply last_Some in Hl. destruct Hl as [l' ->].
    apply in_or_app. right. left. reflexivity.
Qed.


Lemma head_last_nonempty (l : list ColorStop) :
  l <> [] -> exists a z, head l = Some a /\ last l = Some z.
Proof.
  intros Hne. destruct l as [|a r]; [congruence|].
  destruct (last (a :: r)) as [z|] eqn:Hl; [eauto|].
  apply last_None in Hl. discriminate.
Qed.

Lemma sort_stops_nonempty (l : list ColorStop) :
  l <> [] -> sort_stops l <> [].
Proof.
  intros Hne Hs. apply Hne. apply Permutation_nil.
  rewrite <- Hs. apply sort_stops_Permutation.
Qed.

Lemma head_In {A : Type} (l : list A) (a : A) : head l = Some a -> In a l.
Proof. destruct l; [discriminate|]. intros [= ->]. left. reflexivity. Qed.

Lemma last_In {A : Type} (l : list A) (a : A) : last l = Some a -> In a l.
Proof.
  intros H. apply last_Some in H. destruct H as [l' ->].
  apply in_or_app. right. left. reflexivity.
Qed.

End SortedStops.



(** X11. At or below every stop the ramp is the color of a stop of least
    position; at or above every stop, and above one of them, it is the color
    of a stop of greatest position. *)
Theorem X11_ramp_is_flat_outside_the_stops
    (stops : list Gradient.ColorStop) (pos : R)
    (Hstops : stops <> []) :
  ((forall s, In s stops -> (pos <= Gradient.position s)%R) ->
   exists a,
     In a stops
     /\ (forall s, In s stops ->
           (Gradient.position a <= Gradient.position s)%R)
     /\ Gradient.getColorAtPosition stops pos = Some (Gradient.color a))
  /\ ((forall s, In s stops -> (Gradient.position s <= pos)%R) ->
      (exists s, In s stops /\ (Gradient.position s < pos)%R) ->
      exists b,
        In b stops
        /\ (forall s, In s stops ->
              (Gradient.position s <= Gradient.position b)%R)
        /\ Gradient.getColorAtPosition stops pos = Some (Gradient.color b)).
Proof.
  destruct (head_last_nonempty _ (sort_stops_nonempty _ Hstops))
    as (first & final & Hh & Hl).
  pose proof (sort_stops_ascending stops) as Hasc.
  split.
  - intros Hbelow. exists first.
    split; [apply sort_stops_In, head_In, Hh|].
    split.
    + intros s Hs. apply (ascending_head _ _ _ Hasc Hh), sort_stops_In, Hs.
    + apply getColorAtPosition_first; [exact Hh|].
      apply Hbelow, sort_stops_In, head_In, Hh.
  - intros Habove (s0 & Hs0 & Hlt). exists final.
    split; [apply sort_stops_In, last_In, Hl|].
    split.
    + intros s Hs. apply (ascending_last _ _ _ Hasc Hl), sort_stops_In, Hs.
    + apply (getColorAtPosition_last stops pos first final Hh Hl).
      * assert (Gradient.position first <= Gradient.position s0)%R
          by (apply (ascending_head _ _ _ Hasc Hh), sort_stops_In, Hs0).
        lra.
      * apply Habove, sort_stops_In, last_In, Hl.
Qed.

Lemma X11_ramp_is_flat_outside_the_stops_witness :
  Stops.default_stops <> []
  /\ Gradient.getColorAtPosition Stops.default_stops 5 = Some "#FF3300"
  /\ Gradient.getColorAtPosition Stops.default_stops 60 = Some "#FFB005".
Proof.
  assert (Hne : Stops.default_stops <> []) by discriminate.
  split; [exact Hne|].
  destruct (X11_ramp_is_flat_outside_the_stops Stops.default_stops 5 Hne)
    as [Hlow _].
  destruct (X11_ramp_is_flat_outside_the_stops Stops.default_stops 60 Hne)
    as [_ Hhigh].
  split.
  - destruct Hlow as (a & Ha & Hmin & ->).
    { intros s [<-|[<-|[]]]; simpl; lra. }
    destruct Ha as [<-|[<-|[]]]; [reflexivity|].
    exfalso.
    specialize (Hmin {| Gradient.color := "#FF3300";
                        Gradient.position := 9 |} ltac:(left; reflexivity)).
    simpl in Hmin. lra.
  - destruct Hhigh as (b & Hb & Hmax & ->).
    { intros s [<-|[<-|[]]]; simpl; lra. }
    { eexists. split; [left; reflexivity|]. simpl. lra. }
    destruct Hb as [<-|[<-|[]]]; [|reflexivity].
    exfalso.
    specialize (Hmax {| Gradient.color := "#FFB005";
                        Gradient.position := 24 |}
                  ltac:(right; left; reflexivity)).
    simpl in Hmax. lra.
Defined.

(** ** The interpolated color *)

Section HexColor.

Import Gradient Stops.
Local Open Scope R_scope.

Lemma prints_as_pair_byte (n : Z) : byte_range n -> prints_as_pair n = true.
Proof.
  intros Hn. unfold byte_range in Hn.
  assert (H : forallb (fun m => prints_as_pair (Z.of_nat m)) (seq 0 256)
              = true) by (vm_compute; reflexivity).
  rewrite forallb_forall in H. specialize (H (Z.to_nat n)).
  rewrite Z2Nat.id in H by lia. apply H, in_seq. lia.
Qed.

(** A value between 0 and 255 is printed as two digits that are read back
    as the value. *)
Lemma two_digits (n : Z) :
  byte_range n ->
  exists c d,
    padStart2 (toString16 n) = String c (String d EmptyString)
    /\ is_hex c = true /\ is_hex d = true
    /\ parseInt16 (String c (String d EmptyString)) = Some n.
Proof.
  intros Hn. pose proof (prints_as_pair_byte n Hn) as H.
  unfold prints_as_pair in H.
  destruct (padStart2 (toString16 n)) as [|c [|d [|]]]; try discriminate.
  exists c, d. split; [reflexivity|].
  unfold parseInt16, is_hex. simpl.
  destruct (HexString.ascii_to_digit c) as [hi|]; [|discriminate].
  destruct (HexString.ascii_to_digit d) as [lo|]; [|discriminate].
  apply Z.eqb_eq in H. repeat split. f_equal. lia.
Qed.

(** The channels of a hex color are read as numbers. *)
Lemma hex_color_channels (c : string) :
  hex_color c = true -> exists r g b, channels c = Some (r, g, b).
Proof.
  destruct c as [|h [|c1 [|c2 [|c3 [|c4 [|c5 [|c6 [|c7 t]]]]]]]];
    try discriminate;
    try (simpl; rewrite andb_false_r; discriminate).
  unfold hex_color, all_hex, is_hex, channels, parseInt16. simpl.
  destruct (HexString.ascii_to_digit c1); [|rewrite !andb_false_r; discriminate].
  destruct (HexString.ascii_to_digit c2);
    [|rewrite ?andb_false_r; discriminate].
  destruct (HexString.ascii_to_digit c3);
    [|rewrite ?andb_false_r; discriminate].
  destruct (HexString.ascii_to_digit c4);
    [|rewrite ?andb_false_r; discriminate].
  destruct (HexString.ascii_to_digit c5);
    [|rewrite ?andb_false_r; discriminate].
  destruct (HexString.ascii_to_digit c6);
    [|rewrite ?andb_false_r; discriminate].
  eauto.
Qed.

Lemma length_substring (n m : nat) (t : string) :
  (String.length (String.substring n m t) <= m)%nat.
Proof.
  revert n m. induction t as [|c t IH]; intros [|n] [|m]; simpl; try lia.
  - specialize (IH 0%nat m). lia.
  - apply IH.
  - apply IH.
Qed.

Lemma ascii_to_digit_range (c : ascii) (d : N) :
  HexString.ascii_to_digit c = Some d -> (d < 16)%N.
Proof.
  destruct c as [[] [] [] [] [] [] [] []]; vm_compute;
    intros H; try discriminate; injection H as <-; reflexivity.
Qed.

(** At most two digits are read as a value between 0 and 255. *)
Lemma parseInt16_byte (t : string) (v : Z) :
  (String.length t <= 2)%nat -> parseInt16 t = Some v -> byte_range v.
Proof.
  unfold parseInt16, byte_range.
  destruct t as [|c [|d [|e t]]]; simpl; try lia; try discriminate.
  - destruct (HexString.ascii_to_digit c) as [hi|] eqn:Hc; [|discriminate].
    apply ascii_to_digit_range in Hc. intros _ [= <-]. lia.
  - destruct (HexString.ascii_to_digit c) as [hi|] eqn:Hc; [|discriminate].
    apply ascii_to_digit_range in Hc.
    destruct (HexString.ascii_to_digit d) as [lo|] eqn:Hd.
    + apply ascii_to_digit_range in Hd. intros _ [= <-]. lia.
    + intros _ [= <-]. lia.
Qed.

Lemma channels_byte (c : string) (r g b : Z) :
  channels c = Some (r, g, b) ->
  byte_range r /\ byte_range g /\ byte_range b.
Proof.
  unfold channels, substring.
  destruct (parseInt16 (String.substring 1 (3 - 1) c)) as [r'|] eqn:Hr;
    [|discriminate].
  destruct (parseInt16 (String.substring 3 (5 - 3) c)) as [g'|] eqn:Hg;
    [|discriminate].
  destruct (parseInt16 (String.substring 5 (7 - 5) c)) as [b'|] eqn:Hb;
    [|discriminate].
  intros [= <- <- <-].
  split; [|split];
    match goal with
    | H : parseInt16 ?t = Some ?v |- byte_range ?v =>
        apply (parseInt16_byte t v); [apply length_substring | exact H]
    end.
Qed.





(** The text that [interpolateColor] builds from three values between 0
    and 255. *)
Lemma channels_of_printed (r g b : Z) :
  byte_range r -> byte_range g -> byte_range b ->
  let out :=
    "#" +:+ padStart2 (toString16 r) +:+ padStart2 (toString16 g)
    +:+ padStart2 (toString16 b) in
  hex_color out = true /\ channels out = Some (r, g, b).
Proof.
  intros Hr Hg Hb.
  destruct (two_digits r Hr) as (r1 & r2 & -> & Hr1 & Hr2 & Hpr).
  destruct (two_digits g Hg) as (g1 & g2 & -> & Hg1 & Hg2 & Hpg).
  destruct (two_digits b Hb) as (b1 & b2 & -> & Hb1 & Hb2 & Hpb).
  cbv zeta. split.
  { change (is_hex r1 && (is_hex r2 && (is_hex g1 && (is_hex g2
              && (is_hex b1 && (is_hex b2 && true))))) = true).
    rewrite Hr1, Hr2, Hg1, Hg2, Hb1, Hb2. reflexivity. }
  unfold channels.
  change (substring 1 3 _) with (String r1 (String r2 EmptyString)).
  change (substring 3 5 _) with (String g1 (String g2 EmptyString)).
  change (substring 5 7 _) with (String b1 (String b2 EmptyString)).
  rewrite Hpr, Hpg, Hpb. reflexivity.
Qed.

End HexColor.



(** ** The size of the cache *)

Section CacheSize.

Import Gradient.
Local Open Scope R_scope.

(** A hit gives the entry and leaves the cache as it is. *)
Lemma getColorFromCache_hit (k : key) (calc : option string) (c : cache)
    (v : string) :
  cache_get k c = Some v -> getColorFromCache k calc c = Some (v, c).
Proof. intros H. unfold getColorFromCache. rewrite H. reflexivity. Qed.

Lemma getColorFromCache_miss (k : key) (v : string) (c : cache) :
  cache_get k c = None ->
  exists c',
    getColorFromCache k (Some v) c = Some (v, c')
    /\ cache_get k c' = Some v
    /\ (length c' <= Nat.max 2501 (S (length c)))%nat
    /\ ((length c <= 5000)%nat -> (length c' <= 5000)%nat).
Proof.
  intros Hmiss. unfold getColorFromCache. rewrite Hmiss.
  cbv zeta.
  pose proof (cache_get_after_eviction k c v Hmiss) as Hget.
  unfold cache in Hget |- *.
  eexists. split; [rewrite Hget; reflexivity|]. split; [exact Hget|].
  destruct (Nat.ltb_spec 5000 (length (c ++ [(k, v)]))) as [Hbig|Hsmall];
    rewrite ?length_drop, length_app in *; simpl in *; lia.
Qed.

(** Whatever the key, a color that is computed is returned or an older
    entry is, and the cache stays within its bound. *)
Lemma getColorFromCache_total (k : key) (v : string) (c : cache) :
  exists v' c',
    getColorFromCache k (Some v) c = Some (v', c')
    /\ ((length c <= 5000)%nat -> (length c' <= 5000)%nat).
Proof.
  destruct (cache_get k c) as [v'|] eqn:Hget.
  - exists v', c. rewrite (getColorFromCache_hit _ _ _ _ Hget). auto.
  - destruct (getColorFromCache_miss k v c Hget) as (c' & H & _ & _ & Hb).
    exists v, c'. auto.
Qed.

End CacheSize.

(** X13. The cache answers a repeated request from its entries and stays
    within its bound: a request whose color is computed returns a color and
    leaves at most 5000 entries when it found at most 5000; where the key
    was not in the cache the color returned is the computed one; and the
    same request made again returns the same color, leaves the cache as it
    is and does not depend on what the computation would give, even where
    that would throw. *)
Theorem X13_cache_is_bounded_and_memoizes (k : Gradient.key) (v : string)
    (c : Gradient.cache) (Hbound : length c <= 5000) :
  exists v' c',
    Gradient.getColorFromCache k (Some v) c = Some (v', c')
    /\ length c' <= 5000
    /\ (Gradient.cache_get k c = None -> v' = v)
    /\ forall calc, Gradient.getColorFromCache k calc c' = Some (v', c').
Proof.
  destruct (Gradient.cache_get k c) as [v0|] eqn:Hget.
  - exists v0, c. rewrite (getColorFromCache_hit _ _ _ _ Hget).
    split; [reflexivity|]. split; [exact Hbound|].
    split; [discriminate|].
    intros calc. apply getColorFromCache_hit, Hget.
  - destruct (getColorFromCache_miss k v c Hget)
      as (c' & H & Hget' & _ & Hb).
    exists v, c'. split; [exact H|]. split; [exact (Hb Hbound)|].
    split; [reflexivity|].
    intros calc. apply getColorFromCache_hit, Hget'.
Qed.

Lemma X13_cache_is_bounded_and_memoizes_witness :
  exists v' c',
    Gradient.getColorFromCache
      (Gradient.cacheKey Gradient.exact_rounding
         (Gradient.linear_at_0 Gradient.red_blue) 2 2 0 0)
      (Some "#ff0000") []
    = Some (v', c')
    /\ length c' <= 5000.
Proof.
  destruct (X13_cache_is_bounded_and_memoizes
              (Gradient.cacheKey Gradient.exact_rounding
                 (Gradient.linear_at_0 Gradient.red_blue) 2 2 0 0)
              "#ff0000" [] ltac:(simpl; lia))
    as (v' & c' & H & Hb & _).
  exists v', c'. split; [exact H | exact Hb].
Defined.

(** ** The field returns *)

Section FieldTotal.

Import Gradient.
Local Open Scope R_scope.

Variables (fl : rounding) (m : MathLibrary).
Variables (g : Settings) (width height : nat).
Hypothesis Hwidth : (2 <= width)%nat.
Hypothesis Hheight : (2 <= height)%nat.
Hypothesis Hscale : scaleFactor fl g <> 0.

(** Rounding keeps a value that is at least one quarter positive. *)
Lemma fl_positive (v : R) : / 4 <= v -> 0 < fl v.
Proof.
  intros Hv. pose proof (fl_mono fl _ _ Hv) as Hm.
  assert (Hq : Rabs (/ 4) <= 1) by (apply Rabs_le; lra).
  pose proof (fl_near fl (/ 4) 1 Hq). lra.
Qed.

Lemma fl_nonnegative (v : R) : 0 <= v -> 0 <= fl v.
Proof.
  intros Hv. pose proof (fl_mono fl _ _ Hv) as Hm. rewrite fl_0 in Hm.
  exact Hm.
Qed.

Lemma span_nonzero (n : nat) : (2 <= n)%nat -> fl (INR n - 1) <> 0.
Proof.
  intros Hn. apply le_INR in Hn. simpl in Hn.
  assert (H1 : 1 <= INR n - 1) by lra.
  pose proof (fl_mono fl _ _ H1) as Hm. rewrite fl_1 in Hm. lra.
Qed.

Lemma scaled_defined (n i : nat) :
  (2 <= n)%nat -> exists s, scaled fl g n i = Some s.
Proof.
  intros Hn. unfold scaled, quotient. cbv zeta.
  destruct (Req_dec_T (fl (INR n - 1)) 0) as [E|_];
    [exfalso; exact (span_nonzero n Hn E)|].
  destruct (Req_dec_T (scaleFactor fl g) 0) as [E|_];
    [contradiction | eauto].
Qed.

(** The greatest distance is positive, so the division by it is
    defined. *)
Lemma Math_sqrt_defined (v : R) :
  0 <= v -> Math_sqrt fl v = Some (fl (sqrt v)).
Proof.
  intros Hv. unfold Math_sqrt.
  destruct (Rlt_dec v 0); [exfalso; lra | reflexivity].
Qed.

Lemma sum_of_squares (a b : R) : 0 <= fl (fl (a * a) + fl (b * b)).
Proof.
  apply fl_nonnegative.
  pose proof (fl_nonnegative (a * a) (Rle_0_sqr a)).
  pose proof (fl_nonnegative (b * b) (Rle_0_sqr b)).
  lra.
Qed.

Lemma greatest_distance_positive (a b : R) :
  / 2 <= b -> 0 < fl (sqrt (fl (fl (a * a) + fl (b * b)))).
Proof.
  intros Hb. apply fl_positive.
  assert (Hbb : / 4 <= b * b) by nra.
  pose proof (fl_mono fl _ _ Hbb) as H1.
  assert (Hq : Rabs (/ 4) <= 1) by (apply Rabs_le; lra).
  pose proof (fl_near fl (/ 4) 1 Hq) as H2.
  pose proof (fl_nonnegative (a * a) (Rle_0_sqr a)) as H3.
  assert (Hsum : / 8 <= fl (a * a) + fl (b * b)) by lra.
  pose proof (fl_mono fl _ _ Hsum) as H4.
  assert (Hq8 : Rabs (/ 8) <= 1) by (apply Rabs_le; lra).
  pose proof (fl_near fl (/ 8) 1 Hq8) as H5.
  assert (H16 : / 16 <= fl (fl (a * a) + fl (b * b))) by lra.
  replace (/ 4) with (sqrt (/ 16)).
  - apply sqrt_le_1_alt. exact H16.
  - replace (/ 16) with (/ 4 * / 4) by lra. apply sqrt_square. lra.
Qed.

Lemma greatest_row_distance (c : R) : / 2 <= Rmax c (fl (1 - c)).
Proof.
  destruct (Rle_lt_dec (/ 2) c) as [Hc|Hc].
  - eapply Rle_trans; [exact Hc | apply Rmax_l].
  - eapply Rle_trans; [|apply Rmax_r].
    assert (Hhalf : 0.5 <= 1 - c) by lra.
    pose proof (fl_mono fl _ _ Hhalf) as Hm. rewrite fl_one_half in Hm.
    lra.
Qed.

Lemma radialDistance_defined (sx sy : R) :
  exists d, radialDistance fl m g width height sx sy = Some d.
Proof.
  unfold radialDistance. cbv zeta. unfold quotient at 1.
  destruct (Req_dec_T (INR height) 0) as [E|_].
  { exfalso. apply le_INR in Hheight. simpl in Hheight. lra. }
  set (aspectRatio := fl (INR width / INR height)).
  match goal with
  | |- context [let '(dx, dy) := ?p in _] => destruct p as [dx dy]
  end.
  rewrite !Math_sqrt_defined by apply sum_of_squares.
  unfold quotient.
  match goal with
  | |- context [Req_dec_T ?d 0] => destruct (Req_dec_T d 0) as [E|_]
  end; [|eauto].
  exfalso. apply (Rlt_irrefl 0). rewrite <- E at 2.
  apply greatest_distance_positive, greatest_row_distance.
Qed.

Lemma calcColor_returns (sx sy : R) :
  colorStops g <> [] ->
  exists v, calcColor fl m g width height sx sy = Value v.
Proof.
  intros Hstops.
  assert (Hramp : forall p, exists v, ramp g p = Value v).
  { intros p. unfold ramp.
    destruct (getColorAtPosition_total (colorStops g) p Hstops) as [v ->].
    exists v. reflexivity. }
  unfold calcColor.
  destruct (radialDistance_defined sx sy) as [d ->].
  destruct (isOutsideRange sx sy), (gradientType g); apply Hramp.
Qed.

Lemma calcColor_throws (sx sy : R) :
  colorStops g = [] -> calcColor fl m g width height sx sy = Throws.
Proof.
  intros Hstops.
  assert (Hramp : forall p, ramp g p = Throws)
    by (intros p; unfold ramp; rewrite Hstops; reflexivity).
  unfold calcColor.
  destruct (radialDistance_defined sx sy) as [d ->].
  destruct (isOutsideRange sx sy), (gradientType g); apply Hramp.
Qed.

Lemma pixel_step_returns (y x : nat) (pixels : list string) (c : cache) :
  colorStops g <> [] ->
  exists v c',
    pixel_step fl m g width height y (Value (pixels, c)) x
    = Value (pixels ++ [v], c')
    /\ ((length c <= 5000)%nat -> (length c' <= 5000)%nat).
Proof.
  intros Hstops. unfold pixel_step, scaledX, scaledY.
  destruct (scaled_defined width x Hwidth) as [sx ->].
  destruct (scaled_defined height y Hheight) as [sy ->].
  destruct (calcColor_returns sx sy Hstops) as [v ->].
  unfold cached.
  destruct (getColorFromCache_total (cacheKey fl g width height sx sy) v c)
    as (v' & c' & -> & Hb).
  exists v', c'. split; [reflexivity | exact Hb].
Qed.

Lemma row_loop_returns (y : nat) (pixels : list string) (c : cache) :
  colorStops g <> [] ->
  exists pixels' c',
    row_loop fl m g width height (Value (pixels, c)) y
    = Value (pixels', c')
    /\ length pixels' = (length pixels + width)%nat
    /\ ((length c <= 5000)%nat -> (length c' <= 5000)%nat).
Proof.
  intros Hstops. unfold row_loop.
  assert (Hgen : forall n a pixels0 c0,
            exists pixels' c',
              fold_left (pixel_step fl m g width height y) (seq a n)
                (Value (pixels0, c0)) = Value (pixels', c')
              /\ length pixels' = (length pixels0 + n)%nat
              /\ ((length c0 <= 5000)%nat -> (length c' <= 5000)%nat)).
  { induction n as [|n IH]; intros a pixels0 c0; cbn [seq fold_left].
    - exists pixels0, c0. split; [reflexivity|]. split; [lia | auto].
    - destruct (pixel_step_returns y a pixels0 c0 Hstops)
        as (v & c1 & -> & Hb1).
      destruct (IH (S a) (pixels0 ++ [v]) c1)
        as (pixels' & c' & -> & Hlen & Hb).
      exists pixels', c'. split; [reflexivity|].
      rewrite length_app in Hlen. simpl in Hlen. split; [lia | auto]. }
  apply Hgen.
Qed.

Lemma calculateOptimizedPixels_returns (c : cache) :
  colorStops g <> [] ->
  exists pixels c',
    calculateOptimizedPixels fl m g width height c = Value (pixels, c')
    /\ length pixels = (width * height)%nat
    /\ ((length c <= 5000)%nat -> (length c' <= 5000)%nat).
Proof.
  intros Hstops. unfold calculateOptimizedPixels.
  assert (Hgen : forall n a pixels0 c0,
            exists pixels' c',
              fold_left (row_loop fl m g width height) (seq a n)
                (Value (pixels0, c0)) = Value (pixels', c')
              /\ length pixels' = (length pixels0 + width * n)%nat
              /\ ((length c0 <= 5000)%nat -> (length c' <= 5000)%nat)).
  { induction n as [|n IH]; intros a pixels0 c0; cbn [seq fold_left].
    - exists pixels0, c0. split; [reflexivity|]. split; [lia | auto].
    - destruct (row_loop_returns a pixels0 c0 Hstops)
        as (p1 & c1 & -> & Hl1 & Hb1).
      destruct (IH (S a) p1 c1) as (pixels' & c' & -> & Hlen & Hb).
      exists pixels', c'. split; [reflexivity|]. split; [lia | auto]. }
  destruct (Hgen height 0%nat [] c) as (pixels & c' & H & Hlen & Hb).
  exists pixels, c'. simpl in Hlen. auto.
Qed.

Lemma fold_pixel_step_Throws (y : nat) (l : list nat) :
  fold_left (pixel_step fl m g width height y) l Throws = Throws.
Proof. induction l; simpl; auto. Qed.

Lemma fold_row_loop_Throws (l : list nat) :
  fold_left (row_loop fl m g width height) l Throws = Throws.
Proof.
  induction l as [|y l IH]; simpl; [reflexivity|].
  unfold row_loop at 2. rewrite fold_pixel_step_Throws. exact IH.
Qed.

(** With no stop the first pixel throws, and nothing follows. *)
Lemma calculateOptimizedPixels_throws :
  colorStops g = [] ->
  calculateOptimizedPixels fl m g width height [] = Throws.
Proof.
  intros Hstops. unfold calculateOptimizedPixels.
  assert (Hseq : forall n, (2 <= n)%nat -> seq 0 n = 0%nat :: seq 1 (n - 1)).
  { intros [|n] Hn; [lia|]. simpl. rewrite Nat.sub_0_r. reflexivity. }
  rewrite (Hseq height Hheight). cbn [fold_left]. unfold row_loop at 2.
  rewrite (Hseq width Hwidth). cbn [fold_left].
  unfold pixel_step at 2, scaledX, scaledY.
  destruct (scaled_defined width 0 Hwidth) as [sx ->].
  destruct (scaled_defined height 0 Hheight) as [sy ->].
  rewrite (calcColor_throws sx sy Hstops).
  cbn [cached cache_get getColorFromCache returned].
  rewrite fold_pixel_step_Throws. apply fold_row_loop_Throws.
Qed.

(** The scale factor of a scale of 50 percent or more is not 0. *)
Lemma scaleFactor_of_slider :
  50 <= scaleValue g -> scaleFactor fl g <> 0.
Proof.
  intros H. unfold scaleFactor.
  assert (Hhalf : 0.5 <= scaleValue g / 100) by lra.
  pose proof (fl_mono fl _ _ Hhalf) as Hm. rewrite fl_one_half in Hm. lra.
Qed.

End FieldTotal.

(** X14. On a grid of at least two columns and two rows, with the settings
    within the ranges of their sliders and for every rounding of the
    arithmetic: with at least one color stop the field is computed for every
    cache, [calculateOptimizedPixels] returns [width * height] colors, and a
    cache of at most 5000 entries is left with at most 5000; with no stop
    the computation throws at the first pixel when the cache is empty. *)
Theorem X14_field_has_one_color_per_pixel (round : Gradient.rounding)
    (m : Gradient.MathLibrary) (g : Gradient.Settings)
    (width height : nat) (c : Gradient.cache)
    (Hwidth : Gradient.dimension width)
    (Hheight : Gradient.dimension height)
    (Hsettings : Gradient.slider_ranges g) :
  (Gradient.colorStops g <> [] ->
   exists pixels c',
     Gradient.calculateOptimizedPixels round m g width height c
     = Gradient.Value (pixels, c')
     /\ length pixels = width * height
     /\ (length c <= 5000 -> length c' <= 5000))
  /\ (Gradient.colorStops g = [] ->
      Gradient.calculateOptimizedPixels round m g width height []
      = Gradient.Throws).
Proof.
  destruct Hwidth as [Hw _]. destruct Hheight as [Hh _].
  assert (Hscale : Gradient.scaleFactor round g <> 0%R).
  { apply scaleFactor_of_slider.
    unfold Gradient.slider_ranges in Hsettings. tauto. }
  split.
  - intros Hne. apply calculateOptimizedPixels_returns; assumption.
  - intros Hnone. apply calculateOptimizedPixels_throws; assumption.
Qed.

Lemma X14_field_has_one_color_per_pixel_witness :
  (exists pixels c',
     Gradient.calculateOptimizedPixels Gradient.exact_rounding
       Gradient.real_functions (Gradient.linear_at_0 Gradient.red_blue)
       3 2 []
     = Gradient.Value (pixels, c')
     /\ length pixels = 3 * 2)
  /\ Gradient.calculateOptimizedPixels Gradient.exact_rounding
       Gradient.real_functions (Gradient.linear_at_0 []) 3 2 []
     = Gradient.Throws.
Proof.
  assert (H3 : Gradient.dimension 3) by (split; [lia | simpl; lia]).
  assert (H2 : Gradient.dimension 2) by (split; [lia | simpl; lia]).
  assert (Hs : forall stops,
            Gradient.slider_ranges (Gradient.linear_at_0 stops))
    by (intros stops; unfold Gradient.slider_ranges; simpl; lra).
  destruct (X14_field_has_one_color_per_pixel Gradient.exact_rounding
              Gradient.real_functions
              (Gradient.linear_at_0 Gradient.red_blue) 3 2 [] H3 H2
              (Hs _))
    as [Hsome _].
  destruct (X14_field_has_one_color_per_pixel Gradient.exact_rounding
              Gradient.real_functions
              (Gradient.linear_at_0 []) 3 2 [] H3 H2 (Hs _))
    as [_ Hnone].
  split.
  - destruct Hsome as (pixels & c' & H & Hlen & _); [discriminate|].
    exists pixels, c'. split; [exact H | exact Hlen].
  - apply Hnone. reflexivity.
Defined.

(** ** The angle of the preview *)

Section CssAngle.

Import Gradient.
Local Open Scope R_scope.

(** The remainder of a dividend that is not negative by a positive
    divisor. *)
Lemma js_rem_nonneg (x y : R) :
  0 <= x -> 0 < y ->
  0 <= js_rem x y < y /\ js_rem x y = x - y * IZR (Zfloor (x / y)).
Proof.
  intros Hx Hy. unfold js_rem. cbv zeta.
  assert (Hq : 0 <= x / y).
  { unfold Rdiv. apply Rmult_le_pos; [exact Hx|].
    left. apply Rinv_0_lt_compat, Hy. }
  destruct (Rle_dec 0 (x / y)) as [_|Hn]; [|contradiction].
  split; [|reflexivity].
  pose proof (Zfloor_bound (x / y)) as Hb.
  assert (Hxy : x = x / y * y) by (field; lra).
  split; nra.
Qed.

End CssAngle.

(** X15. The angle given to the CSS preview is a quarter turn ahead of the
    angle of the field, brought back into [0, 360): for an angle from -450
    on the result is [angle + 90] minus a whole number of turns; over the
    range of the slider it is [angle + 90] below 270 and [angle - 270] from
    270 on. *)
Theorem X15_css_angle_is_a_quarter_turn_ahead (angle : R)
    (Hangle : (-450 <= angle)%R) :
  (0 <= Gradient.convertAngleToCss angle < 360)%R
  /\ (exists n : Z,
        Gradient.convertAngleToCss angle = (angle + 90 - 360 * IZR n)%R)
  /\ ((0 <= angle < 270)%R ->
      Gradient.convertAngleToCss angle = (angle + 90)%R)
  /\ ((270 <= angle < 630)%R ->
      Gradient.convertAngleToCss angle = (angle - 270)%R).
Proof.
  unfold Gradient.convertAngleToCss.
  destruct (js_rem_nonneg (angle + 90 + 360) 360 ltac:(lra) ltac:(lra))
    as [Hrange Heq].
  split; [exact Hrange|]. split; [|split].
  - exists (Zfloor ((angle + 90 + 360) / 360) - 1)%Z.
    rewrite Heq, minus_IZR. lra.
  - intros H. rewrite Heq, (Zfloor_eq 1) by lra. lra.
  - intros H. rewrite Heq, (Zfloor_eq 2) by lra. lra.
Qed.

Lemma X15_css_angle_is_a_quarter_turn_ahead_witness :
  Gradient.convertAngleToCss 90 = 180%R
  /\ Gradient.convertAngleToCss 300 = 30%R.
Proof.
  destruct (X15_css_angle_is_a_quarter_turn_ahead 90 ltac:(lra))
    as (_ & _ & Hlow & _).
  destruct (X15_css_angle_is_a_quarter_turn_ahead 300 ltac:(lra))
    as (_ & _ & _ & Hhigh).
  split.
  - rewrite Hlow by lra. lra.
  - rewrite Hhigh by lra. lra.
Defined.

(** ** The editor of the color stops *)

Section Editor.

Import Gradient Stops.
Local Open Scope R_scope.

Lemma ascending_lookup (l : list ColorStop) (i j : nat) (x y : ColorStop) :
  ascending l -> (i <= j)%nat -> l !! i = Some x -> l !! j = Some y ->
  position x <= position y.
Proof.
  revert i j. induction l as [|a r IH]; intros i j Hasc Hij Hx Hy;
    [discriminate|].
  destruct Hasc as [Ha Hr].
  destruct i as [|i], j as [|j]; try lia.
  - simpl in Hx, Hy. injection Hx as <-. injection Hy as <-. lra.
  - simpl in Hx, Hy. injection Hx as <-.
    rewrite Forall_forall in Ha. eapply Ha, list_elem_of_lookup_2, Hy.
  - simpl in Hx, Hy. apply (IH i j Hr ltac:(lia) Hx Hy).
Qed.

(** The loop of [addColorStop]: the widest gap so far only grows, no gap
    between neighbours is wider than the result, and the result is the
    start value or the gap of a pair of neighbours with its middle. *)
Lemma largest_gap_spec (l : list ColorStop) (acc : R * R) :
  fst acc <= fst (largest_gap l acc)
  /\ (forall i x y, l !! i = Some x -> l !! S i = Some y ->
        position y - position x <= fst (largest_gap l acc))
  /\ (largest_gap l acc = acc
      \/ exists j a b,
           l !! j = Some a /\ l !! S j = Some b
           /\ fst (largest_gap l acc) = position b - position a
           /\ snd (largest_gap l acc)
              = position a + (position b - position a) / 2
           /\ fst acc < fst (largest_gap l acc)).
Proof.
  revert acc. induction l as [|a r IH]; intros acc.
  { simpl. split; [lra|]. split; [discriminate | left; reflexivity]. }
  destruct r as [|b r].
  { simpl. split; [lra|]. split; [|left; reflexivity].
    intros [|i] x y; discriminate. }
  pose (acc' := if Rgt_dec (position b - position a) (fst acc)
                then (position b - position a,
                      position a + (position b - position a) / 2)
                else acc).
  change (largest_gap (a :: b :: r) acc) with (largest_gap (b :: r) acc').
  destruct (IH acc') as (Hmono & Hgaps & Hres).
  assert (Hacc' : fst acc <= fst acc'
                  /\ position b - position a <= fst acc').
  { subst acc'. destruct (Rgt_dec _ _); simpl; lra. }
  split; [lra|]. split.
  - intros [|i] x y Hx Hy.
    + simpl in Hx, Hy. injection Hx as <-. injection Hy as <-. lra.
    + exact (Hgaps i x y Hx Hy).
  - destruct Hres as [Hsame | (j & x & y & Hx & Hy & Hfst & Hsnd & Hlt)].
    + rewrite Hsame. subst acc'.
      destruct (Rgt_dec (position b - position a) (fst acc)) as [Hgt|_];
        [|left; reflexivity].
      right. exists 0%nat, a, b. simpl. repeat split; lra.
    + right. exists (S j), x, y. repeat split; try assumption. lra.
Qed.

(** In an ascending list where no neighbour lies above the one before it,
    every stop has the position of the first. *)
Lemma ascending_flat (l : list ColorStop) (a s : ColorStop) :
  ascending l -> head l = Some a ->
  (forall i x y, l !! i = Some x -> l !! S i = Some y ->
     position y - position x <= 0) ->
  In s l -> position s = position a.
Proof.
  revert a. induction l as [|a' r IH]; intros a Hasc Hh Hflat Hin;
    [discriminate|].
  injection Hh as Heq. subst a'.
  destruct Hin as [<-|Hin]; [reflexivity|].
  destruct r as [|b r]; [destruct Hin|].
  destruct Hasc as [Ha Hr].
  assert (Hab : position b = position a).
  { pose proof (Hflat 0%nat a b eq_refl eq_refl) as H1.
    rewrite Forall_forall in Ha.
    assert (position a <= position b) by (apply Ha; left).
    lra. }
  rewrite <- Hab. apply (IH b Hr eq_refl); [|exact Hin].
  intros i x y Hx Hy. exact (Hflat (S i) x y Hx Hy).
Qed.

Lemma find_at (f : ColorStop -> bool) (l : list ColorStop) (n : nat)
    (b : ColorStop) :
  (forall i x, (i < n)%nat -> l !! i = Some x -> f x = false) ->
  l !! n = Some b -> f b = true -> List.find f l = Some b.
Proof.
  revert n. induction l as [|a r IH]; intros n Hbefore Hn Hb;
    [discriminate|].
  destruct n as [|n].
  - simpl in Hn. injection Hn as ->. simpl. rewrite Hb. reflexivity.
  - simpl. rewrite (Hbefore 0%nat a ltac:(lia) eq_refl).
    apply (IH n); [|exact Hn | exact Hb].
    intros i x Hi Hx. apply (Hbefore (S i) x ltac:(lia) Hx).
Qed.

Lemma length_addColorStop (stops : list ColorStop) :
  length (addColorStop stops)
  = if (4 <=? length stops)%nat then length stops else S (length stops).
Proof.
  unfold addColorStop. destruct (4 <=? length stops)%nat; [reflexivity|].
  rewrite length_app. simpl. lia.
Qed.

Lemma length_removeColorStop (index : nat) (stops : list ColorStop) :
  length (removeColorStop index stops)
  = if (length stops <=? 2)%nat then length stops
    else if (index <? length stops)%nat then Nat.pred (length stops)
         else length stops.
Proof.
  unfold removeColorStop. destruct (Nat.leb_spec (length stops) 2);
    [reflexivity|].
  rewrite length_app, length_take, length_drop.
  destruct (Nat.ltb_spec index (length stops)); lia.
Qed.

(** The position of the stop that is added lies between 0 and 100 when
    the positions of the stops do. *)
Lemma new_stop_in_range (stops : list ColorStop) :
  Forall (fun s => 0 <= position s <= 100) stops ->
  0 <= position (new_stop stops) <= 100.
Proof.
  intros Hall. unfold new_stop. cbv zeta. simpl.
  assert (Hsorted : forall s, In s (sort_stops stops) ->
                      0 <= position s <= 100).
  { intros s Hs. apply (proj1 (sort_stops_In stops s)) in Hs.
    rewrite Forall_forall in Hall. apply Hall, list_elem_of_In, Hs. }
  destruct (largest_gap_spec (sort_stops stops) (0, 50))
    as (_ & _ & [-> | (j & a & b & Ha & Hb & _ & -> & _)]).
  - simpl. lra.
  - assert (0 <= position a <= 100)
      by (eapply Hsorted, list_elem_of_In, list_elem_of_lookup_2, Ha).
    assert (0 <= position b <= 100)
      by (eapply Hsorted, list_elem_of_In, list_elem_of_lookup_2, Hb).
    lra.
Qed.

End Editor.

(** X16. The editor keeps the list of stops in shape: from two to four
    stops at positions between 0 and 100, adding a stop, removing the stop
    of a row, and setting the color or the position of a stop (whatever
    real number is asked for) give two to four stops at positions between
    0 and 100 again. Adding changes nothing at four stops and adds one stop
    below; removing changes nothing at two stops and takes out one stop
    above; setting a color or a position clears the cache of colors and
    throws where there is no stop at the index. *)
Theorem X16_editor_keeps_two_to_four_stops
    (stops : list Gradient.ColorStop) (c : Gradient.cache)
    (index : nat) (newColor : string) (newPosition : R)
    (Hok : Stops.stops_ok stops) :
  Stops.stops_ok (Stops.addColorStop stops)
  /\ length (Stops.addColorStop stops)
     = (if length stops =? 4 then 4 else S (length stops))
  /\ Stops.stops_ok (Stops.removeColorStop index stops)
  /\ length (Stops.removeColorStop index stops)
     = (if (length stops =? 2) || negb (index <? length stops)
        then length stops else Nat.pred (length stops))
  /\ (index < length stops ->
      exists stops1 stops2,
        Stops.updateStopColor index newColor (stops, c) = Some (stops1, [])
        /\ Stops.updateStopPosition index newPosition (stops, c)
           = Some (stops2, [])
        /\ Stops.stops_ok stops1 /\ Stops.stops_ok stops2
        /\ (exists s, stops2 !! index = Some s
                      /\ Gradient.position s
                         = Rmax 0 (Rmin 100 newPosition)))
  /\ (length stops <= index ->
      Stops.updateStopColor index newColor (stops, c) = None
      /\ Stops.updateStopPosition index newPosition (stops, c) = None).
Proof.
  destruct Hok as [Hlen Hall].
  split; [|split; [|split; [|split; [|split]]]].
  - split.
    + rewrite length_addColorStop.
      destruct (Nat.leb_spec 4 (length stops)); lia.
    + unfold Stops.addColorStop.
      destruct (4 <=? length stops); [exact Hall|].
      apply Forall_app. split; [exact Hall|].
      apply Forall_cons. split; [|constructor].
      apply new_stop_in_range, Hall.
  - rewrite length_addColorStop.
    destruct (Nat.leb_spec 4 (length stops)), (Nat.eqb_spec (length stops) 4);
      lia.
  - split.
    + rewrite length_removeColorStop.
      destruct (Nat.leb_spec (length stops) 2); [lia|].
      destruct (Nat.ltb_spec index (length stops)); lia.
    + unfold Stops.removeColorStop.
      destruct (length stops <=? 2); [exact Hall|].
      apply Forall_app. split; [apply Forall_take | apply Forall_drop];
        exact Hall.
  - rewrite length_removeColorStop.
    destruct (Nat.leb_spec (length stops) 2),
             (Nat.eqb_spec (length stops) 2),
             (Nat.ltb_spec index (length stops)); simpl; lia.
  - intros Hi. unfold Stops.updateStopColor, Stops.updateStopPosition.
    destruct (stops !! index) as [s|] eqn:Hs;
      [|apply lookup_ge_None in Hs; lia].
    eexists. eexists. split; [reflexivity|]. split; [reflexivity|].
    assert (Hs_range : (0 <= Gradient.position s <= 100)%R).
    { rewrite Forall_forall in Hall.
      eapply Hall, list_elem_of_lookup_2, Hs. }
    assert (Hclamp : (0 <= Rmax 0 (Rmin 100 newPosition) <= 100)%R).
    { unfold Rmax, Rmin.
      destruct (Rle_dec 100 newPosition);
        destruct (Rle_dec 0 _); lra. }
    split; [|split].
    + split; [rewrite length_insert; exact Hlen|].
      apply Forall_insert; [exact Hall | exact Hs_range].
    + split; [rewrite length_insert; exact Hlen|].
      apply Forall_insert; [exact Hall | exact Hclamp].
    + eexists. split; [apply list_lookup_insert_eq; exact Hi | reflexivity].
  - intros Hi. unfold Stops.updateStopColor, Stops.updateStopPosition.
    rewrite (proj2 (lookup_ge_None stops index)) by exact Hi. auto.
Qed.

Lemma X16_editor_keeps_two_to_four_stops_witness :
  Stops.stops_ok Stops.default_stops
  /\ Stops.stops_ok (Stops.addColorStop Stops.default_stops)
  /\ length (Stops.addColorStop Stops.default_stops) = 3.
Proof.
  assert (Hok : Stops.stops_ok Stops.default_stops).
  { split; [simpl; lia|].
    repeat (constructor; [simpl; lra|]). constructor. }
  split; [exact Hok|].
  destruct (X16_editor_keeps_two_to_four_stops Stops.default_stops []
              0 "#000000" 0%R Hok)
    as (Hadd & Hlen & _).
  split; [exact Hadd | exact Hlen].
Defined.

(** X17. Where two stops differ in position, the stop that is added sits
    in the middle of a widest gap between neighbours of the sorted stops,
    strictly between the two. Its color is mixed half and half from the
    color of the first of the sorted stops, whichever stop the lower
    neighbour is, and the color of the upper neighbour. *)
Theorem X17_added_stop_halves_the_widest_gap
    (stops : list Gradient.ColorStop) (lo hi : Gradient.ColorStop)
    (Hlo : In lo stops) (Hhi : In hi stops)
    (Hdiff : (Gradient.position lo < Gradient.position hi)%R) :
  exists j first a b,
    head (Gradient.sort_stops stops) = Some first
    /\ Gradient.sort_stops stops !! j = Some a
    /\ Gradient.sort_stops stops !! S j = Some b
    /\ (Gradient.position a < Gradient.position (Stops.new_stop stops)
        < Gradient.position b)%R
    /\ Gradient.position (Stops.new_stop stops)
       = ((Gradient.position a + Gradient.position b) / 2)%R
    /\ (forall i x y,
          Gradient.sort_stops stops !! i = Some x ->
          Gradient.sort_stops stops !! S i = Some y ->
          (Gradient.position y - Gradient.position x
           <= Gradient.position b - Gradient.position a)%R)
    /\ Gradient.color (Stops.new_stop stops)
       = Gradient.interpolateColor
           (Stops.color_or (Some first) "#000000")
           (Stops.color_or (Some b) "#ffffff") 0.5.
Proof.
  pose proof (sort_stops_ascending stops) as Hasc.
  assert (Hne : stops <> []) by (intros ->; destruct Hlo).
  destruct (head_last_nonempty _ (sort_stops_nonempty _ Hne))
    as (first & final & Hh & _).
  destruct (largest_gap_spec (Gradient.sort_stops stops) (0%R, 50%R))
    as (_ & Hgaps & Hres).
  destruct Hres as [Hsame | (j & a & b & Ha & Hb & Hfst & Hsnd & Hlt)].
  { exfalso. rewrite Hsame in Hgaps. simpl in Hgaps.
    pose proof (ascending_flat _ first lo Hasc Hh Hgaps
                  (proj2 (sort_stops_In stops lo) Hlo)) as H1.
    pose proof (ascending_flat _ first hi Hasc Hh Hgaps
                  (proj2 (sort_stops_In stops hi) Hhi)) as H2.
    lra. }
  simpl in Hlt. rewrite Hfst in Hlt, Hgaps.
  assert (Hpos : Gradient.position (Stops.new_stop stops)
                 = ((Gradient.position a + Gradient.position b) / 2)%R).
  { unfold Stops.new_stop. cbv zeta. simpl. rewrite Hsnd. lra. }
  exists j, first, a, b.
  split; [exact Hh|]. split; [exact Ha|]. split; [exact Hb|].
  split; [rewrite Hpos; lra|]. split; [exact Hpos|].
  split; [exact Hgaps|].
  assert (Hfirst : (Gradient.position first <= Gradient.position a)%R).
  { rewrite head_lookup in Hh.
    apply (ascending_lookup _ 0 j first a Hasc ltac:(lia) Hh Ha). }
  unfold Stops.new_stop. cbv zeta. cbn [Gradient.color].
  rewrite (find_at _ _ 0 first); cycle 1.
  { intros i x Hi. lia. }
  { rewrite <- head_lookup. exact Hh. }
  { unfold Stops.below. rewrite Hsnd.
    destruct (Rlt_dec _ _); [reflexivity | exfalso; lra]. }
  rewrite (find_at _ _ (S j) b); cycle 1.
  { intros i x Hi Hx. unfold Stops.above. rewrite Hsnd.
    assert (Gradient.position x <= Gradient.position a)%R
      by (apply (ascending_lookup _ i j x a Hasc ltac:(lia) Hx Ha)).
    destruct (Rgt_dec _ _); [exfalso; lra | reflexivity]. }
  { exact Hb. }
  { unfold Stops.above. rewrite Hsnd.
    destruct (Rgt_dec _ _); [reflexivity | exfalso; lra]. }
  reflexivity.
Qed.

Lemma X17_added_stop_halves_the_widest_gap_witness :
  exists j first a b,
    head (Gradient.sort_stops Stops.default_stops) = Some first
    /\ Gradient.sort_stops Stops.default_stops !! j = Some a
    /\ Gradient.sort_stops Stops.default_stops !! S j = Some b
    /\ Gradient.position (Stops.new_stop Stops.default_stops)
       = ((Gradient.position a + Gradient.position b) / 2)%R.
Proof.
  destruct (X17_added_stop_halves_the_widest_gap Stops.default_stops
              {| Gradient.color := "#FF3300"; Gradient.position := 9 |}
              {| Gradient.color := "#FFB005"; Gradient.position := 24 |}
              ltac:(left; reflexivity) ltac:(right; left; reflexivity)
              ltac:(simpl; lra))
    as (j & first & a & b & Hh & Ha & Hb & _ & Hpos & _).
  exists j, first, a, b. auto.
Defined.

(** ** A stroke and its undos *)

Section Stroke.

Import WledDraw.

(** As many undos as the log has entries after [h] pop them, newest
    first. *)
Lemma undo_some (acts : list HistoryAction) (s : State)
    (h : list HistoryAction) :
  history s = h ++ acts ->
  history (run (replicate (length acts) Call_undo) s) = h
  /\ pixelData (run (replicate (length acts) Call_undo) s)
     = fold_left (fun px a => restored a px) (rev acts) (pixelData s).
Proof.
  revert s. induction acts as [|a acts IH] using rev_ind; intros s Hs.
  - simpl. rewrite app_nil_r in Hs. auto.
  - rewrite length_app, Nat.add_comm. simpl.
    rewrite app_assoc in Hs.
    destruct (undo_snoc s (h ++ acts) a Hs) as (Hpix & Hlog & _).
    destruct (IH (undo s) Hlog) as [-> ->].
    rewrite Hpix, rev_unit. split; reflexivity.
Qed.

(** Writing back what a cell read undoes a write to the cell. *)
Lemma set_back (a x : list cell) (i : nat) (v : cell) :
  i < length a ->
  length x = length (set a i v) ->
  (forall j, get x j = get (set a i v) j) ->
  length (set x i (get a i)) = length a
  /\ forall j, get (set x i (get a i)) j = get a j.
Proof.
  intros Hi Hlen Hget. rewrite length_set in Hlen.
  split; [rewrite length_set; lia|].
  intros j. destruct (Nat.eq_dec j i) as [->|Hne].
  - apply get_set_eq, get_not_hole.
  - rewrite get_set_ne, Hget, get_set_ne by assumption. reflexivity.
Qed.

(** The loop of [batchUpdatePixels] appends one action per cell it
    changes, and the inverses of these actions, newest first, lead back to
    the buffer. *)
Lemma batch_fold_log (c : string) (indices : list Z) (s : State) :
  length (history s) + length indices <= maxHistoryLength ->
  exists acts,
    history (fold_left (batch_step c) indices s) = history s ++ acts
    /\ length acts <= length indices
    /\ length (fold_left (fun px a => restored a px) (rev acts)
                 (pixelData (fold_left (batch_step c) indices s)))
       = length (pixelData s)
    /\ forall j,
         get (fold_left (fun px a => restored a px) (rev acts)
                (pixelData (fold_left (batch_step c) indices s))) j
         = get (pixelData s) j.
Proof.
  revert s. induction indices as [|k indices IH]; intros s Hroom.
  { exists []. simpl. rewrite app_nil_r. auto. }
  cbn [fold_left]. cbn [length] in Hroom.
  destruct (batch_step_frame c s k)
    as [Hsame | (Hk & Hpix & _ & _ & Hlog & _)].
  - rewrite Hsame. destruct (IH s ltac:(lia)) as (acts & H1 & H2 & H3 & H4).
    exists acts. cbn [length]. repeat split; auto with lia.
  - rewrite pushed_room in Hlog by lia.
    destruct (IH (batch_step c s k)) as (acts & H1 & H2 & H3 & H4).
    { rewrite Hlog, length_app. simpl. lia. }
    rewrite Hlog, <- app_assoc in H1. rewrite Hpix in H3, H4.
    exists (DrawAction (Z.to_nat k) (get (pixelData s) (Z.to_nat k)) :: acts).
    split; [exact H1|]. split; [simpl; lia|].
    cbn [rev]. rewrite fold_left_app. cbn [fold_left restored].
    apply (set_back _ _ _ (Str c)); assumption.
Qed.

Lemma batchUpdatePixels_log (indices : list Z) (c : string) (s : State) :
  history (batchUpdatePixels indices c s)
  = history (fold_left (batch_step c) indices s)
  /\ pixelData (batchUpdatePixels indices c s)
     = pixelData (fold_left (batch_step c) indices s).
Proof.
  unfold batchUpdatePixels. cbv zeta.
  rewrite history_debouncedSendToWled, pixelData_debouncedSendToWled.
  split; reflexivity.
Qed.

End Stroke.

(** X18. A stroke is undone cell by cell: where the log has room for the
    stroke, [batchUpdatePixels] appends one entry per cell it changes, at
    most one per index given, and as many undos as entries appended give
    back the log and the buffer of before the stroke: the length of the
    buffer and what every index reads. *)
Theorem X18_stroke_is_undone_cell_by_cell (s : WledDraw.State)
    (indices : list Z) (c : string)
    (Hroom : length (WledDraw.history s) + length indices
             <= WledDraw.maxHistoryLength) :
  let s' := WledDraw.batchUpdatePixels indices c s in
  let k := length (WledDraw.history s') - length (WledDraw.history s) in
  let s'' := WledDraw.run (replicate k WledDraw.Call_undo) s' in
  k <= length indices
  /\ length (WledDraw.history s') = length (WledDraw.history s) + k
  /\ WledDraw.history s'' = WledDraw.history s
  /\ length (WledDraw.pixelData s'') = length (WledDraw.pixelData s)
  /\ forall j, get (WledDraw.pixelData s'') j = get (WledDraw.pixelData s) j.
Proof.
  intros s' k s''.
  destruct (batch_fold_log c indices s Hroom) as (acts & Hlog & Hk & Hlen & Hget).
  destruct (batchUpdatePixels_log indices c s) as [Hh Hp].
  fold s' in Hh, Hp. rewrite <- Hh in Hlog. rewrite <- Hp in Hlen, Hget.
  assert (Hkacts : k = length acts).
  { subst k. rewrite Hlog, length_app. lia. }
  destruct (undo_some acts s' (WledDraw.history s) Hlog) as [Hlog' Hpix'].
  subst s''. rewrite Hkacts, Hlog', Hpix'.
  split; [exact Hk|]. split; [rewrite Hlog, length_app; reflexivity|].
  split; [reflexivity|]. split; [exact Hlen | exact Hget].
Qed.

Lemma X18_stroke_is_undone_cell_by_cell_witness :
  let s :=
    WledDraw.run [WledDraw.Set_dimensions 2 2] WledDraw.initial in
  let s' := WledDraw.batchUpdatePixels [0; 3; 0; 7]%Z "#ff2500" s in
  length (WledDraw.history s') = 2
  /\ forall j,
       get (WledDraw.pixelData
              (WledDraw.run (replicate 2 WledDraw.Call_undo) s')) j
       = get (WledDraw.pixelData s) j.
Proof.
  intros s s'.
  destruct (X18_stroke_is_undone_cell_by_cell s [0; 3; 0; 7]%Z "#ff2500"
              ltac:(vm_compute; lia))
    as (_ & Hlen & _ & _ & Hget).
  split; [exact Hlen | exact Hget].
Defined.

(** ** Applying a gradient pixel by pixel *)

Section ApplyGradient.

Import WledDraw App.

Lemma updatePixel_part_001_cells (i : nat) (c : string) (s : State) :
  i < length (pixelData s) ->
  length (pixelData (updatePixel_part_001 i c s)) = length (pixelData s)
  /\ get (pixelData (updatePixel_part_001 i c s)) i = Str c
  /\ (forall j, j <> i ->
        pixelData (updatePixel_part_001 i c s) !! j = pixelData s !! j)
  /\ ignoreApi (updatePixel_part_001 i c s) = ignoreApi s
  /\ posted (updatePixel_part_001 i c s) = posted s.
Proof.
  intros Hi. unfold updatePixel_part_001.
  destruct (is_str (get (pixelData s) i) c) eqn:Hsame.
  - apply is_str_true in Hsame. auto.
  - simpl. split; [apply length_set_in_range, Hi|].
    split; [apply get_set_eq; discriminate|].
    split; [|auto].
    intros j Hne. unfold set.
    destruct (Nat.ltb_spec i (length (pixelData s))); [|lia].
    apply list_lookup_insert_ne. congruence.
Qed.

(** The loop over the colors from index [a] on: the cells of the buffer
    named by the loop hold their color, the other cells are as they
    were. *)
Lemma apply_fold_cells (data : list string) (a : nat) (s : State) :
  let s' := fold_left apply_step (combine (seq a (length data)) data) s in
  length (pixelData s') = length (pixelData s)
  /\ ignoreApi s' = ignoreApi s
  /\ posted s' = posted s
  /\ (forall i color, a + i < length (pixelData s) ->
        data !! i = Some color -> get (pixelData s') (a + i) = Str color)
  /\ (forall j, j < a \/ a + length data <= j ->
        pixelData s' !! j = pixelData s !! j).
Proof.
  revert a s. induction data as [|c data IH]; intros a s; cbn zeta.
  { simpl. repeat split; auto. intros i color _ H. discriminate. }
  cbn [length seq combine fold_left].
  set (s1 := apply_step s (a, c)).
  assert (H1 : length (pixelData s1) = length (pixelData s)
               /\ ignoreApi s1 = ignoreApi s /\ posted s1 = posted s
               /\ (a < length (pixelData s) ->
                   get (pixelData s1) a = Str c)
               /\ (forall j, j <> a -> pixelData s1 !! j = pixelData s !! j)).
  { subst s1. unfold apply_step.
    destruct (Nat.ltb_spec a (length (pixelData s))) as [Ha|Ha].
    - destruct (updatePixel_part_001_cells a c s Ha)
        as (? & ? & ? & ? & ?).
      repeat split; auto.
    - repeat split; auto. intros; lia. }
  destruct H1 as (Hlen1 & Hig1 & Hpost1 & Hset1 & Hkeep1).
  destruct (IH (S a) s1) as (Hlen & Hig & Hpost & Hset & Hkeep).
  cbv zeta in Hlen, Hig, Hpost, Hset, Hkeep.
  split; [congruence|]. split; [congruence|]. split; [congruence|].
  split.
  - intros [|i] color Hi Hc.
    + simpl in Hc. injection Hc as <-. rewrite Nat.add_0_r.
      rewrite Nat.add_0_r in Hi.
      unfold get. rewrite Hkeep by lia. apply Hset1. exact Hi.
    + simpl in Hc. replace (a + S i) with (S a + i) by lia.
      apply Hset; [|exact Hc]. rewrite Hlen1. lia.
  - intros j Hj. rewrite Hkeep by lia. apply Hkeep1. lia.
Qed.

End ApplyGradient.

(** X19. In the application without the debounced sender, applying a
    gradient (or an image) writes only inside the buffer: the buffer keeps
    its length, every cell of the buffer that the data has a color for
    holds that color, every other cell is as it was, and one request is
    sent, with the buffer as it is after the last write; none when the
    device is ignored. *)
Theorem X19_gradient_is_drawn_inside_the_buffer (s : WledDraw.State)
    (gradientData : list string) :
  let s' := App.applyGradient gradientData s in
  App.applyImageToCanvas gradientData s = s'
  /\ length (WledDraw.pixelData s') = length (WledDraw.pixelData s)
  /\ (forall i color, i < length (WledDraw.pixelData s) ->
        gradientData !! i = Some color ->
        get (WledDraw.pixelData s') i = Str color)
  /\ (forall j, length gradientData <= j ->
        WledDraw.pixelData s' !! j = WledDraw.pixelData s !! j)
  /\ WledDraw.posted s'
     = (if WledDraw.ignoreApi s then WledDraw.posted s
        else WledDraw.posted s ++ [WledDraw.wledJson s']).
Proof.
  intros s'. split; [reflexivity|].
  destruct (apply_fold_cells gradientData 0 s)
    as (Hlen & Hig & Hpost & Hset & Hkeep).
  cbv zeta in Hlen, Hig, Hpost, Hset, Hkeep.
  subst s'. unfold App.applyGradient, App.sendToWled.
  rewrite Hig.
  destruct (WledDraw.ignoreApi s).
  - repeat split; auto; intros j Hj; apply Hkeep; simpl; lia.
  - simpl. rewrite Hpost.
    repeat split; auto; intros j Hj; apply Hkeep; simpl; lia.
Qed.

(** ** The palettes of recent colors *)

Section Palettes.

Import Picker.

Lemma includes_In (palette : list string) (color : string) :
  includes palette color = true <-> In color palette.
Proof.
  unfold includes. rewrite existsb_exists. split.
  - intros (x & Hin & Heq). apply String.eqb_eq in Heq. subst x. exact Hin.
  - intros Hin. exists color. split; [exact Hin | apply String.eqb_refl].
Qed.

Lemma includes_false (palette : list string) (color : string) :
  includes palette color = false <-> ~ In color palette.
Proof.
  rewrite <- includes_In. destruct (includes palette color); split;
    congruence.
Qed.

Lemma removelast_take {A : Type} (l : list A) :
  removelast l = take (Nat.pred (length l)) l.
Proof.
  induction l as [|a l IH]; [reflexivity|].
  destruct l as [|b l]; [reflexivity|].
  change (removelast (a :: b :: l)) with (a :: removelast (b :: l)).
  rewrite IH. reflexivity.
Qed.

Lemma NoDup_take_list {A : Type} (n : nat) (l : list A) :
  List.NoDup l -> List.NoDup (take n l).
Proof.
  revert n. induction l as [|a l IH]; intros [|n] H; simpl;
    try constructor.
  - inversion H as [|? ? Hnotin Hrest]; subst.
    intros Hin. apply Hnotin. apply list_elem_of_In.
    apply list_elem_of_In in Hin. eapply subseteq_take, Hin.
  - inversion H; subst. apply IH. assumption.
Qed.

Lemma not_In_take {A : Type} (n : nat) (l : list A) (x : A) :
  ~ In x l -> ~ In x (take n l).
Proof.
  intros Hnotin Hin. apply Hnotin. apply list_elem_of_In.
  apply list_elem_of_In in Hin. eapply subseteq_take, Hin.
Qed.

End Palettes.

(** X20. Both palettes of recent colors keep their colors distinct and
    hold the color just picked; picking the same color again changes
    nothing. The palette of [part_003] keeps its length (a new color
    pushes out the last one), the history of the color picker grows up to
    eight colors, and the two agree on a palette of eight colors. *)
Theorem X20_palettes_keep_distinct_colors (color : string)
    (palette : list string) (Hdistinct : List.NoDup palette) :
  List.NoDup (Picker.updateColor color palette)
  /\ List.NoDup (Picker.addToColorHistory color palette)
  /\ In color (Picker.updateColor color palette)
  /\ In color (Picker.addToColorHistory color palette)
  /\ Picker.updateColor color (Picker.updateColor color palette)
     = Picker.updateColor color palette
  /\ Picker.addToColorHistory color (Picker.addToColorHistory color palette)
     = Picker.addToColorHistory color palette
  /\ (palette <> [] ->
      length (Picker.updateColor color palette) = length palette)
  /\ (length palette <= 8 ->
      length (Picker.addToColorHistory color palette) <= 8)
  /\ (length palette = 8 ->
      Picker.updateColor color palette
      = Picker.addToColorHistory color palette).
Proof.
  unfold Picker.updateColor, Picker.addToColorHistory, slice.
  rewrite drop_0, Nat.sub_0_r, removelast_take.
  destruct (Picker.includes palette color) eqn:Hinc.
  - rewrite Hinc. apply includes_In in Hinc. repeat split; auto.
  - pose proof (proj1 (includes_false _ _) Hinc) as Hnotin.
    assert (Hhead : forall l, Picker.includes (color :: l) color = true).
    { intros l. unfold Picker.includes. simpl.
      rewrite String.eqb_refl. reflexivity. }
    rewrite !Hhead.
    split; [constructor;
            [apply not_In_take, Hnotin | apply NoDup_take_list, Hdistinct]|].
    split; [constructor;
            [apply not_In_take, Hnotin | apply NoDup_take_list, Hdistinct]|].
    split; [left; reflexivity|]. split; [left; reflexivity|].
    split; [reflexivity|]. split; [reflexivity|].
    split; [|split].
    + intros Hne. simpl. rewrite length_take.
      destruct palette; [congruence | simpl; lia].
    + intros Hlen. simpl. rewrite length_take. lia.
    + intros Hlen. rewrite Hlen. reflexivity.
Qed.

Lemma X20_palettes_keep_distinct_colors_witness :
  List.NoDup (Picker.updateColor "#123456"
                (WledDraw.colorPalette WledDraw.initial))
  /\ Picker.updateColor "#123456" (WledDraw.colorPalette WledDraw.initial)
     = Picker.addToColorHistory "#123456"
         (WledDraw.colorPalette WledDraw.initial).
Proof.
  assert (Hdistinct : List.NoDup (WledDraw.colorPalette WledDraw.initial)).
  { simpl. repeat (constructor; [simpl; intuition discriminate|]).
    constructor. }
  destruct (X20_palettes_keep_distinct_colors "#123456"
              (WledDraw.colorPalette WledDraw.initial) Hdistinct)
    as (Hnodup & _ & _ & _ & _ & _ & _ & _ & Hagree).
  split; [exact Hnodup | apply Hagree; reflexivity].
Defined.

(** ** Colors as channels and as text *)

Section Channels.

Import Gradient Stops Picker.
Local Open Scope R_scope.

Lemma updateRgbValues_channels (hex : string) (r g b : Z) :
  channels hex = Some (r, g, b) ->
  updateRgbValues hex = (Some r, Some g, Some b).
Proof.
  unfold channels, updateRgbValues.
  destruct (parseInt16 (substring 1 3 hex)); [|discriminate].
  destruct (parseInt16 (substring 3 5 hex)); [|discriminate].
  destruct (parseInt16 (substring 5 7 hex)); [|discriminate].
  intros [= -> -> ->]. reflexivity.
Qed.

Lemma Math_round_byte (x : R) :
  0 <= x <= 255 -> byte_range (Math_round x).
Proof.
  intros Hx. unfold byte_range, Math_round.
  pose proof (Zfloor_bound (x + / 2)) as Hb.
  split.
  - apply Zfloor_lub. simpl. lra.
  - apply Z.lt_succ_r, lt_IZR. rewrite succ_IZR. lra.
Qed.

Lemma Math_round_IZR (z : Z) : Math_round (IZR z) = z.
Proof. apply Math_round_eq. lra. Qed.

Lemma rgbToHex_printed (r g b : R) :
  rgbToHex r g b
  = updateHexFromRgb (Math_round r) (Math_round g) (Math_round b).
Proof.
  reflexivity.
Qed.

End Channels.

(** X21. Channels and text convert back and forth: three channels between
    0 and 255 are printed by [updateHexFromRgb] as a hex color from which
    [updateRgbValues] reads the same three channels; [rgbToHex] prints
    three numbers between 0 and 255 as the hex color of their rounded
    values; and the channels read from a hex color lie between 0 and 255, so
    that printing them and reading the result gives them again. *)
Theorem X21_channels_and_text_round_trip (r g b : Z) (x y z : R)
    (hex : string)
    (Hr : Stops.byte_range r) (Hg : Stops.byte_range g)
    (Hb : Stops.byte_range b)
    (Hx : (0 <= x <= 255)%R) (Hy : (0 <= y <= 255)%R)
    (Hz : (0 <= z <= 255)%R)
    (Hhex : Stops.hex_color hex = true) :
  Stops.hex_color (Picker.updateHexFromRgb r g b) = true
  /\ Picker.updateRgbValues (Picker.updateHexFromRgb r g b)
     = (Some r, Some g, Some b)
  /\ Stops.hex_color (Picker.rgbToHex x y z) = true
  /\ Picker.updateRgbValues (Picker.rgbToHex x y z)
     = (Some (Gradient.Math_round x), Some (Gradient.Math_round y),
        Some (Gradient.Math_round z))
  /\ Picker.rgbToHex (IZR r) (IZR g) (IZR b) = Picker.updateHexFromRgb r g b
  /\ exists r' g' b',
       Picker.updateRgbValues hex = (Some r', Some g', Some b')
       /\ Stops.byte_range r' /\ Stops.byte_range g' /\ Stops.byte_range b'
       /\ Picker.updateRgbValues (Picker.updateHexFromRgb r' g' b')
          = Picker.updateRgbValues hex.
Proof.
  destruct (channels_of_printed r g b Hr Hg Hb) as [Hh1 Hc1].
  destruct (channels_of_printed _ _ _ (Math_round_byte x Hx)
              (Math_round_byte y Hy) (Math_round_byte z Hz)) as [Hh2 Hc2].
  cbv zeta in Hh1, Hc1, Hh2, Hc2.
  split; [exact Hh1|].
  split; [apply updateRgbValues_channels, Hc1|].
  rewrite !rgbToHex_printed.
  split; [exact Hh2|].
  split; [apply updateRgbValues_channels, Hc2|].
  split; [rewrite !Math_round_IZR; reflexivity|].
  destruct (hex_color_channels hex Hhex) as (r' & g' & b' & Hc).
  destruct (channels_byte _ _ _ _ Hc) as (Hr' & Hg' & Hb').
  exists r', g', b'.
  rewrite (updateRgbValues_channels _ _ _ _ Hc).
  split; [reflexivity|]. split; [exact Hr'|]. split; [exact Hg'|].
  split; [exact Hb'|].
  destruct (channels_of_printed r' g' b' Hr' Hg' Hb') as [_ Hc'].
  apply updateRgbValues_channels, Hc'.
Qed.

Lemma X21_channels_and_text_round_trip_witness :
  Picker.updateRgbValues (Picker.updateHexFromRgb 255 37 0)
  = (Some 255%Z, Some 37%Z, Some 0%Z)
  /\ Stops.hex_color (Picker.rgbToHex 12.5 0 255) = true.
Proof.
  destruct (X21_channels_and_text_round_trip 255 37 0 12.5 0 255 "#ff2500"
              ltac:(unfold Stops.byte_range; lia)
              ltac:(unfold Stops.byte_range; lia)
              ltac:(unfold Stops.byte_range; lia)
              ltac:(lra) ltac:(lra) ltac:(lra) eq_refl)
    as (_ & Hread & Hhex & _).
  split; [exact Hread | exact Hhex].
Defined.

(** ** The text of the request *)

Section PayloadText.

Import Payload.

Lemma replaceAll_app (c : ascii) (rep a b : string) :
  replaceAll c rep (a +:+ b) = replaceAll c rep a +:+ replaceAll c rep b.
Proof.
  induction a as [|d a IH]; [reflexivity|].
  rewrite append_cons. simpl. rewrite IH.
  destruct (Ascii.eqb d c); [rewrite append_assoc; reflexivity|].
  rewrite append_cons. reflexivity.
Qed.

Lemma replaceAll_join (c : ascii) (rep sep : string) (l : list string) :
  replaceAll c rep sep = sep ->
  replaceAll c rep (join sep l) = join sep (map (replaceAll c rep) l).
Proof.
  intros Hsep. unfold join. induction l as [|x l IH]; [reflexivity|].
  destruct l as [|y l]; [reflexivity|].
  change (String.concat sep (x :: y :: l))
    with (x +:+ sep +:+ String.concat sep (y :: l)).
  rewrite !replaceAll_app, Hsep, IH. reflexivity.
Qed.

Lemma occurs_app (c : ascii) (a b : string) :
  occurs c (a +:+ b) = occurs c a || occurs c b.
Proof.
  induction a as [|d a IH]; [reflexivity|].
  rewrite append_cons. simpl. rewrite IH, orb_assoc. reflexivity.
Qed.

Lemma occurs_replaceAll (c : ascii) (t : string) :
  occurs c (replaceAll c "" t) = false.
Proof.
  induction t as [|d t IH]; [reflexivity|]. simpl.
  destruct (Ascii.eqb d c) eqn:Hd; [exact IH|].
  simpl. rewrite Hd, IH. reflexivity.
Qed.

End PayloadText.

(** X22. The request never holds a [#]: the list of colors of the debounced
    composable is the comma-joined list of what each cell contributes (the
    quoted color without its [#], black for [undefined] and the empty
    string, nothing for a hole), neither this list nor the whole body of
    the request holds a [#], and neither does the serpentine list of
    colors of [Controls.vue]. *)
Theorem X22_request_holds_no_hash (s : WledDraw.State) (w h : nat)
    (cells : list cell) :
  WledDraw.formattedColors s
  = join "," (map Payload.entry (WledDraw.pixelData s))
  /\ Payload.occurs "#" (WledDraw.formattedColors s) = false
  /\ Payload.occurs "#" (WledDraw.wledJson s) = false
  /\ Payload.occurs "#" (Controls.formattedColors w h cells) = false.
Proof.
  split; [|split; [|split]].
  - unfold WledDraw.formattedColors, map_join.
    rewrite replaceAll_join by reflexivity. rewrite map_map.
    f_equal. apply map_ext. intros [| |t]; try reflexivity.
    unfold Payload.entry. rewrite !replaceAll_app. reflexivity.
  - apply occurs_replaceAll.
  - unfold WledDraw.wledJson. rewrite !occurs_app.
    unfold WledDraw.formattedColors. rewrite occurs_replaceAll. reflexivity.
  - apply occurs_replaceAll.
Qed.

(** ** Saving and loading the settings *)

(** X24. The settings survive a reload: what [saveToLocalStorage] stores
    from a state whose current color is not empty and whose palette holds
    at least one color, none with a comma and not the empty string alone,
    is read back by [loadFromLocalStorage] into any state over that store
    as the same current color, palette, width, height and debounce delay.
    An empty current color or an empty palette is not read back: the state
    keeps its own. *)
Theorem X24_settings_survive_a_reload (s t : WledDraw.State)
    (Hstore : WledDraw.localStorage t
              = WledDraw.localStorage (WledDraw.saveToLocalStorage s)) :
  let t' := Startup.loadFromLocalStorage t in
  WledDraw.gridWidth t' = WledDraw.gridWidth s
  /\ WledDraw.gridHeight t' = WledDraw.gridHeight s
  /\ WledDraw.debounceDelay t' = WledDraw.debounceDelay s
  /\ (WledDraw.currentColor s <> "" ->
      WledDraw.currentColor t' = WledDraw.currentColor s)
  /\ (WledDraw.currentColor s = "" ->
      WledDraw.currentColor t' = WledDraw.currentColor t)
  /\ (WledDraw.colorPalette s <> [] -> WledDraw.colorPalette s <> [""] ->
      Forall Session.comma_free (WledDraw.colorPalette s) ->
      WledDraw.colorPalette t' = WledDraw.colorPalette s)
  /\ (WledDraw.colorPalette s = [] \/ WledDraw.colorPalette s = [""] ->
      WledDraw.colorPalette t' = WledDraw.colorPalette t).
Proof.
  intros t'. subst t'. unfold Startup.loadFromLocalStorage. cbv zeta.
  rewrite Hstore. cbn [WledDraw.saveToLocalStorage WledDraw.localStorage
    WledDraw.set_localStorage WledDraw.ls_currentColor
    WledDraw.ls_colorPalette WledDraw.ls_gridWidth WledDraw.ls_gridHeight
    WledDraw.ls_debounceDelay].
  split; [reflexivity|]. split; [reflexivity|]. split; [reflexivity|].
  split; [|split; [|split]].
  - intros Hc. destruct (WledDraw.currentColor s) eqn:Hcur; [congruence|].
    destruct (join "," (WledDraw.colorPalette s)); reflexivity.
  - intros ->.
    destruct (join "," (WledDraw.colorPalette s)); reflexivity.
  - intros Hne Hblank Hfree.
    destruct (join "," (WledDraw.colorPalette s)) as [|c r] eqn:Hj.
    + destruct (join_empty _ Hj); contradiction.
    + rewrite <- Hj.
      destruct (WledDraw.currentColor s); simpl;
        apply split_join; assumption.
  - intros Hp.
    assert (Hj : join "," (WledDraw.colorPalette s) = "")
      by (destruct Hp as [-> | ->]; reflexivity).
    rewrite Hj. destruct (WledDraw.currentColor s); reflexivity.
Qed.

Lemma X24_settings_survive_a_reload_witness :
  let t := WledDraw.saveToLocalStorage WledDraw.initial in
  WledDraw.localStorage t
  = WledDraw.localStorage (WledDraw.saveToLocalStorage WledDraw.initial)
  /\ WledDraw.colorPalette (Startup.loadFromLocalStorage t)
     = WledDraw.colorPalette WledDraw.initial
  /\ WledDraw.gridWidth (Startup.loadFromLocalStorage t) = 14.
Proof.
  intros t.
  destruct (X24_settings_survive_a_reload WledDraw.initial t eq_refl)
    as (Hw & _ & _ & _ & _ & Hpalette & _).
  split; [reflexivity|]. split; [|exact Hw].
  apply Hpalette; [discriminate | discriminate|].
  simpl. repeat (constructor; [simpl; repeat split; discriminate|]).
  constructor.
Defined.
